(** * A shallow embedding of the scoreboard of design/tb/tb.cc

    The development follows the source file from top to bottom: the
    protocol value types, the [DelayPipe] template, and the
    [ValidationModel] with its per-cycle handlers.  Vectors and arrays are
    lists read with stdpp's lookup and written with stdpp's insert;
    cursors are natural numbers reduced modulo the slot count exactly as
    in [DelayPipe::step]. *)

From Stdlib Require Import NArith Lia.
From stdpp Require Import base numbers list sorting strings.

Local Open Scope N_scope.

(** ** Protocol value types

    The classes are declared in tb.h; the fields are the ones the
    constructors in tb.cc initialise.  The integer types are unsigned,
    and the scoreboard does no arithmetic on keys, volumes, ids or
    levels (it compares them), so they are kept as [N]. *)

Definition id_t := N.
Definition key_t := N.
Definition volume_t := N.
Definition level_t := N.
Definition listsize_t := N.

Inductive Cmd := Clr | Add | Del | Rep.

Record UpdateCommand := mkUC {
  uc_vld : bool;
  uc_id : id_t;
  uc_cmd : Cmd;
  uc_key : key_t;
  uc_volume : volume_t
}.

Record QueryCommand := mkQC {
  qc_vld : bool;
  qc_id : id_t;
  qc_level : level_t
}.

Record QueryResponse := mkQR {
  qr_vld : bool;
  qr_key : key_t;
  qr_volume : volume_t;
  qr_error : bool;
  qr_listsize : listsize_t
}.

Record NotifyResponse := mkNR {
  nr_vld : bool;
  nr_id : id_t;
  nr_key : key_t;
  nr_volume : volume_t
}.

(** [T{}]: the value a default constructor yields.  The default
    constructors of tb.cc set only the validity flag; the remaining
    fields, which no consumer may read, are fixed to zero here. *)
Class DefaultCtor (T : Type) := T0 : T.
Global Hint Mode DefaultCtor ! : typeclass_instances.

Global Instance UpdateCommand_default : DefaultCtor UpdateCommand :=
  mkUC false 0 Clr 0 0.
Global Instance QueryCommand_default : DefaultCtor QueryCommand :=
  mkQC false 0 0.
Global Instance QueryResponse_default : DefaultCtor QueryResponse :=
  mkQR false 0 0 false 0.
Global Instance NotifyResponse_default : DefaultCtor NotifyResponse :=
  mkNR false 0 0 0.
(** Value-initialisation of an unsigned integer gives zero. *)
Global Instance nat_default : DefaultCtor nat := 0%nat.

(** The constructors that take every field set the flag. *)
Definition UpdateCommand_make (id : id_t) (c : Cmd) (k : key_t) (v : volume_t) :=
  mkUC true id c k v.
Definition QueryCommand_make (id : id_t) (l : level_t) := mkQC true id l.
Definition QueryResponse_make (k : key_t) (v : volume_t) (e : bool)
    (ls : listsize_t) := mkQR true k v e ls.
Definition NotifyResponse_make (id : id_t) (k : key_t) (v : volume_t) :=
  mkNR true id k v.

(** ** DelayPipe<T, N> *)

Module DelayPipe.
Section pipe.
Context {T : Type} `{!DefaultCtor T}.

Record t := mk {
  wr_ptr_ : nat;
  rd_ptr_ : nat;
  p_ : list T
}.

(** [p_[wr_ptr_] = t] *)
Definition push_back (d : t) (x : T) : t :=
  mk (wr_ptr_ d) (rd_ptr_ d) (<[wr_ptr_ d := x]> (p_ d)).

(** [return p_[rd_ptr_]] *)
Definition head (d : t) : T := nth (rd_ptr_ d) (p_ d) T0.

Definition step (N : nat) (d : t) : t :=
  mk ((wr_ptr_ d + 1) `mod` (N + 1))%nat
     ((rd_ptr_ d + 1) `mod` (N + 1))%nat
     (p_ d).

(** Every slot is overwritten with [T{}]; the write cursor goes to [N]
    and the read cursor to 0. *)
Definition clear (N : nat) (d : t) : t :=
  mk N 0%nat (replicate (length (p_ d)) T0).

(** The constructor: an array of [N + 1] slots, then [clear()]. *)
Definition make (N : nat) : t :=
  clear N (mk 0%nat 0%nat (replicate (N + 1) T0)).

(** One push between successive steps, in the order of
    [ValidationModel::step]: the cursors advance, the value of the
    cycle is pushed, and [head] is read afterwards.  [vs c] is the
    value pushed at cycle [c], cycles being counted from 1 after
    construction. *)
Fixpoint run (N : nat) (vs : nat → T) (c : nat) : t :=
  match c with
  | O => make N
  | S c' => push_back (step N (run N vs c')) (vs c)
  end.

(** The slot a push at cycle [c] writes. *)
Definition slot_of (N : nat) (vs : nat → T) (c : nat) : nat :=
  wr_ptr_ (run N vs c).
End pipe.
Global Arguments t : clear implicits.
End DelayPipe.


(** ** ValidationModel *)

Record Entry := mkEntry {
  key : key_t;
  volume : volume_t
}.

(** [Entry::operator<] compares keys only. *)
Definition Entry_lt (a b : Entry) : bool := key a <? key b.

Record PipeId := mkPipeId {
  pid_vld : bool;
  pid_id : id_t
}.
Global Instance PipeId_default : DefaultCtor PipeId := mkPipeId false 0.

(** Ascending by key. *)
Definition key_le (a b : Entry) : Prop := key a ≤ key b.

(** The entries of a context that carry key [k], in context order. *)
Definition with_key (k : key_t) (l : list Entry) : list Entry :=
  filter (λ e, key e = k) l.

(** [std::stable_sort(first, last)] with [operator<]: the sorted
    rearrangement in which elements that compare equivalent keep their
    order.  It is embedded as the insertion sort that puts an element in
    front of the first element that is not smaller than it;
    [stable_sort_unique] below shows that the standard's contract leaves
    no other result. *)
Fixpoint sort_insert (x : Entry) (l : list Entry) : list Entry :=
  match l with
  | [] => [x]
  | y :: r => if Entry_lt y x then y :: sort_insert x r else x :: y :: r
  end.

Fixpoint stable_sort (l : list Entry) : list Entry :=
  match l with
  | [] => []
  | x :: r => sort_insert x (stable_sort r)
  end.

(** [std::find_if]: an iterator to the first element that satisfies the
    predicate, given as its position and the element it points at;
    [None] stands for the end iterator. *)
Fixpoint find_if (p : Entry → bool) (l : list Entry) : option (nat * Entry) :=
  match l with
  | [] => None
  | e :: r => if p e then Some (0%nat, e) else prod_map S id <$> find_if p r
  end.

(** [static_cast<U>(n)] for an unsigned type [U] of [w] bits. *)
Definition static_cast (w : N) (n : N) : N := n mod 2 ^ w.

Definition QUERY_PIPE_DELAY : nat := 1.
Definition UPDATE_PIPE_DELAY : nat := 4.

Record ValidationModel := mkVM {
  uc_ : UpdateCommand;
  qc_ : QueryCommand;
  qr_ : QueryResponse;
  nr_ : NotifyResponse;
  tbl_ : list (list Entry);
  notify_pipe_ : DelayPipe.t NotifyResponse;
  id_pipe_ : DelayPipe.t PipeId;
  queries_pipe_ : DelayPipe.t QueryResponse
}.

Definition set_tbl (f : list (list Entry) → list (list Entry))
    (m : ValidationModel) : ValidationModel :=
  mkVM (uc_ m) (qc_ m) (qr_ m) (nr_ m) (f (tbl_ m))
       (notify_pipe_ m) (id_pipe_ m) (queries_pipe_ m).

Definition set_notify_pipe
    (f : DelayPipe.t NotifyResponse → DelayPipe.t NotifyResponse)
    (m : ValidationModel) : ValidationModel :=
  mkVM (uc_ m) (qc_ m) (qr_ m) (nr_ m) (tbl_ m)
       (f (notify_pipe_ m)) (id_pipe_ m) (queries_pipe_ m).

Definition set_queries_pipe
    (f : DelayPipe.t QueryResponse → DelayPipe.t QueryResponse)
    (m : ValidationModel) : ValidationModel :=
  mkVM (uc_ m) (qc_ m) (qr_ m) (nr_ m) (tbl_ m)
       (notify_pipe_ m) (id_pipe_ m) (f (queries_pipe_ m)).

(** A handler either runs to its end or stops at a failed [ASSERT_LT]. *)
Inductive outcome :=
  | Done (m : ValidationModel)
  | Fatal (m : ValidationModel).

(** Modelled from the spec: the definition of the macro [ASSERT_LT], which
    tb.cc takes from a header.  A failed assertion is a fatal
    precondition violation that aborts the run at once: the handler stops
    where the assertion stands, and so does everything that was to run
    after it.  [Fatal] carries the model as it is at that point. *)
Definition ASSERT_LT (a b : N) (m : ValidationModel)
    (k : ValidationModel → outcome) : outcome :=
  if a <? b then k m else Fatal m.

(** The model an outcome carries. *)
Definition model_of (o : outcome) : ValidationModel :=
  match o with
  | Done m | Fatal m => m
  end.

Definition and_then (o : outcome) (k : ValidationModel → outcome) : outcome :=
  match o with
  | Done m => k m
  | Fatal m => Fatal m
  end.

Section model.
(** [cfg::CONTEXT_N] and [cfg::ENTRIES_N] are generated into cfg.h at
    configuration time, and [listsize_t] is declared in tb.h; the
    constants and the width of the type are parameters here. *)
Variable CONTEXT_N : nat.
Variable ENTRIES_N : nat.
Variable LISTSIZE_W : N.

Definition apply_uc (uc : UpdateCommand) (m : ValidationModel) :=
  mkVM uc (qc_ m) (qr_ m) (nr_ m) (tbl_ m)
       (notify_pipe_ m) (id_pipe_ m) (queries_pipe_ m).
Definition apply_qc (qc : QueryCommand) (m : ValidationModel) :=
  mkVM (uc_ m) qc (qr_ m) (nr_ m) (tbl_ m)
       (notify_pipe_ m) (id_pipe_ m) (queries_pipe_ m).
Definition apply_qr (qr : QueryResponse) (m : ValidationModel) :=
  mkVM (uc_ m) (qc_ m) qr (nr_ m) (tbl_ m)
       (notify_pipe_ m) (id_pipe_ m) (queries_pipe_ m).
Definition apply_nr (nr : NotifyResponse) (m : ValidationModel) :=
  mkVM (uc_ m) (qc_ m) (qr_ m) nr (tbl_ m)
       (notify_pipe_ m) (id_pipe_ m) (queries_pipe_ m).

(** [reset()] clears every vector of [tbl_] and touches nothing else. *)
Definition reset (m : ValidationModel) : ValidationModel :=
  set_tbl (fmap (λ _, [])) m.

(** The constructor: the members are default-constructed (each pipe
    clears itself), then [reset()] runs. *)
Definition make : ValidationModel :=
  reset (mkVM T0 T0 T0 T0 (replicate CONTEXT_N [])
              (DelayPipe.make UPDATE_PIPE_DELAY)
              (DelayPipe.make UPDATE_PIPE_DELAY)
              (DelayPipe.make QUERY_PIPE_DELAY)).

(** [tbl_[id]] *)
Definition ctxt_at (m : ValidationModel) (id : id_t) : list Entry :=
  default [] (tbl_ m !! N.to_nat id).

(** The [switch] of [handle_uc] on the addressed context: the context
    it leaves behind and the response it hands to the final
    [push_back], or [None] where it leaves through [return] and the
    final [push_back] is not reached. *)
Definition handle_uc_switch (uc : UpdateCommand) (ctxt : list Entry)
    : list Entry * option NotifyResponse :=
  match uc_cmd uc with
  | Clr =>
      let nr := match ctxt with
                | e :: _ => NotifyResponse_make (uc_id uc) (key e) (volume e)
                | [] => T0
                end in
      ([], Some nr)
  | Add =>
      let nr := match ctxt with
                | [] => NotifyResponse_make (uc_id uc) (uc_key uc) (uc_volume uc)
                | _ :: _ => T0
                end in
      let pushed := ctxt ++ [mkEntry (uc_key uc) (uc_volume uc)] in
      let sorted := stable_sort pushed in
      (if (ENTRIES_N <? length sorted)%nat then removelast sorted else sorted,
       Some nr)
  | Rep | Del =>
      match find_if (λ e, key e =? uc_key uc) ctxt with
      | None => (ctxt, None)
      | Some (it, e) =>
          let nr := match it with
                    | O => NotifyResponse_make (uc_id uc) (key e) (volume e)
                    | S _ => T0
                    end in
          (match uc_cmd uc with
           | Rep => <[it := mkEntry (key e) (uc_volume uc)]> ctxt
           | _ => delete it ctxt
           end,
           Some nr)
      end
  end.

Definition handle_uc (m : ValidationModel) : outcome :=
  if negb (uc_vld (uc_ m)) then
    Done (set_notify_pipe (λ p, DelayPipe.push_back p T0) m)
  else
    ASSERT_LT (uc_id (uc_ m)) (N.of_nat CONTEXT_N) m (λ m,
      let id := uc_id (uc_ m) in
      let '(ctxt, nr) := handle_uc_switch (uc_ m) (ctxt_at m id) in
      let m := set_tbl (λ t, <[N.to_nat id := ctxt]> t) m in
      match nr with
      | None => Done m
      | Some nr => Done (set_notify_pipe (λ p, DelayPipe.push_back p nr) m)
      end).

Definition handle_qc (m : ValidationModel) : outcome :=
  if qc_vld (qc_ m) then
    ASSERT_LT (qc_id (qc_ m)) (N.of_nat CONTEXT_N) m (λ m,
      let ctxt := ctxt_at m (qc_id (qc_ m)) in
      let level := qc_level (qc_ m) in
      let error := N.of_nat (length ctxt) <=? level in
      let qr :=
        if error then QueryResponse_make 0 0 true 0
        else
          match ctxt !! N.to_nat level with
          | Some e =>
              let listsize := static_cast LISTSIZE_W (N.of_nat (length ctxt)) in
              QueryResponse_make (key e) (volume e) false listsize
          | None => T0
          end in
      Done (set_queries_pipe (λ p, DelayPipe.push_back p qr) m))
  else
    Done (set_queries_pipe (λ p, DelayPipe.push_back p T0) m).

(** [handle_qr] has an empty body. *)
Definition handle_qr (m : ValidationModel) : outcome := Done m.

(** [handle_nr] changes no member; what its [EXPECT_EQ]s report is
    whether the prediction due this cycle agrees with the sampled
    response. *)
Definition notify_agrees (m : ValidationModel) : bool :=
  let predicted := DelayPipe.head (notify_pipe_ m) in
  let actual := nr_ m in
  Bool.eqb (nr_vld predicted) (nr_vld actual)
  && (if nr_vld predicted
      then (nr_id predicted =? nr_id actual)
           && (nr_key predicted =? nr_key actual)
           && (nr_volume predicted =? nr_volume actual)
      else true).
Definition handle_nr (m : ValidationModel) : outcome := Done m.

Definition step (m : ValidationModel) : outcome :=
  let m := set_notify_pipe (DelayPipe.step UPDATE_PIPE_DELAY) m in
  let m := set_queries_pipe (DelayPipe.step QUERY_PIPE_DELAY) m in
  and_then (handle_uc m) (λ m,
  and_then (handle_qc m) (λ m,
  and_then (handle_qr m) handle_nr)).

(** One falling clock edge of [TB::run]: the four [apply] calls, then
    [step]. *)
Definition cycle (uc : UpdateCommand) (qc : QueryCommand)
    (nr : NotifyResponse) (qr : QueryResponse) (m : ValidationModel) : outcome :=
  step (apply_qr qr (apply_nr nr (apply_qc qc (apply_uc uc m)))).

(** The models a run of [TB::run] can hold: the constructed one, the
    one a completed cycle leaves, and the one [reset()] leaves. *)
Inductive reachable : ValidationModel → Prop :=
  | reachable_make : reachable make
  | reachable_cycle m uc qc nr qr m' :
      reachable m → cycle uc qc nr qr m = Done m' → reachable m'
  | reachable_reset m : reachable m → reachable (reset m).

(** Update commands handled one after the other on the same model. *)
Fixpoint handle_ucs (m : ValidationModel) (ucs : list UpdateCommand) : outcome :=
  match ucs with
  | [] => Done m
  | uc :: ucs => and_then (handle_uc (apply_uc uc m)) (λ m, handle_ucs m ucs)
  end.

(** Falling clock edges one after the other, each with its stimulus
    and its sampled responses. *)
Fixpoint cycles (m : ValidationModel)
    (ios : list (UpdateCommand * QueryCommand * NotifyResponse * QueryResponse))
    : outcome :=
  match ios with
  | [] => Done m
  | (uc, qc, nr, qr) :: ios =>
      and_then (cycle uc qc nr qr m) (λ m, cycles m ios)
  end.

(** What the contexts of a model satisfy between cycles: sorted by
    key and within capacity, one context per id. *)
Definition ctxt_ok (c : list Entry) : Prop :=
  StronglySorted key_le c ∧ (length c ≤ ENTRIES_N)%nat.

Definition model_ok (m : ValidationModel) : Prop :=
  length (tbl_ m) = CONTEXT_N ∧ Forall ctxt_ok (tbl_ m).
End model.

(** When a valid, in-range update command makes [handle_uc] push a
    valid response: a Clear of a non-empty context, an Add into an empty
    context, a Delete or Replace whose key is the key of the head. *)
Definition notify_trigger (uc : UpdateCommand) (ctxt : list Entry) : Prop :=
  match uc_cmd uc, ctxt with
  | Clr, _ :: _ => True
  | Add, [] => True
  | (Del | Rep), e :: _ => key e = uc_key uc
  | _, _ => False
  end.

(** The Add commands that insert the entries [es], in order, into the
    context [id]. *)
Definition adds (id : id_t) (es : list Entry) : list UpdateCommand :=
  (λ e, UpdateCommand_make id Add (key e) (volume e)) <$> es.

(** A cycle that carries only an update command, and an idle cycle. *)
Definition update_only (uc : UpdateCommand)
    : UpdateCommand * QueryCommand * NotifyResponse * QueryResponse :=
  (uc, T0, T0, T0).
Definition idle : UpdateCommand * QueryCommand * NotifyResponse * QueryResponse :=
  (T0, T0, T0, T0).

(** ** The delay pipe between cycles

    What the members of a [DelayPipe<T, N>] satisfy after construction
    and after every call: [N + 1] slots, the read cursor within them, and
    the write cursor [N] slots ahead of it, modulo [N + 1]. *)
Definition pipe_ok {T : Type} (N : nat) (d : DelayPipe.t T) : Prop :=
  length (DelayPipe.p_ d) = (N + 1)%nat
  ∧ (DelayPipe.rd_ptr_ d < N + 1)%nat
  ∧ DelayPipe.wr_ptr_ d = ((DelayPipe.rd_ptr_ d + N) `mod` (N + 1))%nat.

(** [p_[wr_ptr_]]: the slot the next [push_back] writes. *)
Definition staged {T : Type} `{!DefaultCtor T} (d : DelayPipe.t T) : T :=
  nth (DelayPipe.wr_ptr_ d) (DelayPipe.p_ d) T0.

(** One cycle of a pipe as [ValidationModel::step] drives it: [step()],
    then the [push_back] of the cycle, if the handler reaches one. *)
Definition tick {T : Type} (N : nat) (d : DelayPipe.t T) (x : option T)
    : DelayPipe.t T :=
  let d := DelayPipe.step N d in
  match x with
  | Some v => DelayPipe.push_back d v
  | None => d
  end.

Fixpoint ticks {T : Type} (N : nat) (d : DelayPipe.t T) (xs : list (option T))
    : DelayPipe.t T :=
  match xs with
  | [] => d
  | x :: xs => ticks N (tick N d x) xs
  end.

(** ** Runs of the model *)

Definition pipes_ok (m : ValidationModel) : Prop :=
  pipe_ok UPDATE_PIPE_DELAY (notify_pipe_ m)
  ∧ pipe_ok QUERY_PIPE_DELAY (queries_pipe_ m).

(** The response [handle_qc] computes for the pending query command on
    the addressed context, before it pushes it. *)
Definition query_answer (LISTSIZE_W : N) (qc : QueryCommand) (ctxt : list Entry)
    : QueryResponse :=
  if qc_vld qc then
    if N.of_nat (length ctxt) <=? qc_level qc then QueryResponse_make 0 0 true 0
    else
      match ctxt !! N.to_nat (qc_level qc) with
      | Some e =>
          QueryResponse_make (key e) (volume e) false
            (static_cast LISTSIZE_W (N.of_nat (length ctxt)))
      | None => T0
      end
  else T0.

Section runs.
Variable CONTEXT_N : nat.
Variable ENTRIES_N : nat.
Variable LISTSIZE_W : N.

(** [advance n m m']: [TB::run] takes the model from [m] to [m'] in [n]
    completed cycles, with calls of [reset()] anywhere between them. *)
Inductive advance : nat → ValidationModel → ValidationModel → Prop :=
  | advance_here m : advance 0 m m
  | advance_reset n m m' : advance n m m' → advance n m (reset m')
  | advance_cycle n m m' uc qc nr qr m'' :
      advance n m m' →
      cycle CONTEXT_N ENTRIES_N LISTSIZE_W uc qc nr qr m' = Done m'' →
      advance (S n) m m''.
End runs.

(** ** The drive loop: VDriver and TB::run

    [Vtb] is the simulation object of the hardware: the signals tb.cc
    reads and writes, and the state of the simulated design, which
    [eval()] advances.  The class is generated by the simulator; its
    state type and its [eval] are parameters, and each signal holds the
    value last assigned to it. *)
Record Vtb (HW : Type) := mkVtb {
  clk : bool;
  rst : bool;
  i_upd_vld : bool;
  i_upd_prod_id : N;
  i_upd_cmd : N;
  i_upd_key : N;
  i_upd_size : N;
  i_lut_vld : bool;
  i_lut_prod_id : N;
  i_lut_level : N;
  o_lv0_vld_r : N;
  o_lv0_prod_id_r : N;
  o_lv0_key_r : N;
  o_lv0_size_r : N;
  o_lut_key : N;
  o_lut_size : N;
  o_lut_error : N;
  o_lut_listsize : N;
  o_busy_r : N;
  o_tb_cycle : N;
  design : HW
}.
Global Arguments mkVtb {HW}.
Global Arguments clk {HW}.
Global Arguments rst {HW}.
Global Arguments i_upd_vld {HW}.
Global Arguments i_upd_prod_id {HW}.
Global Arguments i_upd_cmd {HW}.
Global Arguments i_upd_key {HW}.
Global Arguments i_upd_size {HW}.
Global Arguments i_lut_vld {HW}.
Global Arguments i_lut_prod_id {HW}.
Global Arguments i_lut_level {HW}.
Global Arguments o_lv0_vld_r {HW}.
Global Arguments o_lv0_prod_id_r {HW}.
Global Arguments o_lv0_key_r {HW}.
Global Arguments o_lv0_size_r {HW}.
Global Arguments o_lut_key {HW}.
Global Arguments o_lut_size {HW}.
Global Arguments o_lut_error {HW}.
Global Arguments o_lut_listsize {HW}.
Global Arguments o_busy_r {HW}.
Global Arguments o_tb_cycle {HW}.
Global Arguments design {HW}.

(** [utilities::to_bool] *)
Definition to_bool (v : N) : bool := negb (v =? 0).

(** The opcode [VDriver::Drive] puts on [i_upd_cmd]. *)
Definition cmd_opcode (c : Cmd) : N :=
  match c with
  | Clr => 0
  | Add => 1
  | Del => 2
  | Rep => 3
  end.

Section vdriver.
Context {HW : Type}.

Definition set_clk (b : bool) (tb : Vtb HW) : Vtb HW :=
  mkVtb b (rst tb)
    (i_upd_vld tb) (i_upd_prod_id tb) (i_upd_cmd tb) (i_upd_key tb) (i_upd_size tb)
    (i_lut_vld tb) (i_lut_prod_id tb) (i_lut_level tb)
    (o_lv0_vld_r tb) (o_lv0_prod_id_r tb) (o_lv0_key_r tb) (o_lv0_size_r tb)
    (o_lut_key tb) (o_lut_size tb) (o_lut_error tb) (o_lut_listsize tb)
    (o_busy_r tb) (o_tb_cycle tb) (design tb).

Definition set_rst (b : bool) (tb : Vtb HW) : Vtb HW :=
  mkVtb (clk tb) b
    (i_upd_vld tb) (i_upd_prod_id tb) (i_upd_cmd tb) (i_upd_key tb) (i_upd_size tb)
    (i_lut_vld tb) (i_lut_prod_id tb) (i_lut_level tb)
    (o_lv0_vld_r tb) (o_lv0_prod_id_r tb) (o_lv0_key_r tb) (o_lv0_size_r tb)
    (o_lut_key tb) (o_lut_size tb) (o_lut_error tb) (o_lut_listsize tb)
    (o_busy_r tb) (o_tb_cycle tb) (design tb).

(** [VDriver::Drive(tb, up)]: the valid input always, the other update
    inputs only for a valid command. *)
Definition Drive_uc (tb : Vtb HW) (up : UpdateCommand) : Vtb HW :=
  if uc_vld up then
    mkVtb (clk tb) (rst tb)
      true (uc_id up) (cmd_opcode (uc_cmd up)) (uc_key up) (uc_volume up)
      (i_lut_vld tb) (i_lut_prod_id tb) (i_lut_level tb)
      (o_lv0_vld_r tb) (o_lv0_prod_id_r tb) (o_lv0_key_r tb) (o_lv0_size_r tb)
      (o_lut_key tb) (o_lut_size tb) (o_lut_error tb) (o_lut_listsize tb)
      (o_busy_r tb) (o_tb_cycle tb) (design tb)
  else
    mkVtb (clk tb) (rst tb)
      false (i_upd_prod_id tb) (i_upd_cmd tb) (i_upd_key tb) (i_upd_size tb)
      (i_lut_vld tb) (i_lut_prod_id tb) (i_lut_level tb)
      (o_lv0_vld_r tb) (o_lv0_prod_id_r tb) (o_lv0_key_r tb) (o_lv0_size_r tb)
      (o_lut_key tb) (o_lut_size tb) (o_lut_error tb) (o_lut_listsize tb)
      (o_busy_r tb) (o_tb_cycle tb) (design tb).

(** [VDriver::Drive(tb, qc)] *)
Definition Drive_qc (tb : Vtb HW) (qc : QueryCommand) : Vtb HW :=
  if qc_vld qc then
    mkVtb (clk tb) (rst tb)
      (i_upd_vld tb) (i_upd_prod_id tb) (i_upd_cmd tb) (i_upd_key tb) (i_upd_size tb)
      true (qc_id qc) (qc_level qc)
      (o_lv0_vld_r tb) (o_lv0_prod_id_r tb) (o_lv0_key_r tb) (o_lv0_size_r tb)
      (o_lut_key tb) (o_lut_size tb) (o_lut_error tb) (o_lut_listsize tb)
      (o_busy_r tb) (o_tb_cycle tb) (design tb)
  else
    mkVtb (clk tb) (rst tb)
      (i_upd_vld tb) (i_upd_prod_id tb) (i_upd_cmd tb) (i_upd_key tb) (i_upd_size tb)
      false (i_lut_prod_id tb) (i_lut_level tb)
      (o_lv0_vld_r tb) (o_lv0_prod_id_r tb) (o_lv0_key_r tb) (o_lv0_size_r tb)
      (o_lut_key tb) (o_lut_size tb) (o_lut_error tb) (o_lut_listsize tb)
      (o_busy_r tb) (o_tb_cycle tb) (design tb).

(** [VDriver::Sample(tb, nr)] *)
Definition Sample_nr (tb : Vtb HW) : NotifyResponse :=
  if to_bool (o_lv0_vld_r tb)
  then NotifyResponse_make (o_lv0_prod_id_r tb) (o_lv0_key_r tb) (o_lv0_size_r tb)
  else T0.

(** [VDriver::Sample(tb, qr)] *)
Definition Sample_qr (tb : Vtb HW) : QueryResponse :=
  QueryResponse_make (o_lut_key tb) (o_lut_size tb)
    (to_bool (o_lut_error tb)) (o_lut_listsize tb).
End vdriver.

(** The directives [Test::on_negedge_clk] returns; [OtherStatus] stands
    for any enumerator the [switch] of [TB::run] sends to [default]. *)
Inductive Status := ApplyReset | RescindReset | Terminate | Continue | OtherStatus.

(** The state [TB::run] carries around its loop.  The locals [up], [qc],
    [nr] and [qr] are assigned at a falling edge before they are read
    and are not part of it. *)
Record TBState (HW TEST : Type) := mkTB {
  tb_time_ : N;
  uut_ : Vtb HW;
  mdl_ : ValidationModel;
  test_ : TEST;
  do_stepping : bool
}.
Global Arguments mkTB {HW TEST}.
Global Arguments tb_time_ {HW TEST}.
Global Arguments uut_ {HW TEST}.
Global Arguments mdl_ {HW TEST}.
Global Arguments test_ {HW TEST}.
Global Arguments do_stepping {HW TEST}.

(** How an iteration of the loop ends: the loop goes on, the loop
    condition fails, or an assertion of the model aborts the run. *)
Inductive tb_result (HW TEST : Type) :=
  | Running (s : TBState HW TEST)
  | Finished (s : TBState HW TEST)
  | Aborted (s : TBState HW TEST).
Global Arguments Running {HW TEST}.
Global Arguments Finished {HW TEST}.
Global Arguments Aborted {HW TEST}.

Section tb_run.
Variable CONTEXT_N : nat.
Variable ENTRIES_N : nat.
Variable LISTSIZE_W : N.
(** [tb_time_] is an integer member of [TIME_W] value bits. *)
Variable TIME_W : N.
(** The simulated design and its [eval()]. *)
Context {HW : Type}.
Variable eval : Vtb HW → Vtb HW.
(** The test: its state, and [on_negedge_clk(up, qc)], which may
    rewrite the two commands it is handed and returns a directive. *)
Context {TEST : Type}.
Variable on_negedge_clk :
  TEST → UpdateCommand → QueryCommand → TEST * UpdateCommand * QueryCommand * Status.

(** The body of [if (uut_->clk)]: immediately before the falling edge. *)
Definition negedge (s : TBState HW TEST) : tb_result HW TEST :=
  let '(t, up, qc, status) := on_negedge_clk (test_ s) T0 T0 in
  let uut := Drive_qc (Drive_uc (uut_ s) up) qc in
  let nr := Sample_nr uut in
  let qr := Sample_qr uut in
  match cycle CONTEXT_N ENTRIES_N LISTSIZE_W up qc nr qr (mdl_ s) with
  | Fatal m => Aborted (mkTB (tb_time_ s) uut m t (do_stepping s))
  | Done m =>
      match status with
      | ApplyReset =>
          Running (mkTB (tb_time_ s) (set_rst true uut) (reset m) t (do_stepping s))
      | RescindReset =>
          Running (mkTB (tb_time_ s) (set_rst false uut) m t (do_stepping s))
      | Terminate =>
          Running (mkTB (tb_time_ s) uut m t false)
      | Continue | OtherStatus =>
          Running (mkTB (tb_time_ s) uut m t (do_stepping s))
      end
  end.

(** One pass through the body of [while (do_stepping)], and the test of
    the loop condition that follows it. *)
Definition iteration (s : TBState HW TEST) : tb_result HW TEST :=
  let s := mkTB ((tb_time_ s + 1) mod 2 ^ TIME_W) (uut_ s) (mdl_ s) (test_ s)
                (do_stepping s) in
  let r :=
    if tb_time_ s mod 5 =? 0 then
      match (if clk (uut_ s) then negedge s else Running s) with
      | Running s =>
          Running (mkTB (tb_time_ s) (set_clk (negb (clk (uut_ s))) (uut_ s))
                        (mdl_ s) (test_ s) (do_stepping s))
      | r => r
      end
    else Running s in
  match r with
  | Running s =>
      let uut := eval (uut_ s) in
      let mdl := if clk uut && rst uut then reset (mdl_ s) else mdl_ s in
      let s := mkTB (tb_time_ s) uut mdl (test_ s) (do_stepping s) in
      if do_stepping s then Running s else Finished s
  | r => r
  end.

(** The state at the head of the loop, for a test that is not null. *)
Definition tb_start (uut : Vtb HW) (t : TEST) : TBState HW TEST :=
  mkTB 0 (set_rst false (set_clk false uut)) (make CONTEXT_N) t true.

(** The loop, followed for [n] iterations. *)
Fixpoint run_n (n : nat) (s : TBState HW TEST) : tb_result HW TEST :=
  match n with
  | O => Running s
  | S n =>
      match run_n n s with
      | Running s => iteration s
      | r => r
      end
  end.

(** The test after [k] calls of [on_negedge_clk], and the directive its
    call number [k] (from 0) returns. *)
Fixpoint test_after (k : nat) (t : TEST) : TEST :=
  match k with
  | O => t
  | S k => (on_negedge_clk (test_after k t) T0 T0).1.1.1
  end.

Definition status_at (k : nat) (t : TEST) : Status :=
  (on_negedge_clk (test_after k t) T0 T0).2.

(** Whether the directives of the first [k] calls leave the reset input
    asserted: the last ApplyReset or RescindReset among them decides. *)
Fixpoint reset_asserted (k : nat) (t : TEST) : bool :=
  match k with
  | O => false
  | S k =>
      match status_at k t with
      | ApplyReset => true
      | RescindReset => false
      | _ => reset_asserted k t
      end
  end.

(** The commands the call number [k] of [on_negedge_clk] hands back. *)
Definition commands_at (k : nat) (t : TEST) : UpdateCommand * QueryCommand :=
  let r := on_negedge_clk (test_after k t) T0 T0 in (r.1.1.2, r.1.2).

(** Both commands pass the assertions of the model. *)
Definition ids_ok (c : UpdateCommand * QueryCommand) : Prop :=
  (uc_vld c.1 = true → uc_id c.1 < N.of_nat CONTEXT_N)
  ∧ (qc_vld c.2 = true → qc_id c.2 < N.of_nat CONTEXT_N).

(** The loop aborted in its iteration number [n]. *)
Definition tb_aborted (t0 : TEST) (n : nat) : Prop :=
  ∃ k, n = (10 * S k)%nat ∧ ¬ ids_ok (commands_at k t0).

(** The reset input follows the directives, and a model that stands at
    the end of an iteration with clock and reset high has been reset. *)
Definition tb_reset_inv (t0 : TEST) (n : nat) (s : TBState HW TEST) : Prop :=
  rst (uut_ s) = reset_asserted (n / 10) t0
  ∧ (clk (uut_ s) = true → rst (uut_ s) = true →
     Forall (λ c, c = []) (tbl_ (mdl_ s))).

(** The loop after [n] iterations, still running. *)
Definition tb_running (t0 : TEST) (n : nat) (s : TBState HW TEST) : Prop :=
  tb_time_ s = N.of_nat n
  ∧ clk (uut_ s) = Nat.odd (n / 5)
  ∧ test_ s = test_after (n / 10) t0
  ∧ advance CONTEXT_N ENTRIES_N LISTSIZE_W (n / 10) (make CONTEXT_N) (mdl_ s)
  ∧ do_stepping s = true
  ∧ ∀ j, (j < n / 10)%nat → status_at j t0 ≠ Terminate.

(** The loop left at its iteration number [n]. *)
Definition tb_finished (t0 : TEST) (n : nat) (s : TBState HW TEST) : Prop :=
  ∃ k, n = (10 * S k)%nat
       ∧ tb_time_ s = N.of_nat n
       ∧ status_at k t0 = Terminate
       ∧ (∀ j, (j < k)%nat → status_at j t0 ≠ Terminate)
       ∧ test_ s = test_after (S k) t0
       ∧ advance CONTEXT_N ENTRIES_N LISTSIZE_W (S k) (make CONTEXT_N) (mdl_ s).
End tb_run.

(** The state a result of the loop carries. *)
Definition tb_state_of {HW TEST : Type} (r : tb_result HW TEST) : TBState HW TEST :=
  match r with
  | Running s | Finished s | Aborted s => s
  end.

(** A small drive loop to run the definitions on: a design without
    state whose [eval()] changes no signal, and a test that adds (5, 10)
    to context 0 in its first call and answers Terminate in its
    second. *)
Definition still_uut : Vtb unit :=
  mkVtb false false false 0 0 0 0 false 0 0 0 0 0 0 0 0 0 0 0 0 tt.

Definition two_call_test (t : nat) (up : UpdateCommand) (qc : QueryCommand)
    : nat * UpdateCommand * QueryCommand * Status :=
  (S t,
   match t with O => UpdateCommand_make 0 Add 5 10 | S _ => up end,
   qc,
   match t with 1%nat => Terminate | _ => Continue end).

(** A test that adds (5, 10) to context 0 in its first call, asks for
    reset in its second, adds (7, 1) in its third and then only lets
    the run continue. *)
Definition reset_test (t : nat) (up : UpdateCommand) (qc : QueryCommand)
    : nat * UpdateCommand * QueryCommand * Status :=
  (S t,
   match t with
   | 0%nat => UpdateCommand_make 0 Add 5 10
   | 2%nat => UpdateCommand_make 0 Add 7 1
   | _ => up
   end,
   qc,
   match t with 1%nat => ApplyReset | _ => Continue end).

(** ** Directed tests: the instruction list of tests/directed.cc

    A directed test queues instructions and its kernel callback
    [Impl::on_negedge_clk] works them off, one call per falling clock
    edge.  [VDriver::issue], [VDriver::is_busy] and the log are outside
    this file: a call is given the busy flag it would read, and what it
    hands to [issue] and to the log is part of its result. *)
Inductive Opcode := WaitUntilNotBusy | WaitCycles | Emit | EndSimulation.

Module Instruction.
Record t := mk {
  op : Opcode;
  n : N;
  uc : UpdateCommand;
  qc : QueryCommand
}.

(** [make_emit] leaves [n] as it is after construction; it is never
    read for this opcode and is zero here. *)
Definition make_emit (u : UpdateCommand) (q : QueryCommand) : t :=
  mk Emit 0 u q.

Definition make_wait (cycles : N) : t := mk WaitCycles cycles T0 T0.
End Instruction.

Module Directed.
(** The result of one call of [Impl::on_negedge_clk]: the deque it
    leaves, the pair of commands it issued, the line it logged, and the
    value it returned. *)
Record Call := mkCall {
  deque : list Instruction.t;
  issued : option (UpdateCommand * QueryCommand);
  logged : option string;
  returned : bool
}.

Section impl.
(** The number of bits of [std::size_t]. *)
Variable SIZE_W : N.

(** [--i->n] on a [std::size_t]. *)
Definition decrement (k : N) : N := (k + 2 ^ SIZE_W - 1) mod 2 ^ SIZE_W.

Definition on_negedge_clk (is_busy : bool) (d : list Instruction.t) : Call :=
  match d with
  | [] => mkCall [] None None false
  | i :: rest =>
      match Instruction.op i with
      | WaitUntilNotBusy =>
          if is_busy then mkCall d None None true
          else mkCall rest None (Some "Initialization complete!"%string) false
      | WaitCycles =>
          let k := decrement (Instruction.n i) in
          if k =? 0 then mkCall rest (Some (T0, T0)) None false
          else
            mkCall (Instruction.mk (Instruction.op i) k
                      (Instruction.uc i) (Instruction.qc i) :: rest)
                   (Some (T0, T0)) None false
      | Emit =>
          mkCall rest (Some (Instruction.uc i, Instruction.qc i)) None false
      | EndSimulation =>
          mkCall rest None (Some "Simulation complete!"%string) false
      end
  end.

(** One call per falling edge, each with the busy flag of its edge: the
    deque that is left and what the calls issued, in order. *)
Fixpoint calls (busy : list bool) (d : list Instruction.t)
    : list Instruction.t * list (option (UpdateCommand * QueryCommand)) :=
  match busy with
  | [] => (d, [])
  | b :: busy =>
      let c := on_negedge_clk b d in
      let r := calls busy (deque c) in
      (r.1, issued c :: r.2)
  end.
End impl.

(** [Directed::push_back(uc, qc)] and [Directed::wait_cycles(n)] on the
    deque [d_]. *)
Definition push_back (u : UpdateCommand) (q : QueryCommand)
    (d : list Instruction.t) : list Instruction.t :=
  d ++ [Instruction.make_emit u q].

Definition wait_cycles (cycles : N) (d : list Instruction.t)
    : list Instruction.t :=
  d ++ [Instruction.make_wait cycles].

(** What an instruction is meant to put on the interfaces: one pair for
    an emit, [n] pairs of invalid commands for a wait. *)
Definition stimulus (i : Instruction.t) : list (UpdateCommand * QueryCommand) :=
  match Instruction.op i with
  | Emit => [(Instruction.uc i, Instruction.qc i)]
  | WaitCycles => replicate (N.to_nat (Instruction.n i)) (T0, T0)
  | _ => []
  end.

(** An emit, or a wait whose count is at least 1 and fits [size_t]. *)
Definition timed (SIZE_W : N) (i : Instruction.t) : Prop :=
  Instruction.op i = Emit
  ∨ (Instruction.op i = WaitCycles
     ∧ 1 ≤ Instruction.n i ∧ Instruction.n i < 2 ^ SIZE_W).
End Directed.

(** ** The command line driver of tb/driver.cc

    [Driver::execute] walks over [argv[1 .. argc - 1]].  The test
    registry, the builders in it and the tests they construct are
    outside this file: the registry is given by the list [tests()]
    returns and by its [get], a builder by its name and by whether the
    test it constructs returns true from [run()].  What the driver
    prints and which tests it runs is recorded in order. *)
Module Driver.
Inductive Event (B : Type) :=
  | Printed (line : string)
  | Ran (b : B).
Global Arguments Printed {B}.
Global Arguments Ran {B}.

Record t (B : Type) := mk {
  status_ : N;
  vcd_on_ : bool;
  verbose_ : bool;
  trace_ : list (Event B)
}.
Global Arguments mk {B}.
Global Arguments status_ {B}.
Global Arguments vcd_on_ {B}.
Global Arguments verbose_ {B}.
Global Arguments trace_ {B}.

(** [execute] returns, or constructs a [std::string] from the null
    pointer that ends [argv], which has no defined behaviour. *)
Inductive Exec (B : Type) :=
  | Returned (d : t B)
  | Undefined (d : t B).
Global Arguments Returned {B}.
Global Arguments Undefined {B}.

Definition state_of {B : Type} (r : Exec B) : t B :=
  match r with Returned d | Undefined d => d end.

Definition usage : list string :=
  [" -h|--help         Print help and quit.";
   " -v                Verbose";
   " --list            List testcases";
   " --vcd             Enable waveform tracing (VCD)";
   " --run <args>      Run testcase";
   " --run_all         Run all testcases"]%string.

Section driver.
Context {B : Type}.
Variable tests : list B.
Variable get : string → option B.
Variable name : B → string.
Variable passes : B → bool.

(** The constructor: status 0, tracing off. *)
Definition make : t B := mk 0 false false [].

Definition set_status (st : N) (d : t B) : t B :=
  mk st (vcd_on_ d) (verbose_ d) (trace_ d).

Definition emit (es : list (Event B)) (d : t B) : t B :=
  mk (status_ d) (vcd_on_ d) (verbose_ d) (trace_ d ++ es).

(** [run] on a builder: construct the test and run it. *)
Definition run_builder (b : B) (d : t B) : t B * bool :=
  (emit [Ran b] d, passes b).

(** [run] on a name: look the name up; an unknown name is a failure
    and runs nothing. *)
Definition run_named (targs : string) (d : t B) : t B * bool :=
  match get targs with
  | Some b => run_builder b d
  | None => (d, false)
  end.

(** The loop of [--runall]: it stops behind the first test that
    fails. *)
Fixpoint run_all (bs : list B) (d : t B) : t B * bool :=
  match bs with
  | [] => (d, true)
  | b :: bs =>
      let r := run_builder b d in
      if r.2 then run_all bs r.1 else (r.1, false)
  end.

Fixpoint execute (args : list string) (d : t B) : Exec B :=
  match args with
  | [] => Returned d
  | argstr :: rest =>
      if ((argstr =? "--help") || (argstr =? "-h"))%string then
        Returned (set_status 1 (emit (Printed <$> usage) d))
      else if (argstr =? "-v")%string then
        execute rest (mk (status_ d) (vcd_on_ d) true (trace_ d))
      else if (argstr =? "--list")%string then
        Returned (set_status 1 (emit ((λ b, Printed (name b)) <$> tests) d))
      else if (argstr =? "--vcd")%string then
        let d := mk (status_ d) true (verbose_ d) (trace_ d) in
        match rest with
        | [] => Returned d
        | _ :: rest => execute rest d
        end
      else if (argstr =? "--runall")%string then
        let r := run_all tests d in
        if r.2 then execute rest r.1 else Returned (set_status 1 r.1)
      else if (argstr =? "--run")%string then
        match rest with
        | [] => Undefined d
        | targs :: rest =>
            let r := run_named targs d in
            if r.2 then execute rest r.1 else Returned (set_status 1 r.1)
        end
      else
        Returned (set_status 1
                    (emit [Printed ("Unknown argument: " +:+ argstr)%string] d))
  end.

(** An event that is not the run of a failing test. *)
Definition no_failure (e : Event B) : Prop :=
  ∀ b, e = Ran b → passes b = true.
End driver.

(** A registry of two tests, named by themselves, of which the second
    fails. *)
Definition two_tests : list string := ["smoke"; "stress"]%string.

Definition two_tests_get (n : string) : option string :=
  if decide (n ∈ two_tests) then Some n else None.

Definition two_tests_passes (b : string) : bool := (b =? "smoke")%string.
End Driver.

(** ** Facts about the delay pipe *)

Section pipe_facts.
Context {T : Type} `{!DefaultCtor T}.
Import DelayPipe.

Lemma mod_apart (M a d : nat) :
  (0 < d < M)%nat → ((a + d) `mod` M)%nat ≠ (a `mod` M)%nat.
Proof.
  intros Hd E.
  pose proof (Nat.div_mod_eq (a + d) M) as H1.
  pose proof (Nat.div_mod_eq a M) as H2.
  assert (Hr : (a `mod` M < M)%nat) by (apply Nat.mod_upper_bound; lia).
  rewrite E in H1.
  assert (M * ((a + d) `div` M) = M * (a `div` M) + d)%nat as H3 by lia.
  assert ((a + d) `div` M = a `div` M ∨ (a + d) `div` M ≥ S (a `div` M)
          ∨ (a + d) `div` M < a `div` M)%nat as [Hq|[Hq|Hq]] by lia; nia.
Qed.

Lemma mod_succ (M a : nat) :
  (0 < M)%nat → ((a `mod` M + 1) `mod` M)%nat = ((a + 1) `mod` M)%nat.
Proof.
  intros HM. rewrite <- (Nat.Div0.add_mod_idemp_l a 1 M). done.
Qed.

(** The state of the pipe after [c] cycles: the cursors, and for every
    distance [d <= N] back in time the slot that holds the push of
    cycle [c - d] (or [T{}] where the run is younger than that). *)
Lemma run_inv (N : nat) (vs : nat → T) (c : nat) :
  wr_ptr_ (run N vs c) = ((c + N) `mod` (N + 1))%nat ∧
  rd_ptr_ (run N vs c) = (c `mod` (N + 1))%nat ∧
  length (p_ (run N vs c)) = (N + 1)%nat ∧
  ∀ d, (d ≤ N)%nat →
    p_ (run N vs c) !! ((c + N + (N + 1 - d)) `mod` (N + 1))%nat
    = Some (if (d <? c)%nat then vs (c - d)%nat else T0).
Proof.
  induction c as [|c (Hw & Hr & Hl & Hp)].
  - cbn. rewrite !length_replicate.
    split_and!.
    + symmetry. apply Nat.mod_small. lia.
    + symmetry. apply Nat.mod_small. lia.
    + done.
    + intros d Hd. apply lookup_replicate_2.
      apply Nat.mod_upper_bound. lia.
  - cbn [run push_back step wr_ptr_ rd_ptr_ p_].
    rewrite Hw, Hr, !mod_succ by lia.
    replace (c + N + 1)%nat with (S c + N)%nat by lia.
    replace (c + 1)%nat with (S c) by lia.
    split_and!; [done | done | by rewrite length_insert |].
    intros d Hd.
    destruct (decide (d = 0%nat)) as [->|Hd0].
    + replace (S c + N + (N + 1 - 0))%nat with (S c + N + 1 * (N + 1))%nat by lia.
      rewrite Nat.Div0.mod_add.
      rewrite list_lookup_insert_eq.
      * replace (0 <? S c)%nat with true by (symmetry; apply Nat.ltb_lt; lia).
        f_equal; f_equal; lia.
      * rewrite Hl. apply Nat.mod_upper_bound. lia.
    + rewrite list_lookup_insert_ne.
      * replace (S c + N + (N + 1 - d))%nat
          with (c + N + (N + 1 - (d - 1)))%nat by lia.
        rewrite Hp by lia.
        f_equal.
        destruct (Nat.ltb_spec (d - 1) c), (Nat.ltb_spec d (S c));
          first [ lia | done | f_equal; lia ].
      * intros E. symmetry in E. revert E.
        replace (S c + N + (N + 1 - 0))%nat
          with (S c + N + (N + 1 - d) + d)%nat by lia.
        apply mod_apart. lia.
Qed.

Lemma head_run (N : nat) (vs : nat → T) (c : nat) :
  head (run N vs c) = if (N <? c)%nat then vs (c - N)%nat else T0.
Proof.
  destruct (run_inv N vs c) as (_ & Hr & _ & Hp).
  unfold head. rewrite nth_lookup, Hr.
  specialize (Hp N (le_n _)).
  replace (c + N + (N + 1 - N))%nat with (c + 1 * (N + 1))%nat in Hp by lia.
  rewrite Nat.Div0.mod_add in Hp. by rewrite Hp.
Qed.
End pipe_facts.

(** ** Facts about the stable sort *)

Global Instance key_le_trans : Transitive key_le.
Proof. intros a b c; unfold key_le; lia. Qed.

Section sort_facts.
Implicit Types (l r : list Entry) (x y : Entry) (k : key_t).

Lemma Entry_lt_spec x y : Entry_lt x y = true ↔ key x < key y.
Proof. unfold Entry_lt. apply N.ltb_lt. Qed.

Lemma sort_insert_perm x l : sort_insert x l ≡ₚ x :: l.
Proof.
  induction l as [|y r IH]; cbn; [done|].
  destruct (Entry_lt y x); [|done].
  rewrite IH. apply Permutation_swap.
Qed.

Lemma stable_sort_perm l : stable_sort l ≡ₚ l.
Proof.
  induction l as [|x r IH]; cbn; [done|].
  by rewrite sort_insert_perm, IH.
Qed.

Lemma length_stable_sort l : length (stable_sort l) = length l.
Proof. by rewrite stable_sort_perm. Qed.

Lemma sort_insert_sorted x l :
  StronglySorted key_le l → StronglySorted key_le (sort_insert x l).
Proof.
  induction 1 as [|y r Hr IH Hy]; cbn.
  - repeat constructor.
  - destruct (Entry_lt y x) eqn:E.
    + constructor; [done|].
      rewrite sort_insert_perm. constructor; [|done].
      apply Entry_lt_spec in E. unfold key_le. lia.
    + assert (key_le x y).
      { unfold key_le. destruct (N.lt_ge_cases (key y) (key x)) as [Hlt|]; [|done].
        apply Entry_lt_spec in Hlt. congruence. }
      constructor; [by constructor|].
      constructor; [done|].
      eapply Forall_impl; [exact Hy|]. intros z ?. by etrans.
Qed.

Lemma stable_sort_sorted l : StronglySorted key_le (stable_sort l).
Proof.
  induction l; cbn; [constructor | by apply sort_insert_sorted].
Qed.

(** Stability, one insertion: the new element goes in front of the
    elements of its own key. *)
Lemma with_key_sort_insert k x l :
  with_key k (sort_insert x l) = with_key k (x :: l).
Proof.
  unfold with_key.
  induction l as [|y r IH]; cbn [sort_insert]; [done|].
  destruct (Entry_lt y x) eqn:E; [|done].
  apply Entry_lt_spec in E.
  rewrite (filter_cons _ y), IH, !(filter_cons _ x), (filter_cons _ y).
  repeat case_decide; first [ lia | done ].
Qed.

(** Stability: entries of equal key keep their order. *)
Lemma with_key_stable_sort k l : with_key k (stable_sort l) = with_key k l.
Proof.
  induction l as [|x r IH]; cbn [stable_sort]; [done|].
  rewrite with_key_sort_insert. unfold with_key in *.
  by rewrite !(filter_cons _ x), IH.
Qed.

Lemma with_key_nil_inv l : (∀ k, with_key k l = []) → l = [].
Proof.
  destruct l as [|y r]; [done|]. intros H. specialize (H (key y)).
  unfold with_key in H. by rewrite filter_cons_True in H.
Qed.

(** Two sorted lists with the same entries per key, in the same order
    per key, are one list. *)
Lemma sorted_with_key_unique l1 l2 :
  StronglySorted key_le l1 → StronglySorted key_le l2 →
  (∀ k, with_key k l1 = with_key k l2) → l1 = l2.
Proof.
  intros H1. revert l2.
  induction H1 as [|x r1 Hr1 IH Hx]; intros l2 H2 Hk.
  - symmetry. apply with_key_nil_inv. intros k. by rewrite <- Hk.
  - destruct H2 as [|y r2 Hr2 Hy].
    { apply with_key_nil_inv. intros k. exact (Hk k). }
    assert (Hxy : key x = key y).
    { apply N.le_antisymm.
      - destruct (decide (key x = key y)) as [->|Hne]; [done|].
        pose proof (Hk (key y)) as E. unfold with_key in E.
        rewrite (filter_cons_True _ y), (filter_cons_False _ x) in E by done.
        assert (y ∈ r1) as Hin.
        { eapply (proj1 (list_elem_of_filter _ _ _)). rewrite E. left. }
        rewrite Forall_forall in Hx. by apply Hx.
      - destruct (decide (key x = key y)) as [->|Hne]; [done|].
        pose proof (Hk (key x)) as E. unfold with_key in E.
        rewrite (filter_cons_True _ x), (filter_cons_False _ y) in E by done.
        assert (x ∈ r2) as Hin.
        { eapply (proj1 (list_elem_of_filter _ _ _)). rewrite <- E. left. }
        rewrite Forall_forall in Hy. by apply Hy. }
    assert (x = y) as ->.
    { pose proof (Hk (key x)) as E. unfold with_key in E.
      rewrite !filter_cons_True in E by done. congruence. }
    f_equal. apply IH; [done|].
    intros k. specialize (Hk k). unfold with_key in *.
    rewrite !(filter_cons _ y) in Hk. case_decide; congruence.
Qed.

(** The contract of [std::stable_sort] determines its result: whatever
    is sorted and keeps the entries of every key in their order is the
    list [stable_sort] computes. *)
Lemma stable_sort_unique l l' :
  StronglySorted key_le l' →
  (∀ k, with_key k l' = with_key k l) →
  l' = stable_sort l.
Proof.
  intros Hs Hk. apply sorted_with_key_unique; [done | apply stable_sort_sorted |].
  intros k. by rewrite with_key_stable_sort.
Qed.

Lemma stable_sort_id l : StronglySorted key_le l → stable_sort l = l.
Proof. intros H. symmetry. by apply stable_sort_unique. Qed.

Lemma sorted_snoc l x :
  StronglySorted key_le l → Forall (λ y, key y ≤ key x) l →
  StronglySorted key_le (l ++ [x]).
Proof.
  intros Hl Hx. apply StronglySorted_app_2; [| done | repeat constructor].
  intros y z Hy ->%list_elem_of_singleton.
  rewrite Forall_forall in Hx. by apply Hx.
Qed.

Lemma sorted_last_max l x :
  StronglySorted key_le (l ++ [x]) → Forall (λ y, key y ≤ key x) l.
Proof.
  intros H. apply Forall_forall. intros y Hy.
  eapply (StronglySorted_app_1_elem_of key_le); [exact H | exact Hy |].
  by apply list_elem_of_singleton.
Qed.

Lemma sorted_removelast l :
  StronglySorted key_le l → StronglySorted key_le (removelast l).
Proof.
  destruct (decide (l = [])) as [->|Hne]; [done|].
  destruct (exists_last Hne) as (l' & x & ->).
  rewrite removelast_last. apply StronglySorted_app_1_l.
Qed.
End sort_facts.

(** ** Facts about [find_if] *)

Section find_facts.
Implicit Types (l : list Entry) (p : Entry → bool).

Lemma find_if_Some p l it e :
  find_if p l = Some (it, e) →
  l !! it = Some e ∧ p e = true ∧
  ∀ j y, (j < it)%nat → l !! j = Some y → p y = false.
Proof.
  revert it. induction l as [|x r IH]; intros it; cbn; [done|].
  destruct (p x) eqn:E.
  - intros [= <- <-]. split_and!; [done | done | intros; lia].
  - destruct (find_if p r) as [[i' e']|] eqn:F; cbn; [|done].
    intros [= <- <-]. destruct (IH i' eq_refl) as (? & ? & Hlt).
    split_and!; [done | done |].
    intros [|j] y ? Hy; cbn in Hy; [congruence|].
    eapply Hlt; [|done]. lia.
Qed.

Lemma find_if_None p l :
  find_if p l = None ↔ Forall (λ e, p e = false) l.
Proof.
  induction l as [|x r IH]; cbn.
  - split; [constructor | done].
  - rewrite Forall_cons. destruct (p x) eqn:E.
    + split; [done | intros [? _]; congruence].
    + rewrite <- IH. destruct (find_if p r) as [[]|]; cbn.
      * split; [done | by intros [_ ?]].
      * split; [done | by intros _].
Qed.

(** The first match is the head exactly when the head matches. *)
Lemma find_if_head p l it e :
  find_if p l = Some (it, e) →
  (it = 0%nat ↔ ∃ x r, l = x :: r ∧ p x = true).
Proof.
  destruct l as [|x r]; cbn; [done|].
  destruct (p x) eqn:E.
  - intros [= <- <-]. naive_solver.
  - destruct (find_if p r) as [[]|]; cbn; [|done].
    intros [= <- <-]. split; [done|]. intros (? & ? & [= <- <-] & ?). congruence.
Qed.
End find_facts.

(** ** The invariant of the contexts *)

Lemma StronglySorted_delete (l : list Entry) (i : nat) :
  StronglySorted key_le l → StronglySorted key_le (delete i l).
Proof.
  intros H. rewrite delete_take_drop.
  rewrite <- (take_drop i l) in H.
  apply StronglySorted_app in H as (Hc & H1 & H2).
  apply StronglySorted_app_2.
  - intros x1 x2 Hx1 Hx2. apply Hc; [done|].
    rewrite <- (take_drop 1 (drop i l)), drop_drop.
    apply elem_of_app. right. by replace (i + 1)%nat with (S i) by lia.
  - done.
  - rewrite <- (take_drop 1 (drop i l)), drop_drop in H2.
    apply StronglySorted_app_1_r in H2.
    by replace (i + 1)%nat with (S i) in H2 by lia.
Qed.

Lemma StronglySorted_same_key (l : list Entry) (i : nat) (e : Entry) (v : volume_t) :
  l !! i = Some e →
  StronglySorted key_le l →
  StronglySorted key_le (<[i := mkEntry (key e) v]> l).
Proof.
  intros Hi H. revert i Hi.
  induction H as [|x r Hr IH Hx]; intros [|i] Hi; cbn in *; try done.
  - injection Hi as ->. by constructor.
  - constructor; [by apply IH|].
    apply Forall_insert; [done|].
    exact (Forall_lookup_1 _ _ _ _ Hx Hi).
Qed.

Section invariant.
Variable CONTEXT_N : nat.
Variable ENTRIES_N : nat.
Variable LISTSIZE_W : N.

Lemma length_removelast (l : list Entry) :
  length (removelast l) = pred (length l).
Proof.
  destruct (decide (l = [])) as [->|Hne]; [done|].
  destruct (exists_last Hne) as (l' & x & ->).
  rewrite removelast_last, length_app. cbn. lia.
Qed.

Lemma handle_uc_switch_ok uc c :
  ctxt_ok ENTRIES_N c → ctxt_ok ENTRIES_N (handle_uc_switch ENTRIES_N uc c).1.
Proof.
  intros [Hs Hl]. unfold handle_uc_switch.
  destruct (uc_cmd uc) eqn:Hc.
  - split; [constructor | cbn; lia].
  - cbn [fst].
    pose proof (stable_sort_sorted (c ++ [mkEntry (uc_key uc) (uc_volume uc)])) as Hs'.
    pose proof (length_stable_sort (c ++ [mkEntry (uc_key uc) (uc_volume uc)])) as Hl'.
    rewrite length_app in Hl'. cbn in Hl'.
    destruct (Nat.ltb_spec ENTRIES_N
      (length (stable_sort (c ++ [mkEntry (uc_key uc) (uc_volume uc)])))).
    + split; [by apply sorted_removelast|]. rewrite length_removelast. lia.
    + done.
  - destruct (find_if _ c) as [[it e]|] eqn:F; [|done]. cbn.
    apply find_if_Some in F as (Hit & _ & _).
    split; [by apply StronglySorted_delete|].
    pose proof (sublist_length _ _ (sublist_delete c it)). lia.
  - destruct (find_if _ c) as [[it e]|] eqn:F; [|done]. cbn.
    apply find_if_Some in F as (Hit & _ & _).
    split; [by apply StronglySorted_same_key|].
    by rewrite length_insert.
Qed.

Lemma ctxt_at_ok m id : model_ok CONTEXT_N ENTRIES_N m → ctxt_ok ENTRIES_N (ctxt_at m id).
Proof.
  intros [_ H]. unfold ctxt_at.
  destruct (tbl_ m !! N.to_nat id) eqn:E; cbn.
  - by eapply Forall_lookup_1.
  - split; [constructor | cbn; lia].
Qed.

Lemma handle_uc_ok m m' :
  model_ok CONTEXT_N ENTRIES_N m → handle_uc CONTEXT_N ENTRIES_N m = Done m' → model_ok CONTEXT_N ENTRIES_N m'.
Proof.
  intros Hm. unfold handle_uc, ASSERT_LT.
  destruct (uc_vld (uc_ m)); cbn; [|by intros [= <-]].
  destruct (uc_id (uc_ m) <? N.of_nat CONTEXT_N); [|done].
  pose proof (handle_uc_switch_ok (uc_ m) _ (ctxt_at_ok m (uc_id (uc_ m)) Hm)) as Hc.
  destruct (handle_uc_switch _ _ _) as [c [nr|]]; cbn in Hc;
    intros [= <-]; destruct Hm as [Hlen Hall]; split; cbn;
    first [ by rewrite length_insert | by apply Forall_insert ].
Qed.

Lemma handle_qc_tbl m m' :
  handle_qc CONTEXT_N LISTSIZE_W m = Done m' → tbl_ m' = tbl_ m.
Proof.
  unfold handle_qc, ASSERT_LT.
  destruct (qc_vld (qc_ m)); [|by intros [= <-]].
  destruct (qc_id (qc_ m) <? N.of_nat CONTEXT_N); [|done].
  by intros [= <-].
Qed.

Lemma make_ok : model_ok CONTEXT_N ENTRIES_N (make CONTEXT_N).
Proof.
  split; cbn.
  - by rewrite length_fmap, length_replicate.
  - apply Forall_fmap, Forall_true. intros c. split; [constructor | cbn; lia].
Qed.

Lemma reset_ok m : model_ok CONTEXT_N ENTRIES_N m → model_ok CONTEXT_N ENTRIES_N (reset m).
Proof.
  intros [Hl _]. split; cbn.
  - by rewrite length_fmap.
  - apply Forall_fmap, Forall_true. intros c. split; [constructor | cbn; lia].
Qed.

Lemma step_ok m m' :
  model_ok CONTEXT_N ENTRIES_N m → step CONTEXT_N ENTRIES_N LISTSIZE_W m = Done m' → model_ok CONTEXT_N ENTRIES_N m'.
Proof.
  intros Hm. unfold step.
  set (m0 := set_queries_pipe _ (set_notify_pipe _ m)).
  assert (model_ok CONTEXT_N ENTRIES_N m0) as H0 by done.
  destruct (handle_uc CONTEXT_N ENTRIES_N m0) as [m1|] eqn:E1; cbn; [|done].
  apply handle_uc_ok in E1; [|done].
  destruct (handle_qc CONTEXT_N LISTSIZE_W m1) as [m2|] eqn:E2; cbn; [|done].
  apply handle_qc_tbl in E2. intros [= <-].
  destruct E1. split; by rewrite E2.
Qed.

Lemma reachable_ok m :
  reachable CONTEXT_N ENTRIES_N LISTSIZE_W m → model_ok CONTEXT_N ENTRIES_N m.
Proof.
  induction 1 as [|m uc qc nr qr m' _ IH Hc|m _ IH].
  - apply make_ok.
  - eapply step_ok; [|exact Hc]. done.
  - by apply reset_ok.
Qed.
End invariant.

(** ** Latency of the delay pipe *)

(** C2.  In a pipe of depth [N] that receives one [push_back] between
    successive [step()] calls, the value pushed at cycle [t] is what
    [head()] returns at cycle [t + N].  At every other cycle [c], [head()]
    returns either [T{}] (no push is [N] cycles old yet) or the value of
    the push of another cycle, [c - N]; hence, when the pushed values can
    be told apart, [head()] returns the value of cycle [t] at cycle
    [t + N] and at no other cycle.  While the value waits in the buffer
    (cycles [t] to [t + N - 1]) the read cursor is on a different slot. *)
Theorem delay_pipe_latency {T : Type} `{!DefaultCtor T}
    (N : nat) (vs : nat → T) (t : nat) :
  (1 ≤ t)%nat →
  DelayPipe.head (DelayPipe.run N vs (t + N)) = vs t
  ∧ (∀ c, c ≠ (t + N)%nat →
       ((c ≤ N)%nat ∧ DelayPipe.head (DelayPipe.run N vs c) = T0)
       ∨ (∃ t', t' ≠ t ∧ (1 ≤ t')%nat ∧ c = (t' + N)%nat
                ∧ DelayPipe.head (DelayPipe.run N vs c) = vs t'))
  ∧ ((∀ i j, vs i = vs j → i = j) → (∀ i, vs i ≠ T0) →
       ∀ c, DelayPipe.head (DelayPipe.run N vs c) = vs t ↔ c = (t + N)%nat)
  ∧ (∀ c, (t ≤ c < t + N)%nat →
       DelayPipe.rd_ptr_ (DelayPipe.run N vs c) ≠ DelayPipe.slot_of N vs t).
Proof.
  intros Ht. split_and!.
  - rewrite head_run.
    destruct (Nat.ltb_spec N (t + N)); [f_equal; lia | lia].
  - intros c Hc. rewrite head_run.
    destruct (Nat.ltb_spec N c) as [Hlt|Hge].
    + right. exists (c - N)%nat. split_and!; [lia | lia | lia | done].
    + left. done.
  - intros Hinj Hne c. rewrite head_run.
    destruct (Nat.ltb_spec N c) as [Hlt|Hge].
    + split.
      * intros E%Hinj. lia.
      * intros ->. f_equal. lia.
    + split.
      * intros E. symmetry in E. by apply Hne in E.
      * intros ->. lia.
  - intros c Hc. unfold DelayPipe.slot_of.
    destruct (run_inv N vs c) as (_ & -> & _).
    destruct (run_inv N vs t) as (-> & _).
    replace (t + N)%nat with (c + (t + N - c))%nat by lia.
    intros E. symmetry in E. revert E. apply mod_apart. lia.
Qed.

(** The sixth scenario of the specification: depth 4, a value fed at
    cycle 10 is at the head at cycle 14 and at no other cycle. *)
Lemma delay_pipe_latency_witness :
  (1 ≤ 10)%nat
  ∧ DelayPipe.head (DelayPipe.run 4 S 14) = 11%nat
  ∧ (∀ c, DelayPipe.head (DelayPipe.run 4 S c) = 11%nat
          ↔ c = 14%nat)
  ∧ (∀ c, (10 ≤ c < 14)%nat →
       DelayPipe.rd_ptr_ (DelayPipe.run 4 S c)
       ≠ DelayPipe.slot_of 4 S 10).
Proof.
  assert (H10 : (1 ≤ 10)%nat) by lia.
  destruct (delay_pipe_latency 4 S 10 H10)
    as (H1 & _ & H3 & H4).
  split_and!; [exact H10 | exact H1 | | exact H4].
  apply H3; [intros i j; lia | intros i; unfold T0, nat_default; lia].
Defined.


(** ** Update commands *)

(** What [handle_uc] does with a valid command whose id passes the
    assertion: the addressed context is replaced by the one the [switch]
    leaves, and the response of the [switch], if it reaches the final
    [push_back], is stored at the write cursor of the notify pipe. *)
Lemma handle_uc_in_range (CONTEXT_N ENTRIES_N : nat) (m : ValidationModel)
    (ctxt : list Entry) :
  uc_vld (uc_ m) = true →
  uc_id (uc_ m) < N.of_nat CONTEXT_N →
  tbl_ m !! N.to_nat (uc_id (uc_ m)) = Some ctxt →
  ∃ m', handle_uc CONTEXT_N ENTRIES_N m = Done m'
    ∧ tbl_ m' = <[N.to_nat (uc_id (uc_ m)) :=
                   (handle_uc_switch ENTRIES_N (uc_ m) ctxt).1]> (tbl_ m)
    ∧ notify_pipe_ m' =
        match (handle_uc_switch ENTRIES_N (uc_ m) ctxt).2 with
        | Some nr => DelayPipe.push_back (notify_pipe_ m) nr
        | None => notify_pipe_ m
        end
    ∧ queries_pipe_ m' = queries_pipe_ m.
Proof.
  intros Hv Hid Hc. unfold handle_uc, ASSERT_LT, ctxt_at.
  rewrite Hv. cbn [negb].
  apply N.ltb_lt in Hid. rewrite Hid, Hc. cbn [default from_option id].
  destruct (handle_uc_switch ENTRIES_N (uc_ m) ctxt) as [c [nr|]]; cbn;
    eexists; split_and!; reflexivity.
Qed.

(** C8.  A Clear on an in-range context: when the context is non-empty,
    the response pushed into the notify pipe is valid and carries the
    id of the command with the key and volume of the head as it was
    before the clear; when the context is empty the pushed response is
    the invalid one.  In both cases the context is empty afterwards. *)
Theorem clear_predicts_old_head (CONTEXT_N ENTRIES_N : nat)
    (m : ValidationModel) (ctxt : list Entry) :
  uc_vld (uc_ m) = true →
  uc_cmd (uc_ m) = Clr →
  uc_id (uc_ m) < N.of_nat CONTEXT_N →
  tbl_ m !! N.to_nat (uc_id (uc_ m)) = Some ctxt →
  ∃ m' nr,
    handle_uc CONTEXT_N ENTRIES_N m = Done m'
    ∧ (handle_uc_switch ENTRIES_N (uc_ m) ctxt).2 = Some nr
    ∧ notify_pipe_ m' = DelayPipe.push_back (notify_pipe_ m) nr
    ∧ tbl_ m' !! N.to_nat (uc_id (uc_ m)) = Some []
    ∧ match ctxt with
      | e :: _ =>
          nr = NotifyResponse_make (uc_id (uc_ m)) (key e) (volume e)
          ∧ nr_vld nr = true
          ∧ nr_id nr = uc_id (uc_ m)
          ∧ nr_key nr = key e
          ∧ nr_volume nr = volume e
      | [] => nr = T0 ∧ nr_vld nr = false
      end.
Proof.
  intros Hv Hcmd Hid Hc.
  destruct (handle_uc_in_range CONTEXT_N ENTRIES_N m ctxt Hv Hid Hc)
    as (m' & Hm' & Ht & Hp & _).
  unfold handle_uc_switch in *. rewrite Hcmd in *. cbn in Ht, Hp. cbn [snd].
  eexists m', _. split_and!; [exact Hm' | reflexivity | exact Hp | |].
  - rewrite Ht. apply list_lookup_insert_eq. by eapply lookup_lt_Some.
  - destruct ctxt as [|e r]; [done|]. by split_and!.
Qed.

(** A Clear on the context [(3, 20); (5, 99)]: the pushed response is
    valid with key 3 and volume 20, and the context is empty. *)
Lemma clear_predicts_old_head_witness :
  let m := mkVM (UpdateCommand_make 0 Clr 0 0) T0 T0 T0
                [[mkEntry 3 20; mkEntry 5 99]]
                (DelayPipe.make UPDATE_PIPE_DELAY)
                (DelayPipe.make UPDATE_PIPE_DELAY)
                (DelayPipe.make QUERY_PIPE_DELAY) in
  ∃ m' nr,
    handle_uc 1 4 m = Done m'
    ∧ notify_pipe_ m' = DelayPipe.push_back (notify_pipe_ m) nr
    ∧ nr_vld nr = true ∧ nr_id nr = 0 ∧ nr_key nr = 3 ∧ nr_volume nr = 20
    ∧ tbl_ m' !! 0%nat = Some [].
Proof.
  intros m.
  destruct (clear_predicts_old_head 1 4 m [mkEntry 3 20; mkEntry 5 99])
    as (m' & nr & H1 & _ & H2 & H3 & _ & Hvld & Hid & Hkey & Hvol);
    [reflexivity | reflexivity | reflexivity | reflexivity |].
  exists m', nr.
  split_and!;
    [exact H1 | exact H2 | exact Hvld | exact Hid | exact Hkey | exact Hvol
    | exact H3].
Defined.

(** ** Notify prediction *)

(** The three results of the search of Delete and Replace: no entry
    carries the key, the head carries it, or the first entry that
    carries it lies behind a head that does not. *)
Lemma find_if_key_cases (k : key_t) (ctxt : list Entry) :
  match find_if (λ e, key e =? k) ctxt with
  | None => Forall (λ e, key e ≠ k) ctxt
  | Some (O, e) => ∃ r, ctxt = e :: r ∧ key e = k
  | Some (S i, e) =>
      ∃ x r, ctxt = x :: r ∧ key x ≠ k ∧ key e = k ∧ r !! i = Some e
  end.
Proof.
  destruct (find_if _ ctxt) as [[it e]|] eqn:F.
  - destruct (find_if_Some _ _ _ _ F) as (Hit & Hk%N.eqb_eq & Hlt).
    destruct ctxt as [|x r]; [done|].
    destruct it as [|i]; cbn in Hit.
    + injection Hit as ->. by exists r.
    + exists x, r. split_and!; [done | | done | done].
      apply N.eqb_neq. apply (Hlt 0%nat); [lia | done].
  - apply find_if_None in F.
    eapply Forall_impl; [exact F|]. intros e. apply N.eqb_neq.
Qed.

(** The response Delete and Replace hand to the final [push_back]. *)
Lemma del_rep_pushed (ENTRIES_N : nat) (uc : UpdateCommand) (ctxt : list Entry) :
  uc_cmd uc = Del ∨ uc_cmd uc = Rep →
  (handle_uc_switch ENTRIES_N uc ctxt).2 =
    match find_if (λ e, key e =? uc_key uc) ctxt with
    | None => None
    | Some (O, e) => Some (NotifyResponse_make (uc_id uc) (key e) (volume e))
    | Some (S _, _) => Some T0
    end.
Proof.
  unfold handle_uc_switch.
  intros [-> | ->]; by destruct (find_if _ ctxt) as [[[|i] e]|].
Qed.

(** The context Delete and Replace leave behind. *)
Lemma del_rep_context (ENTRIES_N : nat) (uc : UpdateCommand) (ctxt : list Entry) :
  uc_cmd uc = Del ∨ uc_cmd uc = Rep →
  (handle_uc_switch ENTRIES_N uc ctxt).1 =
    match find_if (λ e, key e =? uc_key uc) ctxt with
    | None => ctxt
    | Some (it, e) =>
        match uc_cmd uc with
        | Rep => <[it := mkEntry (key e) (uc_volume uc)]> ctxt
        | _ => delete it ctxt
        end
    end.
Proof.
  unfold handle_uc_switch.
  intros [-> | ->]; by destruct (find_if _ ctxt) as [[it e]|].
Qed.

(** Delete and Replace push a valid response exactly when the head
    carries the key, and the response then describes that head. *)
Lemma del_rep_notify (ENTRIES_N : nat) (uc : UpdateCommand) (ctxt : list Entry) :
  uc_cmd uc = Del ∨ uc_cmd uc = Rep →
  let pushed := (handle_uc_switch ENTRIES_N uc ctxt).2 in
  ((∃ nr, pushed = Some nr ∧ nr_vld nr = true) ↔ notify_trigger uc ctxt)
  ∧ (∀ nr, pushed = Some nr → nr_vld nr = true →
       nr_id nr = uc_id uc
       ∧ ∃ e r, ctxt = e :: r ∧ nr_key nr = key e ∧ nr_volume nr = volume e).
Proof.
  intros Hcmd pushed. subst pushed. rewrite del_rep_pushed by done.
  assert (notify_trigger uc ctxt ↔ ∃ e r, ctxt = e :: r ∧ key e = uc_key uc)
    as ->.
  { unfold notify_trigger.
    destruct Hcmd as [-> | ->]; destruct ctxt as [|e r]; split;
      first [ done
            | by intros (? & ? & [=] & _)
            | intros ?; by exists e, r
            | by intros (? & ? & [= <- <-] & ?) ]. }
  pose proof (find_if_key_cases (uc_key uc) ctxt) as Hcases.
  destruct (find_if _ ctxt) as [[[|i] e]|].
  - (* the head carries the key *)
    destruct Hcases as (r & -> & Hk). split.
    + split; [by exists e, r | intros _; eexists; split; reflexivity].
    + intros nr [= <-] _. split; [done|]. by exists e, r.
  - (* the first match lies behind the head *)
    destruct Hcases as (x & r & -> & Hx & _). split.
    + split; [intros (nr & [= <-] & ?); done|].
      intros (e' & r' & [= <- <-] & ?). done.
    + intros nr [= <-]. done.
  - (* no entry carries the key *)
    split.
    + split; [intros (nr & ? & _); done|].
      intros (e' & r' & -> & ?). by apply Forall_cons in Hcases as [? _].
    + intros nr ?. done.
Qed.

(** C1, as the code has it.  For a valid update command on an in-range
    context, [handle_uc] pushes a valid NotifyResponse into the notify
    pipe exactly when the command is a Clear of a non-empty context, an
    Add into an empty context, or a Delete or Replace whose key is the
    key of the head.  The pushed response carries the id of the command;
    its key and volume are those of the command for Add, and those of
    the head before the command for Clear, Delete and Replace.  An Add
    into a non-empty context pushes the invalid response, whatever its
    key. *)
Theorem notify_predicted_iff (CONTEXT_N ENTRIES_N : nat)
    (m : ValidationModel) (ctxt : list Entry) :
  uc_vld (uc_ m) = true →
  uc_id (uc_ m) < N.of_nat CONTEXT_N →
  tbl_ m !! N.to_nat (uc_id (uc_ m)) = Some ctxt →
  let uc := uc_ m in
  let pushed := (handle_uc_switch ENTRIES_N uc ctxt).2 in
  (∃ m', handle_uc CONTEXT_N ENTRIES_N m = Done m'
         ∧ notify_pipe_ m' =
             match pushed with
             | Some nr => DelayPipe.push_back (notify_pipe_ m) nr
             | None => notify_pipe_ m
             end)
  ∧ ((∃ nr, pushed = Some nr ∧ nr_vld nr = true) ↔ notify_trigger uc ctxt)
  ∧ (∀ nr, pushed = Some nr → nr_vld nr = true →
       nr_id nr = uc_id uc
       ∧ match uc_cmd uc with
         | Add => nr_key nr = uc_key uc ∧ nr_volume nr = uc_volume uc
         | _ => ∃ e r, ctxt = e :: r
                       ∧ nr_key nr = key e ∧ nr_volume nr = volume e
         end)
  ∧ (uc_cmd uc = Add → ctxt ≠ [] → pushed = Some T0).
Proof.
  intros Hv Hid Hc uc pushed.
  destruct (handle_uc_in_range CONTEXT_N ENTRIES_N m ctxt Hv Hid Hc)
    as (m' & Hm' & _ & Hp & _).
  split; [by exists m'|].
  subst pushed.
  destruct (uc_cmd uc) eqn:Hcmd.
  - (* Clr *)
    unfold handle_uc_switch, notify_trigger. rewrite Hcmd.
    destruct ctxt as [|e r]; cbn; split_and!.
    + split; [intros (nr & [= <-] & ?); done | done].
    + intros nr [= <-]. done.
    + done.
    + split; [done | intros _; eexists; split; reflexivity].
    + intros nr [= <-] _. split; [done|]. by exists e, r.
    + done.
  - (* Add *)
    unfold handle_uc_switch, notify_trigger. rewrite Hcmd.
    destruct ctxt as [|e r]; cbn; split_and!.
    + split; [done | intros _; eexists; split; reflexivity].
    + intros nr [= <-] _. done.
    + done.
    + split; [intros (nr & [= <-] & ?); done | done].
    + intros nr [= <-]. done.
    + done.
  - (* Del *)
    destruct (del_rep_notify ENTRIES_N uc ctxt (or_introl Hcmd)) as [H1 H2].
    split_and!; [exact H1 | exact H2 | done].
  - (* Rep *)
    destruct (del_rep_notify ENTRIES_N uc ctxt (or_intror Hcmd)) as [H1 H2].
    split_and!; [exact H1 | exact H2 | done].
Qed.

(** The fourth scenario of the specification: Delete(key=3) on
    [{3,20},{5,99}] pushes the notify (0, 3, 20). *)
Lemma notify_predicted_iff_witness :
  let m := mkVM (UpdateCommand_make 0 Del 3 0) T0 T0 T0
                [[mkEntry 3 20; mkEntry 5 99]]
                (DelayPipe.make UPDATE_PIPE_DELAY)
                (DelayPipe.make UPDATE_PIPE_DELAY)
                (DelayPipe.make QUERY_PIPE_DELAY) in
  ∃ nr, (handle_uc_switch 4 (uc_ m) [mkEntry 3 20; mkEntry 5 99]).2 = Some nr
        ∧ nr_vld nr = true
        ∧ nr_id nr = 0 ∧ nr_key nr = 3 ∧ nr_volume nr = 20.
Proof.
  intros m.
  destruct (notify_predicted_iff 1 4 m [mkEntry 3 20; mkEntry 5 99])
    as (_ & Hiff & Hval & _);
    [reflexivity | reflexivity | reflexivity |].
  destruct (proj2 Hiff eq_refl) as (nr & Hnr & Hv).
  destruct (Hval nr Hnr Hv) as (Hid & e & r & [= <- <-] & Hk & Hvol).
  exists nr. split_and!; [exact Hnr | exact Hv | exact Hid | exact Hk | exact Hvol].
Defined.

(** C1 fails as stated.  The second scenario of the specification, with
    one context and capacity 4: after Add(5,10), the command Add(3,20)
    puts a new entry at rank 0, and yet the response pushed for it is
    the invalid one, so that four cycles later the prediction at the
    head of the notify pipe is "no notify". *)
Lemma add_below_head_predicts_no_notify :
  ∃ m1 m2 m6,
    cycles 1 4 8 (make 1) [update_only (UpdateCommand_make 0 Add 5 10)] = Done m1
    ∧ tbl_ m1 = [[mkEntry 5 10]]
    ∧ cycles 1 4 8 m1 [update_only (UpdateCommand_make 0 Add 3 20)] = Done m2
    ∧ tbl_ m2 = [[mkEntry 3 20; mkEntry 5 10]]
    ∧ (handle_uc_switch 4 (UpdateCommand_make 0 Add 3 20) [mkEntry 5 10]).2
      = Some (mkNR false 0 0 0)
    ∧ cycles 1 4 8 m2 [idle; idle; idle; idle] = Done m6
    ∧ nr_vld (DelayPipe.head (notify_pipe_ m6)) = false.
Proof.
  do 3 eexists. split_and!; vm_compute; reflexivity.
Qed.

(** ** Out-of-range context ids *)

(** [handle_uc] leaves the pending query command and the query pipe as
    they are. *)
Lemma handle_uc_frame (CONTEXT_N ENTRIES_N : nat) (m m' : ValidationModel) :
  handle_uc CONTEXT_N ENTRIES_N m = Done m' →
  qc_ m' = qc_ m ∧ queries_pipe_ m' = queries_pipe_ m.
Proof.
  unfold handle_uc, ASSERT_LT.
  destruct (uc_vld (uc_ m)); cbn [negb]; [|by intros [= <-]].
  destruct (uc_id (uc_ m) <? N.of_nat CONTEXT_N); [|done].
  destruct (handle_uc_switch _ _ _) as [c [nr|]]; by intros [= <-].
Qed.

(** C9.  A valid update command or query command whose context id is
    not below [CONTEXT_N] stops its handler at the assertion: the
    outcome is [Fatal] with the model untouched, so that nothing is
    pushed and no context changes.  [step] stops with it: for an update
    command the model it leaves is the one with only the two pipes
    advanced; for a query command it is the model the update handler
    left, with nothing pushed into the query pipe. *)
Theorem out_of_range_id_is_fatal (CONTEXT_N ENTRIES_N : nat) (LISTSIZE_W : N)
    (m : ValidationModel) :
  let m0 := set_queries_pipe (DelayPipe.step QUERY_PIPE_DELAY)
              (set_notify_pipe (DelayPipe.step UPDATE_PIPE_DELAY) m) in
  (uc_vld (uc_ m) = true → N.of_nat CONTEXT_N ≤ uc_id (uc_ m) →
     handle_uc CONTEXT_N ENTRIES_N m = Fatal m
     ∧ step CONTEXT_N ENTRIES_N LISTSIZE_W m = Fatal m0)
  ∧ (qc_vld (qc_ m) = true → N.of_nat CONTEXT_N ≤ qc_id (qc_ m) →
     handle_qc CONTEXT_N LISTSIZE_W m = Fatal m
     ∧ ∀ m1, handle_uc CONTEXT_N ENTRIES_N m0 = Done m1 →
         step CONTEXT_N ENTRIES_N LISTSIZE_W m = Fatal m1
         ∧ queries_pipe_ m1 = queries_pipe_ m0).
Proof.
  intros m0. split.
  - intros Hv Hid.
    assert (∀ x, uc_vld (uc_ x) = true → uc_id (uc_ x) = uc_id (uc_ m) →
                 handle_uc CONTEXT_N ENTRIES_N x = Fatal x) as Hf.
    { intros x Hx Hx'. unfold handle_uc, ASSERT_LT. rewrite Hx, Hx'. cbn.
      apply N.ltb_ge in Hid. by rewrite Hid. }
    split; [by apply Hf|].
    unfold step. fold m0. by rewrite (Hf m0).
  - intros Hv Hid.
    assert (∀ x, qc_ x = qc_ m → handle_qc CONTEXT_N LISTSIZE_W x = Fatal x) as Hf.
    { intros x Hx. unfold handle_qc, ASSERT_LT. rewrite Hx, Hv.
      apply N.ltb_ge in Hid. by rewrite Hid. }
    split; [by apply Hf|].
    intros m1 H1. unfold step. fold m0. rewrite H1. cbn.
    destruct (handle_uc_frame _ _ _ _ H1) as (Hq & Hp).
    by rewrite (Hf m1 Hq).
Qed.

Lemma out_of_range_id_is_fatal_witness :
  let mu := apply_uc (UpdateCommand_make 2 Add 5 10) (make 2) in
  let mq := apply_qc (QueryCommand_make 7 0) mu in
  handle_uc 2 4 mu = Fatal mu
  ∧ handle_qc 2 8 mq = Fatal mq
  ∧ ∃ m', step 2 4 8 mu = Fatal m' ∧ tbl_ m' = [[]; []]
          ∧ DelayPipe.p_ (notify_pipe_ m') = DelayPipe.p_ (notify_pipe_ mu).
Proof.
  intros mu mq.
  destruct (out_of_range_id_is_fatal 2 4 8 mu) as [Hu _].
  destruct (out_of_range_id_is_fatal 2 4 8 mq) as [_ Hq].
  destruct Hu as [Hu1 Hu2]; [reflexivity | vm_compute; discriminate |].
  destruct Hq as [Hq1 _]; [reflexivity | vm_compute; discriminate |].
  split_and!; [exact Hu1 | exact Hq1 |].
  eexists. split_and!; [exact Hu2 | reflexivity | reflexivity].
Defined.

(** ** Query commands *)

(** [handle_qc] on a valid command whose id passes the assertion. *)
Lemma handle_qc_in_range (CONTEXT_N : nat) (LISTSIZE_W : N)
    (m : ValidationModel) (ctxt : list Entry) :
  qc_vld (qc_ m) = true →
  qc_id (qc_ m) < N.of_nat CONTEXT_N →
  tbl_ m !! N.to_nat (qc_id (qc_ m)) = Some ctxt →
  let size := N.of_nat (length ctxt) in
  let level := qc_level (qc_ m) in
  ∃ qr,
    handle_qc CONTEXT_N LISTSIZE_W m
    = Done (set_queries_pipe (λ p, DelayPipe.push_back p qr) m)
    ∧ qr_vld qr = true
    ∧ qr_error qr = (size <=? level)
    ∧ (size ≤ level → qr_key qr = 0 ∧ qr_volume qr = 0 ∧ qr_listsize qr = 0)
    ∧ (level < size →
       ∃ e, ctxt !! N.to_nat level = Some e
            ∧ qr_key qr = key e ∧ qr_volume qr = volume e
            ∧ qr_listsize qr = static_cast LISTSIZE_W size).
Proof.
  intros Hv Hid Hc size level. unfold handle_qc, ASSERT_LT, ctxt_at.
  rewrite Hv. apply N.ltb_lt in Hid. rewrite Hid, Hc.
  cbn [default from_option id]. fold size level.
  destruct (N.leb_spec size level) as [Hle|Hlt].
  - eexists. split_and!; [reflexivity | done | done | done | lia].
  - destruct (lookup_lt_is_Some_2 ctxt (N.to_nat level)) as [e He];
      [subst size; lia|].
    rewrite He.
    eexists. split_and!; [reflexivity | done | done | lia |].
    intros _. by exists e.
Qed.

(** C6.  In a model the run can hold, configured so that [listsize_t]
    can represent [ENTRIES_N], a valid query command with an in-range
    id asking for level [L] of a context of size [S] makes [handle_qc]
    push a response with [error = (L >= S)].  With the error set, key,
    volume and listsize are zero; otherwise key and volume are those of
    the entry at index [L] of the context, which is the entry of rank
    [L] in sorted order, and listsize is [S]. *)
Theorem query_response (CONTEXT_N ENTRIES_N : nat) (LISTSIZE_W : N)
    (m : ValidationModel) (qc : QueryCommand) :
  reachable CONTEXT_N ENTRIES_N LISTSIZE_W m →
  N.of_nat ENTRIES_N < 2 ^ LISTSIZE_W →
  qc_vld qc = true →
  qc_id qc < N.of_nat CONTEXT_N →
  let ctxt := ctxt_at m (qc_id qc) in
  let size := N.of_nat (length ctxt) in
  let level := qc_level qc in
  ∃ qr,
    handle_qc CONTEXT_N LISTSIZE_W (apply_qc qc m)
    = Done (set_queries_pipe (λ p, DelayPipe.push_back p qr) (apply_qc qc m))
    ∧ tbl_ m !! N.to_nat (qc_id qc) = Some ctxt
    ∧ qr_error qr = (size <=? level)
    ∧ (size ≤ level → qr_key qr = 0 ∧ qr_volume qr = 0 ∧ qr_listsize qr = 0)
    ∧ (level < size →
       ∃ e, stable_sort ctxt !! N.to_nat level = Some e
            ∧ ctxt !! N.to_nat level = Some e
            ∧ qr_key qr = key e ∧ qr_volume qr = volume e
            ∧ qr_listsize qr = size).
Proof.
  intros Hr Hw Hv Hid ctxt size level.
  pose proof (reachable_ok _ _ _ _ Hr) as Hok.
  destruct (ctxt_at_ok CONTEXT_N ENTRIES_N m (qc_id qc) Hok) as [Hs Hl].
  fold ctxt in Hs, Hl.
  assert (tbl_ m !! N.to_nat (qc_id qc) = Some ctxt) as Hc.
  { destruct Hok as [Hlen _].
    destruct (lookup_lt_is_Some_2 (tbl_ m) (N.to_nat (qc_id qc))) as [c Hc];
      [lia|].
    subst ctxt. unfold ctxt_at. by rewrite Hc. }
  destruct (handle_qc_in_range CONTEXT_N LISTSIZE_W (apply_qc qc m) ctxt Hv Hid Hc)
    as (qr & Hq & _ & He & Herr & Hgood).
  exists qr. split_and!; [exact Hq | exact Hc | exact He | exact Herr |].
  intros Hlt. destruct (Hgood Hlt) as (e & Hlk & Hk & Hvol & Hls).
  exists e. rewrite (stable_sort_id ctxt Hs).
  split_and!; [exact Hlk | exact Hlk | exact Hk | exact Hvol |].
  rewrite Hls. unfold static_cast. apply N.mod_small. fold size. lia.
Qed.

(** The fifth scenario of the specification: Query(level=0) on [{5,99}]
    answers (key=5, volume=99, error=false, listsize=1). *)
Lemma query_response_witness :
  let m := model_of (cycles 1 4 8 (make 1)
                       [update_only (UpdateCommand_make 0 Add 5 99)]) in
  tbl_ m = [[mkEntry 5 99]]
  ∧ ∃ qr,
      handle_qc 1 8 (apply_qc (QueryCommand_make 0 0) m)
      = Done (set_queries_pipe (λ p, DelayPipe.push_back p qr)
                (apply_qc (QueryCommand_make 0 0) m))
      ∧ qr_error qr = false
      ∧ qr_key qr = 5 ∧ qr_volume qr = 99 ∧ qr_listsize qr = 1.
Proof.
  intros m. split; [reflexivity|].
  assert (reachable 1 4 8 m) as Hr.
  { apply (reachable_cycle 1 4 8 (make 1) (UpdateCommand_make 0 Add 5 99) T0 T0 T0);
      [apply reachable_make | reflexivity]. }
  destruct (query_response 1 4 8 m (QueryCommand_make 0 0) Hr)
    as (qr & Hq & _ & He & _ & Hgood);
    [reflexivity | reflexivity | reflexivity |].
  destruct Hgood as (e & _ & Hlk & Hk & Hvol & Hls); [reflexivity|].
  injection Hlk as <-.
  exists qr. split_and!; [exact Hq | exact He | exact Hk | exact Hvol | exact Hls].
Defined.

(** ** Add: capacity and order *)

(** The context an Add leaves: the pushed entry sorted in, and the last
    position cut off when the capacity is exceeded. *)
Lemma add_context (ENTRIES_N : nat) (uc : UpdateCommand) (ctxt : list Entry) :
  uc_cmd uc = Add →
  let sorted := stable_sort (ctxt ++ [mkEntry (uc_key uc) (uc_volume uc)]) in
  (handle_uc_switch ENTRIES_N uc ctxt).1
  = if (ENTRIES_N <? length sorted)%nat then removelast sorted else sorted.
Proof. intros Hc. unfold handle_uc_switch. by rewrite Hc. Qed.

Lemma with_key_removelast (k : key_t) (l : list Entry) :
  with_key k (removelast l) `sublist_of` with_key k l.
Proof.
  destruct (decide (l = [])) as [->|Hne]; [done|].
  destruct (exists_last Hne) as (l' & x & ->).
  rewrite removelast_last. unfold with_key. rewrite filter_app.
  by apply sublist_inserts_r.
Qed.

(** C4.  In every model the run can hold, no context is longer than
    [ENTRIES_N].  An Add after which the sorted context would be longer
    than [ENTRIES_N] drops exactly one entry: the context kept is the
    sorted list without its last position, it has [ENTRIES_N] entries,
    and no kept entry has a key above that of the dropped one.  An Add
    that stays within the capacity keeps the whole sorted list. *)
Theorem capacity_invariant (CONTEXT_N ENTRIES_N : nat) (LISTSIZE_W : N)
    (m : ValidationModel) :
  reachable CONTEXT_N ENTRIES_N LISTSIZE_W m →
  Forall (λ c, (length c ≤ ENTRIES_N)%nat) (tbl_ m)
  ∧ ∀ (id : id_t) (k : key_t) (v : volume_t) (ctxt : list Entry),
      id < N.of_nat CONTEXT_N →
      tbl_ m !! N.to_nat id = Some ctxt →
      let sorted := stable_sort (ctxt ++ [mkEntry k v]) in
      ∃ m', handle_uc CONTEXT_N ENTRIES_N
              (apply_uc (UpdateCommand_make id Add k v) m) = Done m'
        ∧ ((length sorted ≤ ENTRIES_N)%nat →
             tbl_ m' !! N.to_nat id = Some sorted)
        ∧ ((ENTRIES_N < length sorted)%nat →
             ∃ kept dropped,
               tbl_ m' !! N.to_nat id = Some kept
               ∧ sorted = kept ++ [dropped]
               ∧ length kept = ENTRIES_N
               ∧ Forall (λ x, key x ≤ key dropped) kept).
Proof.
  intros Hr. pose proof (reachable_ok _ _ _ _ Hr) as [Hlen Hall].
  split.
  { eapply Forall_impl; [exact Hall|]. by intros c [_ ?]. }
  intros id k v ctxt Hid Hc sorted.
  set (uc := UpdateCommand_make id Add k v).
  destruct (handle_uc_in_range CONTEXT_N ENTRIES_N (apply_uc uc m) ctxt
              eq_refl Hid Hc) as (m' & Hm' & Ht & _).
  cbn [apply_uc uc_ tbl_] in Ht.
  rewrite (add_context ENTRIES_N uc ctxt eq_refl) in Ht.
  cbn [uc uc_key uc_volume uc_id UpdateCommand_make] in Ht. fold sorted in Ht.
  assert (N.to_nat id < length (tbl_ m))%nat as Hlt by by eapply lookup_lt_Some.
  exists m'. split; [exact Hm'|]. split.
  - intros Hle. rewrite Ht.
    destruct (Nat.ltb_spec ENTRIES_N (length sorted)); [lia|].
    by apply list_lookup_insert_eq.
  - intros Hgt.
    destruct (Nat.ltb_spec ENTRIES_N (length sorted)); [|lia].
    assert (sorted ≠ []) as Hne by (intros E; rewrite E in Hgt; cbn in Hgt; lia).
    destruct (exists_last Hne) as (kept & dropped & E).
    exists kept, dropped.
    rewrite Ht, E, removelast_last.
    split_and!; [by apply list_lookup_insert_eq | done | |].
    + pose proof (Forall_lookup_1 _ _ _ _ Hall Hc) as [_ Hcl].
      pose proof (length_stable_sort (ctxt ++ [mkEntry k v])) as Hl.
      fold sorted in Hl. rewrite E, !length_app in Hl. cbn in Hl.
      rewrite E, length_app in Hgt. cbn in Hgt. lia.
    + apply sorted_last_max. rewrite <- E. apply stable_sort_sorted.
Qed.

(** Capacity 2: a third Add drops the entry that sorts last. *)
Lemma capacity_invariant_witness :
  let m := model_of (cycles 1 2 8 (make 1)
                       [update_only (UpdateCommand_make 0 Add 5 10);
                        update_only (UpdateCommand_make 0 Add 7 30)]) in
  Forall (λ c, (length c ≤ 2)%nat) (tbl_ m)
  ∧ ∃ m', handle_uc 1 2 (apply_uc (UpdateCommand_make 0 Add 3 20) m) = Done m'
          ∧ tbl_ m' !! 0%nat = Some [mkEntry 3 20; mkEntry 5 10].
Proof.
  intros m.
  assert (reachable 1 2 8 m) as Hr.
  { apply (reachable_cycle 1 2 8
             (model_of (cycles 1 2 8 (make 1)
                          [update_only (UpdateCommand_make 0 Add 5 10)]))
             (UpdateCommand_make 0 Add 7 30) T0 T0 T0);
      [|vm_compute; reflexivity].
    apply (reachable_cycle 1 2 8 (make 1)
             (UpdateCommand_make 0 Add 5 10) T0 T0 T0);
      [apply reachable_make | vm_compute; reflexivity]. }
  destruct (capacity_invariant 1 2 8 m Hr) as [Hall Hadd].
  split; [exact Hall|].
  destruct (Hadd 0 3 20 [mkEntry 5 10; mkEntry 7 30])
    as (m' & Hm' & _ & Hdrop); [reflexivity | reflexivity |].
  destruct Hdrop as (kept & dropped & Hk & E & _); [cbn; lia|].
  exists m'. split; [exact Hm'|].
  refine (eq_trans Hk _). f_equal.
  change ([mkEntry 3 20; mkEntry 5 10] ++ [mkEntry 7 30] = kept ++ [dropped]) in E.
  apply app_inj_tail in E as [<- _]. reflexivity.
Defined.

(** C10.  In a model the run can hold, an Add into a context that has
    exactly [ENTRIES_N] entries, with a key not below any key of the
    context, leaves every context as it was: the new entry sorts last
    and is the one cut off. *)
Theorem add_not_below_full_context (CONTEXT_N ENTRIES_N : nat) (LISTSIZE_W : N)
    (m : ValidationModel) (id : id_t) (k : key_t) (v : volume_t)
    (ctxt : list Entry) :
  reachable CONTEXT_N ENTRIES_N LISTSIZE_W m →
  id < N.of_nat CONTEXT_N →
  tbl_ m !! N.to_nat id = Some ctxt →
  length ctxt = ENTRIES_N →
  Forall (λ x, key x ≤ k) ctxt →
  ∃ m', handle_uc CONTEXT_N ENTRIES_N
          (apply_uc (UpdateCommand_make id Add k v) m) = Done m'
    ∧ tbl_ m' = tbl_ m
    ∧ stable_sort (ctxt ++ [mkEntry k v]) = ctxt ++ [mkEntry k v].
Proof.
  intros Hr Hid Hc Hfull Hmax.
  pose proof (reachable_ok _ _ _ _ Hr) as [_ Hall].
  pose proof (Forall_lookup_1 _ _ _ _ Hall Hc) as [Hs _].
  assert (stable_sort (ctxt ++ [mkEntry k v]) = ctxt ++ [mkEntry k v]) as Hsort.
  { apply stable_sort_id. by apply sorted_snoc. }
  set (uc := UpdateCommand_make id Add k v).
  destruct (handle_uc_in_range CONTEXT_N ENTRIES_N (apply_uc uc m) ctxt
              eq_refl Hid Hc) as (m' & Hm' & Ht & _).
  cbn [apply_uc uc_ tbl_] in Ht.
  rewrite (add_context ENTRIES_N uc ctxt eq_refl) in Ht.
  cbn [uc uc_key uc_volume uc_id UpdateCommand_make] in Ht.
  rewrite Hsort, length_app, removelast_last in Ht. cbn [length] in Ht.
  destruct (Nat.ltb_spec ENTRIES_N (length ctxt + 1)); [|lia].
  exists m'. split_and!; [exact Hm' | | exact Hsort].
  rewrite Ht. by apply list_insert_id.
Qed.

Lemma add_not_below_full_context_witness :
  let m := model_of (cycles 1 2 8 (make 1)
                       [update_only (UpdateCommand_make 0 Add 5 10);
                        update_only (UpdateCommand_make 0 Add 7 30)]) in
  ∃ m', handle_uc 1 2 (apply_uc (UpdateCommand_make 0 Add 7 40) m) = Done m'
        ∧ tbl_ m' = [[mkEntry 5 10; mkEntry 7 30]].
Proof.
  intros m.
  assert (reachable 1 2 8 m) as Hr.
  { apply (reachable_cycle 1 2 8
             (model_of (cycles 1 2 8 (make 1)
                          [update_only (UpdateCommand_make 0 Add 5 10)]))
             (UpdateCommand_make 0 Add 7 30) T0 T0 T0);
      [|vm_compute; reflexivity].
    apply (reachable_cycle 1 2 8 (make 1)
             (UpdateCommand_make 0 Add 5 10) T0 T0 T0);
      [apply reachable_make | vm_compute; reflexivity]. }
  destruct (add_not_below_full_context 1 2 8 m 0 7 40
              [mkEntry 5 10; mkEntry 7 30] Hr)
    as (m' & Hm' & Ht & _);
    [reflexivity | reflexivity | reflexivity | |].
  { repeat constructor; cbn; lia. }
  exists m'. split; [exact Hm' | exact Ht].
Defined.

(** Sorting a prefix first does not change what the stable sort of the
    whole list is. *)
Lemma stable_sort_app_l (l1 l2 : list Entry) :
  stable_sort (stable_sort l1 ++ l2) = stable_sort (l1 ++ l2).
Proof.
  apply stable_sort_unique; [apply stable_sort_sorted|].
  intros k. rewrite with_key_stable_sort. unfold with_key.
  rewrite !filter_app. f_equal. apply with_key_stable_sort.
Qed.

(** One Add: the context it leaves is sorted, and its entries of any one
    key are, in order, among those of the old context followed by the
    new entry; below capacity it is the stable sort of the old context
    with the new entry appended. *)
Lemma add_step (CONTEXT_N ENTRIES_N : nat) (m : ValidationModel)
    (id : id_t) (e : Entry) (c0 : list Entry) :
  id < N.of_nat CONTEXT_N →
  tbl_ m !! N.to_nat id = Some c0 →
  ∃ m' c1,
    handle_uc CONTEXT_N ENTRIES_N
      (apply_uc (UpdateCommand_make id Add (key e) (volume e)) m) = Done m'
    ∧ tbl_ m' !! N.to_nat id = Some c1
    ∧ StronglySorted key_le c1
    ∧ (∀ k, with_key k c1 `sublist_of` with_key k (c0 ++ [e]))
    ∧ ((length c0 < ENTRIES_N)%nat → c1 = stable_sort (c0 ++ [e])).
Proof.
  intros Hid Hc.
  set (uc := UpdateCommand_make id Add (key e) (volume e)).
  destruct (handle_uc_in_range CONTEXT_N ENTRIES_N (apply_uc uc m) c0
              eq_refl Hid Hc) as (m' & Hm' & Ht & _).
  cbn [apply_uc uc_ tbl_] in Ht.
  rewrite (add_context ENTRIES_N uc c0 eq_refl) in Ht.
  cbn [uc uc_key uc_volume uc_id UpdateCommand_make] in Ht.
  replace (mkEntry (key e) (volume e)) with e in Ht by by destruct e.
  pose proof (stable_sort_sorted (c0 ++ [e])) as Hs.
  pose proof (length_stable_sort (c0 ++ [e])) as Hl.
  rewrite length_app in Hl. cbn [length] in Hl.
  eexists m', _. split_and!; [exact Hm' | | | |].
  - rewrite Ht. apply list_lookup_insert_eq. by eapply lookup_lt_Some.
  - destruct (_ <? _)%nat; [by apply sorted_removelast | done].
  - intros k. rewrite <- (with_key_stable_sort k (c0 ++ [e])).
    destruct (_ <? _)%nat; [apply with_key_removelast | done].
  - intros Hlt. destruct (Nat.ltb_spec ENTRIES_N (length (stable_sort (c0 ++ [e]))));
      [lia | done].
Qed.

Lemma adds_chain (CONTEXT_N ENTRIES_N : nat) (id : id_t) (es : list Entry) :
  id < N.of_nat CONTEXT_N →
  ∀ (m : ValidationModel) (c0 : list Entry),
    tbl_ m !! N.to_nat id = Some c0 →
    ∃ m' c,
      handle_ucs CONTEXT_N ENTRIES_N m (adds id es) = Done m'
      ∧ tbl_ m' !! N.to_nat id = Some c
      ∧ (StronglySorted key_le c0 → StronglySorted key_le c)
      ∧ (∀ k, with_key k c `sublist_of` with_key k (c0 ++ es))
      ∧ ((length c0 + length es ≤ ENTRIES_N)%nat →
           StronglySorted key_le c0 → c = stable_sort (c0 ++ es)).
Proof.
  intros Hid. induction es as [|e es IH]; intros m c0 Hc.
  - exists m, c0. rewrite app_nil_r. split_and!; [done..|].
    intros _ Hs. by rewrite stable_sort_id.
  - destruct (add_step CONTEXT_N ENTRIES_N m id e c0 Hid Hc)
      as (m1 & c1 & H1 & Hc1 & Hs1 & Hk1 & He1).
    destruct (IH m1 c1 Hc1) as (m' & c & H' & Hc' & Hs' & Hk' & He').
    exists m', c. cbn [adds fmap list_fmap handle_ucs].
    fold (adds id es). rewrite H1. cbn [and_then].
    split_and!; [exact H' | exact Hc' | by intros _; apply Hs' | |].
    + intros k. etrans; [apply Hk'|].
      unfold with_key in *. rewrite cons_middle, (assoc_L (++) c0 [e] es).
      rewrite !(filter_app _ _ es). apply sublist_app; [apply Hk1 | done].
    + cbn [length]. intros Hle _.
      rewrite He1 in * by lia.
      rewrite He'; [| rewrite length_stable_sort, length_app; cbn; lia | done].
      by rewrite stable_sort_app_l, <- (assoc_L (++)).
Qed.

(** C5.  Whatever context [c0] the id addresses, after a non-empty
    sequence of Adds (hence after each Add of any sequence) the context
    is sorted ascending by key, and its entries of any one key appear in
    the order in which they stood in [c0] and were then added.  As long
    as the capacity is not exceeded the context is exactly the stable
    sort of [c0] followed by the added entries. *)
Theorem add_sequence_sorted_stable (CONTEXT_N ENTRIES_N : nat)
    (m : ValidationModel) (id : id_t) (c0 es : list Entry) :
  id < N.of_nat CONTEXT_N →
  tbl_ m !! N.to_nat id = Some c0 →
  es ≠ [] →
  ∃ m' c,
    handle_ucs CONTEXT_N ENTRIES_N m (adds id es) = Done m'
    ∧ tbl_ m' !! N.to_nat id = Some c
    ∧ StronglySorted key_le c
    ∧ (∀ k, with_key k c `sublist_of` with_key k (c0 ++ es))
    ∧ ((length c0 + length es ≤ ENTRIES_N)%nat → c = stable_sort (c0 ++ es)).
Proof.
  intros Hid Hc Hne. destruct es as [|e es]; [done|].
  destruct (add_step CONTEXT_N ENTRIES_N m id e c0 Hid Hc)
    as (m1 & c1 & H1 & Hc1 & Hs1 & _ & He1).
  destruct (adds_chain CONTEXT_N ENTRIES_N id (e :: es) Hid m c0 Hc)
    as (m' & c & H' & Hc' & _ & Hk' & _).
  destruct (adds_chain CONTEXT_N ENTRIES_N id es Hid m1 c1 Hc1)
    as (m'' & c' & H'' & Hc'' & Hs'' & _ & He'').
  assert (m'' = m') as ->.
  { cbn [adds fmap list_fmap handle_ucs] in H'. fold (adds id es) in H'.
    rewrite H1 in H'. cbn [and_then] in H'. congruence. }
  assert (c' = c) as -> by congruence.
  exists m', c.
  split_and!; [exact H' | exact Hc' | by apply Hs'' | exact Hk' |].
  cbn [length]. intros Hle.
  assert (c1 = stable_sort (c0 ++ [e])) as E1 by (apply He1; lia).
  rewrite He''; [| | exact Hs1].
  - by rewrite E1, stable_sort_app_l, <- (assoc_L (++)).
  - rewrite E1, length_stable_sort, length_app. cbn. lia.
Qed.

(** Three Adds with a repeated key: the two entries of key 3 stay in the
    order in which they were added. *)
Lemma add_sequence_sorted_stable_witness :
  ∃ m',
    handle_ucs 1 4 (make 1) (adds 0 [mkEntry 3 1; mkEntry 1 2; mkEntry 3 3])
    = Done m'
    ∧ tbl_ m' !! 0%nat = Some [mkEntry 1 2; mkEntry 3 1; mkEntry 3 3]
    ∧ StronglySorted key_le [mkEntry 1 2; mkEntry 3 1; mkEntry 3 3].
Proof.
  destruct (add_sequence_sorted_stable 1 4 (make 1) 0 []
              [mkEntry 3 1; mkEntry 1 2; mkEntry 3 3])
    as (m' & c & Hm' & Hc & Hs & _ & _);
    [reflexivity | reflexivity | discriminate |].
  assert (m' = model_of (handle_ucs 1 4 (make 1)
                           (adds 0 [mkEntry 3 1; mkEntry 1 2; mkEntry 3 3])))
    as E by (rewrite Hm'; reflexivity).
  assert (c = [mkEntry 1 2; mkEntry 3 1; mkEntry 3 3]) as Ec.
  { rewrite E in Hc. vm_compute in Hc. congruence. }
  rewrite Ec in Hc, Hs.
  exists m'. split_and!; [exact Hm' | exact Hc | exact Hs].
Defined.

(** ** Delete and Replace of an absent key *)

(** When no entry carries the key, [handle_uc] leaves through its early
    [return]: the contexts are as before and the notify pipe is exactly
    as before, the slot under the write cursor included. *)
Lemma del_rep_absent (CONTEXT_N ENTRIES_N : nat) (m : ValidationModel)
    (ctxt : list Entry) :
  uc_vld (uc_ m) = true →
  uc_cmd (uc_ m) = Del ∨ uc_cmd (uc_ m) = Rep →
  uc_id (uc_ m) < N.of_nat CONTEXT_N →
  tbl_ m !! N.to_nat (uc_id (uc_ m)) = Some ctxt →
  Forall (λ e, key e ≠ uc_key (uc_ m)) ctxt →
  ∃ m', handle_uc CONTEXT_N ENTRIES_N m = Done m'
        ∧ tbl_ m' = tbl_ m
        ∧ notify_pipe_ m' = notify_pipe_ m.
Proof.
  intros Hv Hcmd Hid Hc Habs.
  destruct (handle_uc_in_range CONTEXT_N ENTRIES_N m ctxt Hv Hid Hc)
    as (m' & Hm' & Ht & Hp & _).
  rewrite del_rep_context in Ht by done. rewrite del_rep_pushed in Hp by done.
  assert (find_if (λ e, key e =? uc_key (uc_ m)) ctxt = None) as F.
  { apply find_if_None. eapply Forall_impl; [exact Habs|].
    intros e. apply N.eqb_neq. }
  rewrite F in Ht, Hp.
  exists m'. split_and!; [exact Hm' | | exact Hp].
  rewrite Ht. by apply list_insert_id.
Qed.

(** C7, at a run with one context and capacity 4.  Add(5,10) in cycle 1
    is predicted at cycle 5; the slot that held that prediction is the
    one under the write cursor in cycle 6.  Delete(key=7) in cycle 6
    finds no entry: the context is unchanged, nothing is handed to
    [push_back], the slot keeps the response of cycle 1, and at cycle 10
    the head of the notify pipe is the valid response (0, 5, 10).  With
    an idle cycle in place of the Delete the head at cycle 10 is the
    invalid response. *)
Theorem absent_key_replays_old_notify :
  let m5 := model_of (cycles 1 4 8 (make 1)
                        [update_only (UpdateCommand_make 0 Add 5 10);
                         idle; idle; idle; idle]) in
  let del := UpdateCommand_make 0 Del 7 0 in
  ∃ m6 m10 m10',
    tbl_ m5 = [[mkEntry 5 10]]
    ∧ cycles 1 4 8 m5 [update_only del] = Done m6
    ∧ tbl_ m6 = [[mkEntry 5 10]]
    ∧ (handle_uc_switch 4 del [mkEntry 5 10]).2 = None
    ∧ DelayPipe.p_ (notify_pipe_ m6) = DelayPipe.p_ (notify_pipe_ m5)
    ∧ cycles 1 4 8 m6 [idle; idle; idle; idle] = Done m10
    ∧ DelayPipe.head (notify_pipe_ m10) = NotifyResponse_make 0 5 10
    ∧ cycles 1 4 8 m5 [idle; idle; idle; idle; idle] = Done m10'
    ∧ DelayPipe.head (notify_pipe_ m10') = T0.
Proof.
  intros m5 del. do 3 eexists. split_and!; vm_compute; reflexivity.
Qed.

(** ** Reset *)

Lemma reset_contexts_empty (m : ValidationModel) :
  length (tbl_ (reset m)) = length (tbl_ m)
  ∧ Forall (λ c, c = []) (tbl_ (reset m)).
Proof.
  cbn. split; [apply length_fmap|].
  apply Forall_fmap, Forall_true. done.
Qed.

Lemma reset_idempotent (m : ValidationModel) : reset (reset m) = reset m.
Proof.
  unfold reset, set_tbl. cbn. f_equal.
  rewrite <- list_fmap_compose. done.
Qed.

(** [reset()] does not touch the pipes. *)
Lemma reset_pipes (m : ValidationModel) :
  notify_pipe_ (reset m) = notify_pipe_ m
  ∧ id_pipe_ (reset m) = id_pipe_ m
  ∧ queries_pipe_ (reset m) = queries_pipe_ m.
Proof. done. Qed.

(** C3, at a run with one context and capacity 4.  After the cycle of
    Add(5,10), [reset()] empties the context, and both pipes are what
    they were before the call: neither equals a cleared pipe, the
    notify pipe still holds the response (0, 5, 10), and four idle
    cycles after the reset that response is at its head. *)
Theorem reset_keeps_pipeline_contents :
  let m := model_of (cycles 1 4 8 (make 1)
                       [update_only (UpdateCommand_make 0 Add 5 10)]) in
  ∃ m5,
    tbl_ (reset m) = [[]]
    ∧ notify_pipe_ (reset m) = notify_pipe_ m
    ∧ queries_pipe_ (reset m) = queries_pipe_ m
    ∧ notify_pipe_ (reset m)
      ≠ DelayPipe.clear UPDATE_PIPE_DELAY (notify_pipe_ (reset m))
    ∧ queries_pipe_ (reset m)
      ≠ DelayPipe.clear QUERY_PIPE_DELAY (queries_pipe_ (reset m))
    ∧ DelayPipe.p_ (notify_pipe_ (reset m)) !! 0%nat
      = Some (NotifyResponse_make 0 5 10)
    ∧ cycles 1 4 8 (reset m) [idle; idle; idle; idle] = Done m5
    ∧ DelayPipe.head (notify_pipe_ m5) = NotifyResponse_make 0 5 10.
Proof.
  intros m. eexists.
  split_and!; try (vm_compute; reflexivity); vm_compute; discriminate.
Qed.


(** ** The delay pipe from any well-formed state *)

Section pipe_general.
Context {T : Type} `{!DefaultCtor T}.
Import DelayPipe.

Lemma pipe_ok_make (N : nat) : pipe_ok N (make (T := T) N).
Proof.
  unfold pipe_ok. cbn. rewrite !length_replicate.
  split_and!; [done | lia |].
  symmetry. apply Nat.mod_small. lia.
Qed.

Lemma pipe_ok_step (N : nat) (d : t T) : pipe_ok N d → pipe_ok N (step N d).
Proof.
  intros (Hl & Hr & Hw). unfold pipe_ok. cbn.
  split_and!; [done | apply Nat.mod_upper_bound; lia |].
  rewrite Hw, mod_succ by lia.
  rewrite Nat.Div0.add_mod_idemp_l. f_equal. lia.
Qed.

Lemma pipe_ok_push_back (N : nat) (d : t T) (x : T) :
  pipe_ok N d → pipe_ok N (push_back d x).
Proof.
  intros (Hl & Hr & Hw). unfold pipe_ok. cbn. by rewrite length_insert.
Qed.

Lemma pipe_ok_wr_lt (N : nat) (d : t T) :
  pipe_ok N d → (wr_ptr_ d < N + 1)%nat.
Proof. intros (_ & _ & ->). apply Nat.mod_upper_bound. lia. Qed.

Lemma pipe_ok_tick (N : nat) (d : t T) (x : option T) :
  pipe_ok N d → pipe_ok N (tick N d x).
Proof.
  intros H. unfold tick. destruct x;
    [by apply pipe_ok_push_back, pipe_ok_step | by apply pipe_ok_step].
Qed.

Lemma pipe_ok_ticks (N : nat) (xs : list (option T)) (d : t T) :
  pipe_ok N d → pipe_ok N (ticks N d xs).
Proof.
  revert d. induction xs as [|x xs IH]; intros d H; cbn; [done|].
  by apply IH, pipe_ok_tick.
Qed.

Lemma tick_cursors (N : nat) (d : t T) (x : option T) :
  wr_ptr_ (tick N d x) = ((wr_ptr_ d + 1) `mod` (N + 1))%nat
  ∧ rd_ptr_ (tick N d x) = ((rd_ptr_ d + 1) `mod` (N + 1))%nat.
Proof. unfold tick. by destruct x. Qed.

Lemma ticks_rd (N : nat) (xs : list (option T)) (d : t T) :
  rd_ptr_ (ticks N d xs) = ((rd_ptr_ d + length xs) `mod` (N + 1))%nat
  ∨ (xs = [] ∧ rd_ptr_ (ticks N d xs) = rd_ptr_ d).
Proof.
  revert d. induction xs as [|x xs IH]; intros d; cbn [ticks length].
  - right. done.
  - left. destruct (IH (tick N d x)) as [E | [-> E]].
    + rewrite E. destruct (tick_cursors N d x) as [_ ->].
      rewrite Nat.Div0.add_mod_idemp_l. f_equal. lia.
    + cbn in *. destruct (tick_cursors N d x) as [_ ->]. f_equal; lia.
Qed.

(** A slot that none of the coming write cursors reaches keeps its
    content. *)
Lemma ticks_slot_kept (N : nat) (xs : list (option T)) (d : t T) (s : nat) :
  (∀ i, (1 ≤ i ≤ length xs)%nat → ((wr_ptr_ d + i) `mod` (N + 1))%nat ≠ s) →
  p_ (ticks N d xs) !! s = p_ d !! s.
Proof.
  revert d. induction xs as [|x xs IH]; intros d Hs; cbn [ticks]; [done|].
  rewrite IH.
  - unfold tick. destruct x as [v|]; [|done]. cbn.
    apply list_lookup_insert_ne.
    specialize (Hs 1%nat). cbn in Hs. apply Hs. lia.
  - intros i Hi. destruct (tick_cursors N d x) as [-> _].
    rewrite Nat.Div0.add_mod_idemp_l.
    replace (wr_ptr_ d + 1 + i)%nat with (wr_ptr_ d + S i)%nat by lia.
    apply Hs. cbn. lia.
Qed.

(** What is under the write cursor is at the head after [N] cycles,
    whether those cycles push or not. *)
Lemma ticks_head (N : nat) (xs : list (option T)) (d : t T) :
  pipe_ok N d → length xs = N → head (ticks N d xs) = staged d.
Proof.
  intros Hok Hlen. pose proof Hok as (Hl & Hr & Hw).
  unfold head, staged. rewrite !nth_lookup.
  assert (rd_ptr_ (ticks N d xs) = wr_ptr_ d) as ->.
  { destruct (ticks_rd N xs d) as [E | [-> E]].
    - by rewrite E, Hlen, Hw.
    - rewrite E, Hw. change (length (@nil (option T))) with 0%nat in Hlen.
      subst N. rewrite Nat.add_0_r. symmetry. by apply Nat.mod_small. }
  rewrite ticks_slot_kept; [done|].
  intros i Hi.
  rewrite <- (Nat.mod_small (wr_ptr_ d) (N + 1)) at 2
    by by eapply pipe_ok_wr_lt.
  apply mod_apart. lia.
Qed.
End pipe_general.

(** X1.  The members of a delay pipe keep their relation: the constructed
    pipe has [N + 1] slots with the write cursor [N] ahead of the read
    cursor modulo [N + 1], [step()], [push_back()] and [clear()] keep
    that, and [clear()] brings any such pipe back to the constructed
    one. *)
Theorem pipe_cursors_stay_apart {T : Type} `{!DefaultCtor T}
    (N : nat) (d : DelayPipe.t T) (x : T) :
  pipe_ok N d →
  pipe_ok N (DelayPipe.make (T := T) N)
  ∧ pipe_ok N (DelayPipe.step N d)
  ∧ pipe_ok N (DelayPipe.push_back d x)
  ∧ DelayPipe.clear N d = DelayPipe.make N.
Proof.
  intros Hok.
  split_and!; [apply pipe_ok_make | by apply pipe_ok_step
              | by apply pipe_ok_push_back |].
  destruct Hok as (Hl & _). unfold DelayPipe.make, DelayPipe.clear. cbn.
  by rewrite Hl, length_replicate.
Qed.

Lemma pipe_cursors_stay_apart_witness :
  let d := DelayPipe.push_back (DelayPipe.step 4 (DelayPipe.make 4)) 7%nat in
  pipe_ok 4 (DelayPipe.step 4 d) ∧ DelayPipe.clear 4 d = DelayPipe.make 4.
Proof.
  intros d.
  assert (pipe_ok 4 d) as Hd.
  { unfold pipe_ok. cbn. split_and!; [reflexivity | lia | reflexivity]. }
  destruct (pipe_cursors_stay_apart 4 d 0%nat Hd) as (_ & H1 & _ & H2).
  split; [exact H1 | exact H2].
Defined.

(** X2.  From any well-formed pipe of depth [N], a pushed value is at
    the head after exactly [N] further cycles, whatever those cycles
    push and whether they push at all: it stays in its slot throughout,
    and before the [N]-th cycle the read cursor is on another slot. *)
Theorem pushed_value_due_after_depth {T : Type} `{!DefaultCtor T}
    (N : nat) (d : DelayPipe.t T) (x : T) (xs : list (option T)) :
  pipe_ok N d →
  (length xs ≤ N)%nat →
  let d' := ticks N (DelayPipe.push_back d x) xs in
  DelayPipe.p_ d' !! DelayPipe.wr_ptr_ d = Some x
  ∧ (length xs = N → DelayPipe.head d' = x)
  ∧ ((length xs < N)%nat → DelayPipe.rd_ptr_ d' ≠ DelayPipe.wr_ptr_ d).
Proof.
  intros Hok Hlen d'. pose proof Hok as (Hl & Hr & Hw).
  pose proof (pipe_ok_wr_lt N d Hok) as Hwl.
  assert (DelayPipe.p_ (DelayPipe.push_back d x) !! DelayPipe.wr_ptr_ d = Some x)
    as Hx by (cbn; apply list_lookup_insert_eq; lia).
  split_and!.
  - subst d'. rewrite ticks_slot_kept; [exact Hx|].
    intros i Hi. cbn.
    rewrite <- (Nat.mod_small (DelayPipe.wr_ptr_ d) (N + 1)) at 2 by done.
    apply mod_apart. lia.
  - intros E. subst d'.
    rewrite ticks_head; [| by apply pipe_ok_push_back | done].
    unfold staged. rewrite nth_lookup. cbn in *. by rewrite Hx.
  - intros Hlt. subst d'.
    destruct (ticks_rd N xs (DelayPipe.push_back d x)) as [E | [-> E]];
      rewrite E; cbn.
    + rewrite Hw.
      replace (DelayPipe.rd_ptr_ d + N)%nat
        with (DelayPipe.rd_ptr_ d + length xs + (N - length xs))%nat by lia.
      intros E'. symmetry in E'. revert E'. apply mod_apart. lia.
    + cbn in Hlt. rewrite Hw.
      rewrite <- (Nat.mod_small (DelayPipe.rd_ptr_ d) (N + 1)) at 1 by done.
      intros E'. symmetry in E'. revert E'. apply mod_apart. lia.
Qed.

Lemma pushed_value_due_after_depth_witness :
  let d := ticks 4 (DelayPipe.make 4) [Some 1%nat; None; Some 3%nat] in
  DelayPipe.head
    (ticks 4 (DelayPipe.push_back d 9%nat) [None; Some 5%nat; None; Some 6%nat])
  = 9%nat.
Proof.
  intros d.
  assert (pipe_ok 4 d) as Hd.
  { unfold pipe_ok. cbn. split_and!; [reflexivity | lia | reflexivity]. }
  destruct (pushed_value_due_after_depth 4 d 9%nat
              [None; Some 5%nat; None; Some 6%nat] Hd) as (_ & H & _);
    [cbn; lia|].
  apply H. reflexivity.
Defined.

(** X3.  A cycle that calls [step()] and no [push_back()] leaves under
    the write cursor the value that was at the head before the step; [N]
    cycles later that value is at the head again. *)
Theorem skipped_push_replays_head {T : Type} `{!DefaultCtor T}
    (N : nat) (d : DelayPipe.t T) (xs : list (option T)) :
  pipe_ok N d →
  length xs = N →
  staged (DelayPipe.step N d) = DelayPipe.head d
  ∧ DelayPipe.head (ticks N d (None :: xs)) = DelayPipe.head d.
Proof.
  intros Hok Hlen. pose proof Hok as (Hl & Hr & Hw).
  assert (staged (DelayPipe.step N d) = DelayPipe.head d) as Hs.
  { unfold staged, DelayPipe.head. cbn. f_equal.
    rewrite Hw, mod_succ by lia.
    replace (DelayPipe.rd_ptr_ d + N + 1)%nat
      with (DelayPipe.rd_ptr_ d + 1 * (N + 1))%nat by lia.
    rewrite Nat.Div0.mod_add. apply Nat.mod_small. lia. }
  split; [exact Hs|].
  cbn [ticks tick]. rewrite ticks_head; [exact Hs | by apply pipe_ok_step | done].
Qed.

Lemma skipped_push_replays_head_witness :
  let d := ticks 4 (DelayPipe.make 4)
             [Some 8%nat; Some 0%nat; Some 0%nat; Some 0%nat; Some 0%nat] in
  DelayPipe.head d = 8%nat
  ∧ DelayPipe.head
      (ticks 4 d [None; Some 0%nat; Some 0%nat; Some 0%nat; Some 0%nat])
    = 8%nat.
Proof.
  intros d.
  assert (pipe_ok 4 d) as Hd.
  { unfold pipe_ok. cbn. split_and!; [reflexivity | lia | reflexivity]. }
  destruct (skipped_push_replays_head 4 d
              [Some 0%nat; Some 0%nat; Some 0%nat; Some 0%nat] Hd eq_refl)
    as [_ H].
  split; [reflexivity | exact (eq_trans H eq_refl)].
Defined.

(** X4.  In a well-formed pipe of depth at least 1, [push_back()] does
    not change what [head()] returns in the same cycle, and of two
    pushes in one cycle the second one is the one that stays. *)
Theorem push_back_keeps_head {T : Type} `{!DefaultCtor T}
    (N : nat) (d : DelayPipe.t T) (x y : T) :
  pipe_ok N d →
  (1 ≤ N)%nat →
  DelayPipe.head (DelayPipe.push_back d x) = DelayPipe.head d
  ∧ DelayPipe.push_back (DelayPipe.push_back d x) y = DelayPipe.push_back d y
  ∧ staged (DelayPipe.push_back d y) = y.
Proof.
  intros (Hl & Hr & Hw) HN. split_and!.
  - unfold DelayPipe.head. cbn. rewrite !nth_lookup.
    rewrite list_lookup_insert_ne; [done|].
    rewrite Hw.
    rewrite <- (Nat.mod_small (DelayPipe.rd_ptr_ d) (N + 1)) at 2 by done.
    apply mod_apart. lia.
  - unfold DelayPipe.push_back. cbn. f_equal. apply list_insert_insert_eq.
  - unfold staged. cbn. rewrite nth_lookup, list_lookup_insert_eq; [done|].
    rewrite Hl, Hw. apply Nat.mod_upper_bound. lia.
Qed.

Lemma push_back_keeps_head_witness :
  let d := ticks 1 (DelayPipe.make 1) [Some 4%nat; Some 5%nat] in
  DelayPipe.head (DelayPipe.push_back d 6%nat) = 4%nat.
Proof.
  intros d.
  assert (pipe_ok 1 d) as Hd.
  { unfold pipe_ok. cbn. split_and!; [reflexivity | lia | reflexivity]. }
  destruct (push_back_keeps_head 1 d 6%nat 0%nat Hd) as (H & _); [lia|].
  exact H.
Defined.


(** ** Cycles of the model and its pipes *)

Lemma ticks_app {T : Type} (N : nat) (xs ys : list (option T)) (d : DelayPipe.t T) :
  ticks N d (xs ++ ys) = ticks N (ticks N d xs) ys.
Proof. revert d. induction xs as [|x xs IH]; intros d; cbn; [done | apply IH]. Qed.

Section cycle_facts.
Variable CONTEXT_N : nat.
Variable ENTRIES_N : nat.
Variable LISTSIZE_W : N.

Lemma handle_uc_effect (m m' : ValidationModel) :
  handle_uc CONTEXT_N ENTRIES_N m = Done m' →
  let sw := handle_uc_switch ENTRIES_N (uc_ m) (ctxt_at m (uc_id (uc_ m))) in
  (uc_vld (uc_ m) = true → uc_id (uc_ m) < N.of_nat CONTEXT_N)
  ∧ tbl_ m' = (if uc_vld (uc_ m)
               then <[N.to_nat (uc_id (uc_ m)) := sw.1]> (tbl_ m)
               else tbl_ m)
  ∧ notify_pipe_ m'
    = match (if uc_vld (uc_ m) then sw.2 else Some T0) with
      | Some x => DelayPipe.push_back (notify_pipe_ m) x
      | None => notify_pipe_ m
      end.
Proof.
  intros H sw. revert H. unfold handle_uc, ASSERT_LT.
  destruct (uc_vld (uc_ m)); cbn [negb]; [|by intros [= <-]].
  destruct (N.ltb_spec (uc_id (uc_ m)) (N.of_nat CONTEXT_N)); [|done].
  fold sw. destruct sw as [c [x|]]; by intros [= <-].
Qed.

Lemma handle_qc_effect (m m' : ValidationModel) :
  handle_qc CONTEXT_N LISTSIZE_W m = Done m' →
  (qc_vld (qc_ m) = true → qc_id (qc_ m) < N.of_nat CONTEXT_N)
  ∧ tbl_ m' = tbl_ m
  ∧ notify_pipe_ m' = notify_pipe_ m
  ∧ queries_pipe_ m'
    = DelayPipe.push_back (queries_pipe_ m)
        (query_answer LISTSIZE_W (qc_ m) (ctxt_at m (qc_id (qc_ m)))).
Proof.
  unfold handle_qc, ASSERT_LT, query_answer.
  destruct (qc_vld (qc_ m)); [|by intros [= <-]].
  destruct (N.ltb_spec (qc_id (qc_ m)) (N.of_nat CONTEXT_N)); [|done].
  by intros [= <-].
Qed.

(** What one completed cycle does to the contexts and to both pipes. *)
Lemma cycle_effect (uc : UpdateCommand) (qc : QueryCommand)
    (nr : NotifyResponse) (qr : QueryResponse) (m m1 : ValidationModel) :
  cycle CONTEXT_N ENTRIES_N LISTSIZE_W uc qc nr qr m = Done m1 →
  let sw := handle_uc_switch ENTRIES_N uc (ctxt_at m (uc_id uc)) in
  (uc_vld uc = true → uc_id uc < N.of_nat CONTEXT_N)
  ∧ (qc_vld qc = true → qc_id qc < N.of_nat CONTEXT_N)
  ∧ tbl_ m1 = (if uc_vld uc then <[N.to_nat (uc_id uc) := sw.1]> (tbl_ m)
               else tbl_ m)
  ∧ notify_pipe_ m1
    = tick UPDATE_PIPE_DELAY (notify_pipe_ m)
        (if uc_vld uc then sw.2 else Some T0)
  ∧ queries_pipe_ m1
    = tick QUERY_PIPE_DELAY (queries_pipe_ m)
        (Some (query_answer LISTSIZE_W qc (ctxt_at m1 (qc_id qc)))).
Proof.
  intros H sw. revert H. unfold cycle, step.
  set (m0 := set_queries_pipe _ (set_notify_pipe _ _)).
  destruct (handle_uc CONTEXT_N ENTRIES_N m0) as [ma|] eqn:Ha; [|done].
  cbn [and_then].
  destruct (handle_qc CONTEXT_N LISTSIZE_W ma) as [mb|] eqn:Hb; [|done].
  cbn [and_then handle_qr handle_nr]. intros [= <-].
  pose proof (handle_uc_frame _ _ _ _ Ha) as [Hqc Hqp].
  apply handle_uc_effect in Ha as (Hu & Ht & Hn).
  apply handle_qc_effect in Hb as (Hq & Ht' & Hn' & Hq').
  rewrite Hqc in Hq, Hq'. rewrite Hqp in Hq'.
  change (uc_ m0) with uc in *. change (qc_ m0) with qc in *.
  change (ctxt_at m0 (uc_id uc)) with (ctxt_at m (uc_id uc)) in *.
  fold sw in Ht, Hn.
  split_and!; [exact Hu | exact Hq | by rewrite Ht' | |].
  - rewrite Hn', Hn. unfold tick. by destruct (if uc_vld uc then _ else _).
  - rewrite Hq'. unfold tick, ctxt_at. by rewrite Ht'.
Qed.

Lemma cycle_pipes_ok (uc : UpdateCommand) (qc : QueryCommand)
    (nr : NotifyResponse) (qr : QueryResponse) (m m1 : ValidationModel) :
  cycle CONTEXT_N ENTRIES_N LISTSIZE_W uc qc nr qr m = Done m1 →
  pipes_ok m → pipes_ok m1.
Proof.
  intros (_ & _ & _ & Hn & Hq)%cycle_effect [H1 H2].
  split; [rewrite Hn | rewrite Hq]; by apply pipe_ok_tick.
Qed.

Lemma reachable_pipes_ok (m : ValidationModel) :
  reachable CONTEXT_N ENTRIES_N LISTSIZE_W m → pipes_ok m.
Proof.
  induction 1 as [|m uc qc nr qr m' _ IH Hc|m _ IH].
  - split; apply pipe_ok_make.
  - by eapply cycle_pipes_ok.
  - done.
Qed.

Lemma advance_reachable (n : nat) (m m' : ValidationModel) :
  advance CONTEXT_N ENTRIES_N LISTSIZE_W n m m' →
  reachable CONTEXT_N ENTRIES_N LISTSIZE_W m →
  reachable CONTEXT_N ENTRIES_N LISTSIZE_W m'.
Proof.
  induction 1; intros Hr; [done | by apply reachable_reset, IHadvance |].
  eapply reachable_cycle; [by apply IHadvance | done].
Qed.

(** Over [n] cycles each pipe takes [n] ticks; resets do not touch
    them. *)
Lemma advance_pipes (n : nat) (m m' : ValidationModel) :
  advance CONTEXT_N ENTRIES_N LISTSIZE_W n m m' →
  ∃ xs ys,
    length xs = n ∧ length ys = n
    ∧ notify_pipe_ m' = ticks UPDATE_PIPE_DELAY (notify_pipe_ m) xs
    ∧ queries_pipe_ m' = ticks QUERY_PIPE_DELAY (queries_pipe_ m) ys.
Proof.
  induction 1 as [m | n m m' _ IH | n m m' uc qc nr qr m'' _ IH Hc].
  - by exists [], [].
  - exact IH.
  - destruct IH as (xs & ys & Hx & Hy & Hn & Hq).
    apply cycle_effect in Hc as (_ & _ & _ & Hn' & Hq').
    eexists (xs ++ [_]), (ys ++ [_]).
    rewrite !length_app, !ticks_app, <- Hn, <- Hq. cbn [length ticks].
    split_and!; [lia | lia | exact Hn' | exact Hq'].
Qed.
End cycle_facts.

(** ** Predictions in flight *)

Lemma staged_push_back {T : Type} `{!DefaultCtor T}
    (N : nat) (d : DelayPipe.t T) (x : T) :
  pipe_ok N d → staged (DelayPipe.push_back d x) = x.
Proof.
  intros Hok. pose proof (pipe_ok_wr_lt N d Hok) as Hw.
  destruct Hok as (Hl & _).
  unfold staged. cbn. rewrite nth_lookup, list_lookup_insert_eq; [done | lia].
Qed.

Lemma staged_step {T : Type} `{!DefaultCtor T} (N : nat) (d : DelayPipe.t T) :
  pipe_ok N d → staged (DelayPipe.step N d) = DelayPipe.head d.
Proof.
  intros (Hl & Hr & Hw). unfold staged, DelayPipe.head. cbn. f_equal.
  rewrite Hw, mod_succ by lia.
  replace (DelayPipe.rd_ptr_ d + N + 1)%nat
    with (DelayPipe.rd_ptr_ d + 1 * (N + 1))%nat by lia.
  rewrite Nat.Div0.mod_add. apply Nat.mod_small. lia.
Qed.

(** X5.  In a run of the model, the response [handle_uc] pushes in a
    completed cycle (the invalid one for a cycle without command, the
    one of the [switch] otherwise) is what [head()] of the notify pipe
    returns after [UPDATE_PIPE_DELAY] further completed cycles, whatever
    those cycles carry and however many calls of [reset()] lie between
    them. *)
Theorem notify_due_after_update_delay (CONTEXT_N ENTRIES_N : nat) (LISTSIZE_W : N)
    (m m1 m5 : ValidationModel) (uc : UpdateCommand) (qc : QueryCommand)
    (nr : NotifyResponse) (qr : QueryResponse) (x : NotifyResponse) :
  reachable CONTEXT_N ENTRIES_N LISTSIZE_W m →
  cycle CONTEXT_N ENTRIES_N LISTSIZE_W uc qc nr qr m = Done m1 →
  (if uc_vld uc
   then (handle_uc_switch ENTRIES_N uc (ctxt_at m (uc_id uc))).2
   else Some T0) = Some x →
  advance CONTEXT_N ENTRIES_N LISTSIZE_W UPDATE_PIPE_DELAY m1 m5 →
  DelayPipe.head (notify_pipe_ m5) = x.
Proof.
  intros Hr Hc Hx Ha.
  destruct (reachable_pipes_ok _ _ _ _ Hr) as [Hn _].
  apply cycle_effect in Hc as (_ & _ & _ & Hn1 & _).
  rewrite Hx in Hn1. unfold tick in Hn1.
  destruct (advance_pipes _ _ _ _ _ _ Ha) as (xs & _ & Hlen & _ & Hn5 & _).
  rewrite Hn5, Hn1.
  rewrite ticks_head; [| by apply pipe_ok_push_back, pipe_ok_step | done].
  by apply (staged_push_back UPDATE_PIPE_DELAY), pipe_ok_step.
Qed.

(** Add(5,10) into the empty context, then a reset and four cycles that
    carry other commands: the notify (0, 5, 10) is at the head. *)
Lemma notify_due_after_update_delay_witness :
  let m1 := model_of (cycles 1 4 8 (make 1)
                        [update_only (UpdateCommand_make 0 Add 5 10)]) in
  let m5 := model_of (cycles 1 4 8 (reset m1)
                        [update_only (UpdateCommand_make 0 Add 7 1);
                         idle;
                         update_only (UpdateCommand_make 0 Del 9 0);
                         update_only (UpdateCommand_make 0 Clr 0 0)]) in
  DelayPipe.head (notify_pipe_ m5) = NotifyResponse_make 0 5 10.
Proof.
  intros m1 m5.
  apply (notify_due_after_update_delay 1 4 8 (make 1) m1 m5
           (UpdateCommand_make 0 Add 5 10) T0 T0 T0);
    [apply reachable_make | vm_compute; reflexivity | reflexivity |].
  set (c1 := update_only (UpdateCommand_make 0 Add 7 1)).
  set (c3 := update_only (UpdateCommand_make 0 Del 9 0)).
  apply (advance_cycle 1 4 8 3 m1
           (model_of (cycles 1 4 8 (reset m1) [c1; idle; c3]))
           (UpdateCommand_make 0 Clr 0 0) T0 T0 T0);
    [|vm_compute; reflexivity].
  apply (advance_cycle 1 4 8 2 m1
           (model_of (cycles 1 4 8 (reset m1) [c1; idle]))
           (UpdateCommand_make 0 Del 9 0) T0 T0 T0);
    [|vm_compute; reflexivity].
  apply (advance_cycle 1 4 8 1 m1
           (model_of (cycles 1 4 8 (reset m1) [c1])) T0 T0 T0 T0);
    [|vm_compute; reflexivity].
  apply (advance_cycle 1 4 8 0 m1 (reset m1)
           (UpdateCommand_make 0 Add 7 1) T0 T0 T0);
    [|vm_compute; reflexivity].
  apply advance_reset, advance_here.
Defined.

(** X6.  In a run of the model, a completed cycle with a Delete or
    Replace whose key no entry of the addressed context carries leaves
    every context as it was, and after [UPDATE_PIPE_DELAY] further
    completed cycles [head()] of the notify pipe returns what it
    returned in the cycle before that command. *)
Theorem absent_key_predicts_previous_head (CONTEXT_N ENTRIES_N : nat)
    (LISTSIZE_W : N) (m m1 m5 : ValidationModel) (uc : UpdateCommand)
    (qc : QueryCommand) (nr : NotifyResponse) (qr : QueryResponse) :
  reachable CONTEXT_N ENTRIES_N LISTSIZE_W m →
  uc_vld uc = true →
  uc_cmd uc = Del ∨ uc_cmd uc = Rep →
  Forall (λ e, key e ≠ uc_key uc) (ctxt_at m (uc_id uc)) →
  cycle CONTEXT_N ENTRIES_N LISTSIZE_W uc qc nr qr m = Done m1 →
  advance CONTEXT_N ENTRIES_N LISTSIZE_W UPDATE_PIPE_DELAY m1 m5 →
  tbl_ m1 = tbl_ m
  ∧ DelayPipe.head (notify_pipe_ m5) = DelayPipe.head (notify_pipe_ m).
Proof.
  intros Hr Hv Hcmd Habs Hc Ha.
  destruct (reachable_pipes_ok _ _ _ _ Hr) as [Hn _].
  destruct (reachable_ok _ _ _ _ Hr) as [Hlen _].
  assert (find_if (λ e, key e =? uc_key uc) (ctxt_at m (uc_id uc)) = None) as F.
  { apply find_if_None. eapply Forall_impl; [exact Habs|].
    intros e. apply N.eqb_neq. }
  apply cycle_effect in Hc as (Hid & _ & Ht & Hn1 & _).
  rewrite Hv in Ht, Hn1. specialize (Hid Hv).
  rewrite del_rep_context, F in Ht by done.
  rewrite del_rep_pushed, F in Hn1 by done.
  split.
  - rewrite Ht. apply list_insert_id. unfold ctxt_at.
    destruct (lookup_lt_is_Some_2 (tbl_ m) (N.to_nat (uc_id uc))) as [c ->];
      [lia | done].
  - destruct (advance_pipes _ _ _ _ _ _ Ha) as (xs & _ & Hl & _ & Hn5 & _).
    rewrite Hn5, Hn1. unfold tick.
    rewrite ticks_head; [| by apply pipe_ok_step | done].
    by apply staged_step.
Qed.

(** The run of claim C7, read through this theorem: after Add(5,10) and
    four idle cycles the head is (0, 5, 10); Delete(7) and four more
    idle cycles bring it back. *)
Lemma absent_key_predicts_previous_head_witness :
  let m := model_of (cycles 1 4 8 (make 1)
                       [update_only (UpdateCommand_make 0 Add 5 10);
                        idle; idle; idle; idle]) in
  let m1 := model_of (cycles 1 4 8 m
                        [update_only (UpdateCommand_make 0 Del 7 0)]) in
  let m5 := model_of (cycles 1 4 8 m1 [idle; idle; idle; idle]) in
  DelayPipe.head (notify_pipe_ m) = NotifyResponse_make 0 5 10
  ∧ DelayPipe.head (notify_pipe_ m5) = DelayPipe.head (notify_pipe_ m).
Proof.
  intros m m1 m5. split; [reflexivity|].
  assert (reachable 1 4 8 m) as Hm.
  { apply (reachable_cycle 1 4 8
             (model_of (cycles 1 4 8 (make 1)
                [update_only (UpdateCommand_make 0 Add 5 10); idle; idle; idle]))
             T0 T0 T0 T0); [|vm_compute; reflexivity].
    apply (reachable_cycle 1 4 8
             (model_of (cycles 1 4 8 (make 1)
                [update_only (UpdateCommand_make 0 Add 5 10); idle; idle]))
             T0 T0 T0 T0); [|vm_compute; reflexivity].
    apply (reachable_cycle 1 4 8
             (model_of (cycles 1 4 8 (make 1)
                [update_only (UpdateCommand_make 0 Add 5 10); idle]))
             T0 T0 T0 T0); [|vm_compute; reflexivity].
    apply (reachable_cycle 1 4 8
             (model_of (cycles 1 4 8 (make 1)
                [update_only (UpdateCommand_make 0 Add 5 10)]))
             T0 T0 T0 T0); [|vm_compute; reflexivity].
    apply (reachable_cycle 1 4 8 (make 1)
             (UpdateCommand_make 0 Add 5 10) T0 T0 T0);
      [apply reachable_make | vm_compute; reflexivity]. }
  assert (advance 1 4 8 4 m1 m5) as Ha.
  { apply (advance_cycle 1 4 8 3 m1
             (model_of (cycles 1 4 8 m1 [idle; idle; idle])) T0 T0 T0 T0);
      [|vm_compute; reflexivity].
    apply (advance_cycle 1 4 8 2 m1
             (model_of (cycles 1 4 8 m1 [idle; idle])) T0 T0 T0 T0);
      [|vm_compute; reflexivity].
    apply (advance_cycle 1 4 8 1 m1
             (model_of (cycles 1 4 8 m1 [idle])) T0 T0 T0 T0);
      [|vm_compute; reflexivity].
    apply (advance_cycle 1 4 8 0 m1 m1 T0 T0 T0 T0);
      [apply advance_here | vm_compute; reflexivity]. }
  refine (proj2 (absent_key_predicts_previous_head 1 4 8 m m1 m5
                   (UpdateCommand_make 0 Del 7 0) T0 T0 T0
                   Hm eq_refl (or_introl eq_refl) _ _ Ha)).
  - repeat constructor; vm_compute; discriminate.
  - vm_compute; reflexivity.
Defined.

(** X7.  A query is answered on the contexts as the update command of
    the same cycle leaves them, and the answer is what [head()] of the
    query pipe returns after [QUERY_PIPE_DELAY] further completed
    cycles.  For a valid query of level [L] on a context that has [S]
    entries after the update: error is [L >= S]; with the error set the
    other fields are zero, otherwise key and volume are those of the
    entry at index [L] and listsize is [S].  A cycle without query
    command pushes the invalid response. *)
Theorem query_answer_due_after_query_delay (CONTEXT_N ENTRIES_N : nat)
    (LISTSIZE_W : N) (m m1 m2 : ValidationModel) (uc : UpdateCommand)
    (qc : QueryCommand) (nr : NotifyResponse) (qr : QueryResponse) :
  reachable CONTEXT_N ENTRIES_N LISTSIZE_W m →
  N.of_nat ENTRIES_N < 2 ^ LISTSIZE_W →
  cycle CONTEXT_N ENTRIES_N LISTSIZE_W uc qc nr qr m = Done m1 →
  advance CONTEXT_N ENTRIES_N LISTSIZE_W QUERY_PIPE_DELAY m1 m2 →
  let ans := DelayPipe.head (queries_pipe_ m2) in
  let ctxt := ctxt_at m1 (qc_id qc) in
  let size := N.of_nat (length ctxt) in
  (qc_vld qc = false → ans = T0)
  ∧ (qc_vld qc = true →
       qr_vld ans = true
       ∧ qr_error ans = (size <=? qc_level qc)
       ∧ (size ≤ qc_level qc →
            qr_key ans = 0 ∧ qr_volume ans = 0 ∧ qr_listsize ans = 0)
       ∧ (qc_level qc < size →
            ∃ e, ctxt !! N.to_nat (qc_level qc) = Some e
                 ∧ qr_key ans = key e ∧ qr_volume ans = volume e
                 ∧ qr_listsize ans = size)).
Proof.
  intros Hr Hw Hc Ha ans ctxt size.
  destruct (reachable_pipes_ok _ _ _ _ Hr) as [_ Hq].
  assert (reachable CONTEXT_N ENTRIES_N LISTSIZE_W m1) as Hr1
    by by eapply reachable_cycle.
  destruct (ctxt_at_ok CONTEXT_N ENTRIES_N m1 (qc_id qc)
              (reachable_ok _ _ _ _ Hr1)) as [_ Hsz].
  fold ctxt in Hsz.
  apply cycle_effect in Hc as (_ & _ & _ & _ & Hq1).
  destruct (advance_pipes _ _ _ _ _ _ Ha) as (_ & ys & _ & Hl & _ & Hq2).
  assert (ans = query_answer LISTSIZE_W qc ctxt) as ->.
  { subst ans. rewrite Hq2, Hq1. unfold tick.
    rewrite ticks_head; [| by apply pipe_ok_push_back, pipe_ok_step | done].
    by apply (staged_push_back QUERY_PIPE_DELAY), pipe_ok_step. }
  unfold query_answer. split; [by intros -> | intros ->].
  fold size. destruct (N.leb_spec size (qc_level qc)) as [Hle|Hlt].
  - split_and!; [done | done | done | lia].
  - destruct (lookup_lt_is_Some_2 ctxt (N.to_nat (qc_level qc))) as [e He];
      [subst size; lia|].
    rewrite He. split_and!; [done | done | lia |].
    intros _. exists e. split_and!; [done | done | done |].
    cbn. unfold static_cast. apply N.mod_small. subst size. lia.
Qed.

(** Add(5,10) into the empty context and Query(level 0) in the same
    cycle: one cycle later the answer at the head is the new entry. *)
Lemma query_answer_due_after_query_delay_witness :
  let m1 := model_of (cycle 1 4 8 (UpdateCommand_make 0 Add 5 10)
                        (QueryCommand_make 0 0) T0 T0 (make 1)) in
  let m2 := model_of (cycles 1 4 8 m1 [idle]) in
  let ans := DelayPipe.head (queries_pipe_ m2) in
  qr_error ans = false
  ∧ qr_key ans = 5 ∧ qr_volume ans = 10 ∧ qr_listsize ans = 1.
Proof.
  intros m1 m2 ans.
  destruct (query_answer_due_after_query_delay 1 4 8 (make 1) m1 m2
              (UpdateCommand_make 0 Add 5 10) (QueryCommand_make 0 0) T0 T0)
    as [_ H];
    [apply reachable_make | reflexivity | vm_compute; reflexivity | |].
  { apply (advance_cycle 1 4 8 0 m1 m1 T0 T0 T0 T0);
      [apply advance_here | vm_compute; reflexivity]. }
  destruct (H eq_refl) as (Hv & He & _ & Hgood).
  destruct Hgood as (e & Hlk & Hk & Hvol & Hls); [reflexivity|].
  vm_compute in Hlk. injection Hlk as <-.
  split_and!; [exact He | exact Hk | exact Hvol | exact Hls].
Defined.

(** X8.  A completed cycle keeps the number of contexts and changes no
    context other than the one its update command addresses; without a
    valid update command it changes none, whatever the query command. *)
Theorem cycle_touches_one_context (CONTEXT_N ENTRIES_N : nat) (LISTSIZE_W : N)
    (m m1 : ValidationModel) (uc : UpdateCommand) (qc : QueryCommand)
    (nr : NotifyResponse) (qr : QueryResponse) :
  cycle CONTEXT_N ENTRIES_N LISTSIZE_W uc qc nr qr m = Done m1 →
  length (tbl_ m1) = length (tbl_ m)
  ∧ (uc_vld uc = false → tbl_ m1 = tbl_ m)
  ∧ (∀ j, j ≠ N.to_nat (uc_id uc) → tbl_ m1 !! j = tbl_ m !! j).
Proof.
  intros (_ & _ & Ht & _)%cycle_effect. rewrite Ht.
  destruct (uc_vld uc); split_and!; try done.
  - apply length_insert.
  - intros j Hj. by apply list_lookup_insert_ne.
Qed.

Lemma cycle_touches_one_context_witness :
  let m := model_of (cycles 3 4 8 (make 3)
                       [update_only (UpdateCommand_make 2 Add 5 10)]) in
  let m1 := model_of (cycle 3 4 8 (UpdateCommand_make 1 Add 6 1)
                        (QueryCommand_make 2 0) T0 T0 m) in
  tbl_ m1 !! 2%nat = Some [mkEntry 5 10] ∧ tbl_ m1 !! 0%nat = Some [].
Proof.
  intros m m1.
  destruct (cycle_touches_one_context 3 4 8 m m1 (UpdateCommand_make 1 Add 6 1)
              (QueryCommand_make 2 0) T0 T0) as (_ & _ & H);
    [vm_compute; reflexivity|].
  split.
  - refine (eq_trans (H 2%nat _) _); [vm_compute; discriminate | reflexivity].
  - refine (eq_trans (H 0%nat _) _); [vm_compute; discriminate | reflexivity].
Defined.

(** X9.  Every model a run can hold, whatever commands (Clear, Add,
    Delete, Replace, queries) and resets led to it, has [CONTEXT_N]
    contexts, each sorted ascending by key. *)
Theorem reachable_contexts_sorted (CONTEXT_N ENTRIES_N : nat) (LISTSIZE_W : N)
    (m : ValidationModel) :
  reachable CONTEXT_N ENTRIES_N LISTSIZE_W m →
  length (tbl_ m) = CONTEXT_N ∧ Forall (StronglySorted key_le) (tbl_ m).
Proof.
  intros [Hl Hall]%reachable_ok. split; [exact Hl|].
  eapply Forall_impl; [exact Hall|]. by intros c [? _].
Qed.

Lemma reachable_contexts_sorted_witness :
  let m := model_of (cycles 2 4 8 (make 2)
                       [update_only (UpdateCommand_make 1 Add 5 10);
                        update_only (UpdateCommand_make 1 Add 3 20)]) in
  tbl_ m = [[]; [mkEntry 3 20; mkEntry 5 10]]
  ∧ Forall (StronglySorted key_le) (tbl_ m).
Proof.
  intros m. split; [reflexivity|].
  apply (reachable_contexts_sorted 2 4 8).
  apply (reachable_cycle 2 4 8
           (model_of (cycles 2 4 8 (make 2)
                        [update_only (UpdateCommand_make 1 Add 5 10)]))
           (UpdateCommand_make 1 Add 3 20) T0 T0 T0);
    [|vm_compute; reflexivity].
  apply (reachable_cycle 2 4 8 (make 2) (UpdateCommand_make 1 Add 5 10) T0 T0 T0);
    [apply reachable_make | vm_compute; reflexivity].
Defined.

(** ** Delete and Replace of a present key *)

(** The search of Delete and Replace splits the context at the first
    entry that carries the key. *)
Lemma find_if_key_split (k : key_t) (ctxt : list Entry) :
  Exists (λ e, key e = k) ctxt →
  ∃ pre e post,
    ctxt = pre ++ e :: post
    ∧ Forall (λ x, key x ≠ k) pre
    ∧ key e = k
    ∧ find_if (λ x, key x =? k) ctxt = Some (length pre, e).
Proof.
  induction ctxt as [|x r IH]; [by intros H; inversion H|].
  intros H. cbn [find_if].
  destruct (N.eqb_spec (key x) k) as [Hx|Hx].
  - exists [], x, r. by split_and!.
  - destruct IH as (pre & e & post & -> & Hpre & He & F).
    { inversion H; [done | assumption]. }
    exists (x :: pre), e, post. rewrite F.
    split_and!; [done | by constructor | done | done].
Qed.

(** X10.  A Delete whose key some entry of the addressed context carries
    removes the first such entry and nothing else; the response pushed
    for it is the notify of that entry when it is the head and the
    invalid response when it lies behind the head. *)
Theorem delete_removes_first_match (CONTEXT_N ENTRIES_N : nat)
    (m : ValidationModel) (ctxt : list Entry) :
  uc_vld (uc_ m) = true →
  uc_cmd (uc_ m) = Del →
  uc_id (uc_ m) < N.of_nat CONTEXT_N →
  tbl_ m !! N.to_nat (uc_id (uc_ m)) = Some ctxt →
  Exists (λ e, key e = uc_key (uc_ m)) ctxt →
  ∃ m' pre e post,
    ctxt = pre ++ e :: post
    ∧ Forall (λ x, key x ≠ uc_key (uc_ m)) pre
    ∧ key e = uc_key (uc_ m)
    ∧ handle_uc CONTEXT_N ENTRIES_N m = Done m'
    ∧ tbl_ m' !! N.to_nat (uc_id (uc_ m)) = Some (pre ++ post)
    ∧ notify_pipe_ m'
      = DelayPipe.push_back (notify_pipe_ m)
          (match pre with
           | [] => NotifyResponse_make (uc_id (uc_ m)) (key e) (volume e)
           | _ :: _ => T0
           end).
Proof.
  intros Hv Hcmd Hid Hc Hex.
  destruct (find_if_key_split _ _ Hex) as (pre & e & post & -> & Hpre & He & F).
  destruct (handle_uc_in_range CONTEXT_N ENTRIES_N m _ Hv Hid Hc)
    as (m' & Hm' & Ht & Hp & _).
  rewrite del_rep_context, F, Hcmd in Ht by auto.
  rewrite del_rep_pushed, F in Hp by auto.
  rewrite delete_middle in Ht.
  exists m', pre, e, post.
  split_and!; [done | done | done | done | |].
  - rewrite Ht. apply list_lookup_insert_eq. by eapply lookup_lt_Some.
  - rewrite Hp. by destruct pre.
Qed.

(** Delete(key=3) on [{3,20},{3,21},{5,99}]: the first of the two
    entries of key 3 goes. *)
Lemma delete_removes_first_match_witness :
  let m := mkVM (UpdateCommand_make 0 Del 3 0) T0 T0 T0
                [[mkEntry 3 20; mkEntry 3 21; mkEntry 5 99]]
                (DelayPipe.make UPDATE_PIPE_DELAY)
                (DelayPipe.make UPDATE_PIPE_DELAY)
                (DelayPipe.make QUERY_PIPE_DELAY) in
  ∃ m', handle_uc 1 4 m = Done m'
        ∧ tbl_ m' !! 0%nat = Some [mkEntry 3 21; mkEntry 5 99].
Proof.
  intros m.
  destruct (delete_removes_first_match 1 4 m
              [mkEntry 3 20; mkEntry 3 21; mkEntry 5 99])
    as (m' & pre & e & post & E & Hpre & He & Hm' & Ht & _);
    [reflexivity | reflexivity | reflexivity | reflexivity
    | by left |].
  exists m'. split; [exact Hm'|].
  destruct pre as [|x pre].
  - injection E as <- <-. exact Ht.
  - injection E as <- E. apply Forall_cons in Hpre as [Hx _]. by destruct Hx.
Defined.

(** X11.  A Replace whose key some entry of the addressed context
    carries gives the first such entry the volume of the command and
    changes nothing else: keys, order and length stay.  The response
    pushed for it is the notify of that entry with its old volume when
    it is the head and the invalid response otherwise. *)
Theorem replace_rewrites_first_match (CONTEXT_N ENTRIES_N : nat)
    (m : ValidationModel) (ctxt : list Entry) :
  uc_vld (uc_ m) = true →
  uc_cmd (uc_ m) = Rep →
  uc_id (uc_ m) < N.of_nat CONTEXT_N →
  tbl_ m !! N.to_nat (uc_id (uc_ m)) = Some ctxt →
  Exists (λ e, key e = uc_key (uc_ m)) ctxt →
  ∃ m' pre e post,
    ctxt = pre ++ e :: post
    ∧ Forall (λ x, key x ≠ uc_key (uc_ m)) pre
    ∧ key e = uc_key (uc_ m)
    ∧ handle_uc CONTEXT_N ENTRIES_N m = Done m'
    ∧ tbl_ m' !! N.to_nat (uc_id (uc_ m))
      = Some (pre ++ mkEntry (uc_key (uc_ m)) (uc_volume (uc_ m)) :: post)
    ∧ notify_pipe_ m'
      = DelayPipe.push_back (notify_pipe_ m)
          (match pre with
           | [] => NotifyResponse_make (uc_id (uc_ m)) (key e) (volume e)
           | _ :: _ => T0
           end).
Proof.
  intros Hv Hcmd Hid Hc Hex.
  destruct (find_if_key_split _ _ Hex) as (pre & e & post & -> & Hpre & He & F).
  destruct (handle_uc_in_range CONTEXT_N ENTRIES_N m _ Hv Hid Hc)
    as (m' & Hm' & Ht & Hp & _).
  rewrite del_rep_context, F, Hcmd in Ht by auto.
  rewrite del_rep_pushed, F in Hp by auto.
  rewrite <- (Nat.add_0_r (length pre)), insert_app_r in Ht. cbn in Ht.
  rewrite He in Ht.
  exists m', pre, e, post.
  split_and!; [done | done | done | done | |].
  - rewrite Ht. apply list_lookup_insert_eq. by eapply lookup_lt_Some.
  - rewrite Hp. by destruct pre.
Qed.

(** The third scenario of the specification: Replace(key=5, volume=99)
    on [{3,20},{5,10}] gives [{3,20},{5,99}] and pushes no notify. *)
Lemma replace_rewrites_first_match_witness :
  let m := mkVM (UpdateCommand_make 0 Rep 5 99) T0 T0 T0
                [[mkEntry 3 20; mkEntry 5 10]]
                (DelayPipe.make UPDATE_PIPE_DELAY)
                (DelayPipe.make UPDATE_PIPE_DELAY)
                (DelayPipe.make QUERY_PIPE_DELAY) in
  ∃ m', handle_uc 1 4 m = Done m'
        ∧ tbl_ m' !! 0%nat = Some [mkEntry 3 20; mkEntry 5 99]
        ∧ notify_pipe_ m' = DelayPipe.push_back (notify_pipe_ m) T0.
Proof.
  intros m.
  destruct (replace_rewrites_first_match 1 4 m [mkEntry 3 20; mkEntry 5 10])
    as (m' & pre & e & post & E & Hpre & He & Hm' & Ht & Hp);
    [reflexivity | reflexivity | reflexivity | reflexivity
    | by right; left |].
  exists m'. split; [exact Hm'|].
  destruct pre as [|x [|y pre]].
  - injection E as <- <-. discriminate He.
  - injection E as <- <- <-. split; [exact Ht | exact Hp].
  - injection E as <- <- E. apply Forall_cons in Hpre as [_ Hy].
    apply Forall_cons in Hy as [Hy _]. by destruct Hy.
Defined.

(** ** Where an Add puts its entry *)

Lemma filter_none (P : Entry → Prop) `{!∀ x, Decision (P x)} (l : list Entry) :
  Forall (λ x, ¬ P x) l → filter P l = [].
Proof.
  induction 1 as [|x r Hx _ IH]; [done|].
  by rewrite filter_cons_False.
Qed.

Lemma StronglySorted_filter (P : Entry → Prop) `{!∀ x, Decision (P x)}
    (l : list Entry) :
  StronglySorted key_le l → StronglySorted key_le (filter P l).
Proof.
  induction 1 as [|x r Hr IH Hx]; [constructor|].
  rewrite filter_cons. case_decide; [|done].
  constructor; [done|].
  apply Forall_forall. intros y [_ Hy]%list_elem_of_filter.
  rewrite Forall_forall in Hx. by apply Hx.
Qed.

(** In a sorted context the stable sort puts a pushed entry behind the
    entries whose key is not above its own and in front of the rest. *)
Lemma stable_sort_snoc (c : list Entry) (e : Entry) :
  StronglySorted key_le c →
  stable_sort (c ++ [e])
  = filter (λ x, key x ≤ key e) c ++ e :: filter (λ x, key e < key x) c.
Proof.
  intros Hs. symmetry. apply stable_sort_unique.
  - apply StronglySorted_app_2.
    + intros x y [Hx _]%list_elem_of_filter Hy.
      apply elem_of_cons in Hy as [-> | [Hy _]%list_elem_of_filter];
        unfold key_le; lia.
    + by apply StronglySorted_filter.
    + constructor; [by apply StronglySorted_filter|].
      apply Forall_forall. intros y [Hy _]%list_elem_of_filter.
      unfold key_le. lia.
  - intros k. unfold with_key. rewrite !filter_app, !filter_cons, filter_nil.
    destruct (decide (k ≤ key e)) as [Hk|Hk].
    + rewrite (list_filter_filter_l (λ x, key x = k) (λ x, key x ≤ key e))
        by (intros x; lia).
      rewrite (filter_none _ (filter (λ x, key e < key x) c)).
      * by destruct (decide (key e = k)).
      * apply Forall_forall. intros y [Hy _]%list_elem_of_filter. lia.
    + rewrite (filter_none _ (filter (λ x, key x ≤ key e) c)).
      * rewrite (list_filter_filter_l (λ x, key x = k) (λ x, key e < key x))
          by (intros x; lia).
        rewrite !decide_False by lia. by rewrite app_nil_r.
      * apply Forall_forall. intros y [Hy _]%list_elem_of_filter. lia.
Qed.

(** X12.  In a model the run can hold, an Add of [(k, v)] leaves the
    addressed context as the old entries of key at most [k], then the
    new entry, then the old entries of key above [k], cut to the first
    [ENTRIES_N] positions. *)
Theorem add_lands_behind_equal_keys (CONTEXT_N ENTRIES_N : nat) (LISTSIZE_W : N)
    (m : ValidationModel) (id : id_t) (k : key_t) (v : volume_t)
    (ctxt : list Entry) :
  reachable CONTEXT_N ENTRIES_N LISTSIZE_W m →
  id < N.of_nat CONTEXT_N →
  tbl_ m !! N.to_nat id = Some ctxt →
  ∃ m', handle_uc CONTEXT_N ENTRIES_N
          (apply_uc (UpdateCommand_make id Add k v) m) = Done m'
    ∧ tbl_ m' !! N.to_nat id
      = Some (take ENTRIES_N
                (filter (λ x, key x ≤ k) ctxt
                 ++ mkEntry k v :: filter (λ x, k < key x) ctxt)).
Proof.
  intros Hr Hid Hc.
  pose proof (reachable_ok _ _ _ _ Hr) as [_ Hall].
  pose proof (Forall_lookup_1 _ _ _ _ Hall Hc) as [Hs Hl].
  set (uc := UpdateCommand_make id Add k v).
  destruct (handle_uc_in_range CONTEXT_N ENTRIES_N (apply_uc uc m) ctxt
              eq_refl Hid Hc) as (m' & Hm' & Ht & _).
  cbn [apply_uc uc_ tbl_] in Ht.
  rewrite (add_context ENTRIES_N uc ctxt eq_refl) in Ht.
  cbn [uc uc_key uc_volume uc_id UpdateCommand_make] in Ht.
  pose proof (length_stable_sort (ctxt ++ [mkEntry k v])) as Hlen.
  rewrite length_app in Hlen. cbn [length] in Hlen.
  rewrite (stable_sort_snoc ctxt (mkEntry k v) Hs) in Ht, Hlen. cbn [key] in Ht, Hlen.
  set (l := filter _ ctxt ++ _ :: filter _ ctxt) in *.
  exists m'. split; [exact Hm'|].
  rewrite Ht, list_lookup_insert_eq by by eapply lookup_lt_Some.
  f_equal. destruct (Nat.ltb_spec ENTRIES_N (length l)).
  - rewrite removelast_firstn_len. f_equal. lia.
  - by rewrite take_ge.
Qed.

(** Capacity 3 and the context [{3,1},{5,2},{5,3}]: Add(5,4) lands
    behind both entries of key 5 and is cut off; Add(4,9) lands between
    the keys 3 and 5 and the last entry of key 5 is cut off. *)
Lemma add_lands_behind_equal_keys_witness :
  let m := model_of (cycles 1 3 8 (make 1)
                       [update_only (UpdateCommand_make 0 Add 5 2);
                        update_only (UpdateCommand_make 0 Add 3 1);
                        update_only (UpdateCommand_make 0 Add 5 3)]) in
  tbl_ m = [[mkEntry 3 1; mkEntry 5 2; mkEntry 5 3]]
  ∧ (∃ m', handle_uc 1 3 (apply_uc (UpdateCommand_make 0 Add 5 4) m) = Done m'
           ∧ tbl_ m' !! 0%nat = Some [mkEntry 3 1; mkEntry 5 2; mkEntry 5 3])
  ∧ (∃ m', handle_uc 1 3 (apply_uc (UpdateCommand_make 0 Add 4 9) m) = Done m'
           ∧ tbl_ m' !! 0%nat = Some [mkEntry 3 1; mkEntry 4 9; mkEntry 5 2]).
Proof.
  intros m.
  assert (reachable 1 3 8 m) as Hr.
  { apply (reachable_cycle 1 3 8
             (model_of (cycles 1 3 8 (make 1)
                          [update_only (UpdateCommand_make 0 Add 5 2);
                           update_only (UpdateCommand_make 0 Add 3 1)]))
             (UpdateCommand_make 0 Add 5 3) T0 T0 T0);
      [|vm_compute; reflexivity].
    apply (reachable_cycle 1 3 8
             (model_of (cycles 1 3 8 (make 1)
                          [update_only (UpdateCommand_make 0 Add 5 2)]))
             (UpdateCommand_make 0 Add 3 1) T0 T0 T0);
      [|vm_compute; reflexivity].
    apply (reachable_cycle 1 3 8 (make 1)
             (UpdateCommand_make 0 Add 5 2) T0 T0 T0);
      [apply reachable_make | vm_compute; reflexivity]. }
  split_and!; [reflexivity | |].
  - destruct (add_lands_behind_equal_keys 1 3 8 m 0 5 4
                [mkEntry 3 1; mkEntry 5 2; mkEntry 5 3] Hr)
      as (m' & Hm' & Ht); [reflexivity | reflexivity |].
    exists m'. split; [exact Hm' | exact Ht].
  - destruct (add_lands_behind_equal_keys 1 3 8 m 0 4 9
                [mkEntry 3 1; mkEntry 5 2; mkEntry 5 3] Hr)
      as (m' & Hm' & Ht); [reflexivity | reflexivity |].
    exists m'. split; [exact Hm' | exact Ht].
Defined.

(** X13.  In a model the run can hold, configured so that [listsize_t]
    can represent [ENTRIES_N]: after an Add of [(k, v)] into a context
    that has room, the query for the level that counts the old entries
    of key at most [k] answers with key [k], volume [v], no error and
    the size grown by one. *)
Theorem add_then_query_finds_entry (CONTEXT_N ENTRIES_N : nat) (LISTSIZE_W : N)
    (m : ValidationModel) (id : id_t) (k : key_t) (v : volume_t)
    (ctxt : list Entry) :
  reachable CONTEXT_N ENTRIES_N LISTSIZE_W m →
  N.of_nat ENTRIES_N < 2 ^ LISTSIZE_W →
  id < N.of_nat CONTEXT_N →
  tbl_ m !! N.to_nat id = Some ctxt →
  (length ctxt < ENTRIES_N)%nat →
  let level := N.of_nat (length (filter (λ x, key x ≤ k) ctxt)) in
  ∃ m', handle_uc CONTEXT_N ENTRIES_N
          (apply_uc (UpdateCommand_make id Add k v) m) = Done m'
    ∧ handle_qc CONTEXT_N LISTSIZE_W (apply_qc (QueryCommand_make id level) m')
      = Done (set_queries_pipe
                (λ p, DelayPipe.push_back p
                        (QueryResponse_make k v false
                           (N.of_nat (length ctxt + 1))))
                (apply_qc (QueryCommand_make id level) m')).
Proof.
  intros Hr Hw Hid Hc Hroom level.
  pose proof (reachable_ok _ _ _ _ Hr) as [_ Hall].
  pose proof (Forall_lookup_1 _ _ _ _ Hall Hc) as [Hs _].
  set (uc := UpdateCommand_make id Add k v).
  destruct (handle_uc_in_range CONTEXT_N ENTRIES_N (apply_uc uc m) ctxt
              eq_refl Hid Hc) as (m' & Hm' & Ht & _).
  cbn [apply_uc uc_ tbl_] in Ht.
  rewrite (add_context ENTRIES_N uc ctxt eq_refl) in Ht.
  cbn [uc uc_key uc_volume uc_id UpdateCommand_make] in Ht.
  pose proof (length_stable_sort (ctxt ++ [mkEntry k v])) as Hlen.
  rewrite length_app in Hlen. cbn [length] in Hlen.
  destruct (Nat.ltb_spec ENTRIES_N
              (length (stable_sort (ctxt ++ [mkEntry k v])))); [lia|].
  rewrite (stable_sort_snoc ctxt (mkEntry k v) Hs) in Ht, Hlen. cbn [key] in Ht, Hlen.
  set (lo := filter (λ x, key x ≤ k) ctxt) in *.
  set (hi := filter (λ x, k < key x) ctxt) in *.
  assert (tbl_ m' !! N.to_nat id = Some (lo ++ mkEntry k v :: hi)) as Hc'.
  { rewrite Ht. apply list_lookup_insert_eq. by eapply lookup_lt_Some. }
  exists m'. split; [exact Hm'|].
  unfold handle_qc, ASSERT_LT, ctxt_at.
  cbn [apply_qc qc_ qc_vld qc_id qc_level QueryCommand_make tbl_].
  apply N.ltb_lt in Hid. rewrite Hid, Hc'. cbn [from_option Datatypes.id].
  rewrite Hlen.
  assert (length lo ≤ length ctxt)%nat as Hlo by apply length_filter.
  destruct (N.leb_spec (N.of_nat (length ctxt + 1)) level); [subst level; lia|].
  subst level. rewrite Nat2N.id, list_lookup_middle by done.
  cbn [key volume]. unfold static_cast.
  by rewrite N.mod_small by lia.
Qed.

Lemma add_then_query_finds_entry_witness :
  let m := model_of (cycles 1 4 8 (make 1)
                       [update_only (UpdateCommand_make 0 Add 5 10)]) in
  ∃ m', handle_uc 1 4 (apply_uc (UpdateCommand_make 0 Add 3 20) m) = Done m'
        ∧ handle_qc 1 8 (apply_qc (QueryCommand_make 0 0) m')
          = Done (set_queries_pipe
                    (λ p, DelayPipe.push_back p (QueryResponse_make 3 20 false 2))
                    (apply_qc (QueryCommand_make 0 0) m')).
Proof.
  intros m.
  assert (reachable 1 4 8 m) as Hr.
  { apply (reachable_cycle 1 4 8 (make 1)
             (UpdateCommand_make 0 Add 5 10) T0 T0 T0);
      [apply reachable_make | vm_compute; reflexivity]. }
  destruct (add_then_query_finds_entry 1 4 8 m 0 3 20 [mkEntry 5 10] Hr)
    as (m' & Hm' & Hq);
    [reflexivity | reflexivity | reflexivity | cbn; lia |].
  exists m'. split; [exact Hm' | exact Hq].
Defined.

(** ** The drive loop *)

Lemma time_no_edge (n : nat) :
  (S n `mod` 5 ≠ 0 → S n / 5 = n / 5 ∧ S n / 10 = n / 10)%nat.
Proof.
  intros H.
  pose proof (Nat.div_mod_eq n 5). pose proof (Nat.div_mod_eq (S n) 5).
  pose proof (Nat.div_mod_eq n 10). pose proof (Nat.div_mod_eq (S n) 10).
  pose proof (Nat.mod_upper_bound n 5). pose proof (Nat.mod_upper_bound (S n) 5).
  pose proof (Nat.mod_upper_bound n 10). pose proof (Nat.mod_upper_bound (S n) 10).
  lia.
Qed.

Lemma time_edge (n : nat) :
  (S n `mod` 5 = 0 →
   S n / 5 = S (n / 5)
   ∧ (Nat.odd (n / 5) = true → S n / 10 = S (n / 10) ∧ S n = 10 * S (n / 10))
   ∧ (Nat.odd (n / 5) = false → S n / 10 = n / 10))%nat.
Proof.
  intros H.
  pose proof (Nat.div_mod_eq n 5). pose proof (Nat.div_mod_eq (S n) 5).
  pose proof (Nat.div_mod_eq n 10). pose proof (Nat.div_mod_eq (S n) 10).
  pose proof (Nat.mod_upper_bound n 5). pose proof (Nat.mod_upper_bound (S n) 5).
  pose proof (Nat.mod_upper_bound n 10). pose proof (Nat.mod_upper_bound (S n) 10).
  split_and!; [lia | |].
  - intros [q Hq]%Nat.odd_spec. lia.
  - intros Ho. assert (Nat.even (n / 5) = true) as [q Hq]%Nat.even_spec.
    { rewrite <- Nat.negb_odd, Ho. done. }
    lia.
Qed.

Section tb_run_facts.
Variable CONTEXT_N : nat.
Variable ENTRIES_N : nat.
Variable LISTSIZE_W : N.
Variable TIME_W : N.
Context {HW : Type}.
Variable eval : Vtb HW → Vtb HW.
Context {TEST : Type}.
Variable on_negedge_clk :
  TEST → UpdateCommand → QueryCommand → TEST * UpdateCommand * QueryCommand * Status.

(** The simulated design does not drive its own clock and reset
    inputs. *)
Hypothesis eval_inputs : ∀ tb, clk (eval tb) = clk tb ∧ rst (eval tb) = rst tb.

Variable t0 : TEST.

Lemma cycle_fatal (uc : UpdateCommand) (qc : QueryCommand)
    (nr : NotifyResponse) (qr : QueryResponse) (m m' : ValidationModel) :
  cycle CONTEXT_N ENTRIES_N LISTSIZE_W uc qc nr qr m = Fatal m' →
  (uc_vld uc = true → uc_id uc < N.of_nat CONTEXT_N) →
  (qc_vld qc = true → qc_id qc < N.of_nat CONTEXT_N) →
  False.
Proof.
  unfold cycle, step. set (m0 := set_queries_pipe _ (set_notify_pipe _ _)).
  intros H Hu Hq.
  assert (∃ ma, handle_uc CONTEXT_N ENTRIES_N m0 = Done ma ∧ qc_ ma = qc)
    as (ma & Ha & Hqc).
  { assert (uc_ m0 = uc) as Huc by done. assert (qc_ m0 = qc) as Hqc by done.
    clearbody m0. unfold handle_uc, ASSERT_LT. rewrite Huc.
    destruct (uc_vld uc); cbn [negb]; [|by eexists].
    apply N.ltb_lt in Hu; [|done]. rewrite Hu.
    destruct (handle_uc_switch _ _ _) as [c [x|]]; by eexists. }
  rewrite Ha in H. cbn [and_then] in H.
  assert (∃ mb, handle_qc CONTEXT_N LISTSIZE_W ma = Done mb) as (mb & Hb).
  { unfold handle_qc, ASSERT_LT. rewrite Hqc.
    destruct (qc_vld qc); [|by eexists].
    apply N.ltb_lt in Hq; [|done]. rewrite Hq. by eexists. }
  by rewrite Hb in H.
Qed.

Lemma clk_Drive (tb : Vtb HW) (up : UpdateCommand) (qc : QueryCommand) :
  clk (Drive_qc (Drive_uc tb up) qc) = clk tb.
Proof. unfold Drive_qc, Drive_uc. by destruct (uc_vld up), (qc_vld qc). Qed.

Lemma advance_maybe_reset (n : nat) (m m' : ValidationModel) (b : bool) :
  advance CONTEXT_N ENTRIES_N LISTSIZE_W n m m' →
  advance CONTEXT_N ENTRIES_N LISTSIZE_W n m (if b then reset m' else m').
Proof. intros H. destruct b; [by apply advance_reset | done]. Qed.

Lemma iteration_inv (n : nat) (s : TBState HW TEST) :
  tb_running CONTEXT_N ENTRIES_N LISTSIZE_W on_negedge_clk t0 n s →
  N.of_nat (S n) < 2 ^ TIME_W →
  match iteration CONTEXT_N ENTRIES_N LISTSIZE_W TIME_W eval on_negedge_clk s with
  | Running s' =>
      tb_running CONTEXT_N ENTRIES_N LISTSIZE_W on_negedge_clk t0 (S n) s'
  | Finished s' =>
      tb_finished CONTEXT_N ENTRIES_N LISTSIZE_W on_negedge_clk t0 (S n) s'
  | Aborted _ => tb_aborted CONTEXT_N on_negedge_clk t0 (S n)
  end.
Proof.
  intros (Ht & Hclk & Htest & Hadv & Hdo & Hst) Hw.
  unfold iteration. cbn [tb_time_ uut_ mdl_ test_ do_stepping].
  rewrite Ht.
  replace ((N.of_nat n + 1) `mod` 2 ^ TIME_W) with (N.of_nat (S n))
    by (rewrite N.mod_small; lia).
  replace (N.of_nat (S n) `mod` 5) with (N.of_nat (S n `mod` 5))
    by (by rewrite Nat2N.inj_mod).
  destruct (N.eqb_spec (N.of_nat (S n `mod` 5)) 0) as [E|E].
  - (* a clock edge *)
    assert (S n `mod` 5 = 0)%nat as E' by lia.
    destruct (time_edge n E') as (H5 & Hodd & Heven).
    rewrite Hclk. destruct (Nat.odd (n / 5)) eqn:Ho.
    + (* falling *)
      destruct (Hodd eq_refl) as [H10 Hn].
      unfold negedge. cbn [tb_time_ uut_ mdl_ test_ do_stepping].
      destruct (on_negedge_clk (test_ s) T0 T0) as [[[t up] qc] st] eqn:Hcall.
      assert (t = test_after on_negedge_clk (S (n / 10)) t0) as Ht'.
      { change (t = (on_negedge_clk
                       (test_after on_negedge_clk (n / 10) t0) T0 T0).1.1.1).
        by rewrite <- Htest, Hcall. }
      assert (st = status_at on_negedge_clk (n / 10) t0) as Hst'
        by (unfold status_at; by rewrite <- Htest, Hcall).
      destruct (cycle _ _ _ up qc _ _ (mdl_ s)) as [m|m] eqn:Hc.
      2:{ exists (n / 10)%nat. split; [exact Hn|].
          unfold ids_ok, commands_at. rewrite <- Htest, Hcall. cbn [fst snd].
          intros [? ?]. by eapply cycle_fatal. }
      assert (advance CONTEXT_N ENTRIES_N LISTSIZE_W (S (n / 10))
                (make CONTEXT_N) m) as Hadv' by by eapply advance_cycle.
      assert (st ≠ Terminate →
              ∀ j, (j < S (n / 10))%nat →
                   status_at on_negedge_clk j t0 ≠ Terminate) as Hst''.
      { intros Hne j Hj. destruct (decide (j = n / 10)%nat) as [->|];
          [by rewrite <- Hst' | apply Hst; lia]. }
      assert (clk (Drive_qc (Drive_uc (uut_ s) up) qc) = true) as Hclk'
        by (rewrite clk_Drive; congruence).
      destruct st; cbn [tb_time_ uut_ mdl_ test_ do_stepping];
        rewrite ?Hdo; unfold tb_running, tb_finished;
        cbn [tb_time_ uut_ mdl_ test_ do_stepping];
        rewrite (proj1 (eval_inputs _)); cbn [clk set_clk set_rst];
        rewrite Hclk'; cbn [negb andb];
        rewrite ?H5, ?H10, ?Nat.odd_succ, <- ?Nat.negb_odd, ?Ho; cbn [negb].
      * (* ApplyReset *)
        split_and!; [done | done | done | by apply advance_reset | done
                    | by apply Hst''].
      * (* RescindReset *)
        split_and!; [done | done | done | done | done | by apply Hst''].
      * (* Terminate *)
        exists (n / 10)%nat.
        split_and!; [lia | done | done | done | done | done].
      * (* Continue *)
        split_and!; [done | done | done | done | done | by apply Hst''].
      * (* any other directive *)
        split_and!; [done | done | done | done | done | by apply Hst''].
    + (* rising *)
      specialize (Heven eq_refl).
      cbn [tb_time_ uut_ mdl_ test_ do_stepping]. rewrite Hdo.
      unfold tb_running. cbn [tb_time_ uut_ mdl_ test_ do_stepping].
      rewrite H5, Heven, Nat.odd_succ, <- Nat.negb_odd, Ho.
      rewrite (proj1 (eval_inputs _)). cbn [clk set_clk]. rewrite Hclk. cbn [negb].
      split_and!; [done | done | done | by apply advance_maybe_reset | done | done].
  - (* no clock edge *)
    assert (S n `mod` 5 ≠ 0)%nat as E' by lia.
    destruct (time_no_edge n E') as [H5 H10].
    cbn [tb_time_ uut_ mdl_ test_ do_stepping]. rewrite Hdo.
    unfold tb_running. cbn [tb_time_ uut_ mdl_ test_ do_stepping].
    rewrite H5, H10, (proj1 (eval_inputs _)).
    split_and!; [done | done | done | by apply advance_maybe_reset | done | done].
Qed.
Lemma rst_Drive (tb : Vtb HW) (up : UpdateCommand) (qc : QueryCommand) :
  rst (Drive_qc (Drive_uc tb up) qc) = rst tb.
Proof. unfold Drive_qc, Drive_uc. by destruct (uc_vld up), (qc_vld qc). Qed.

Lemma iteration_reset_inv (n : nat) (s s' : TBState HW TEST) :
  tb_running CONTEXT_N ENTRIES_N LISTSIZE_W on_negedge_clk t0 n s →
  tb_reset_inv on_negedge_clk t0 n s →
  N.of_nat (S n) < 2 ^ TIME_W →
  iteration CONTEXT_N ENTRIES_N LISTSIZE_W TIME_W eval on_negedge_clk s
  = Running s' →
  tb_reset_inv on_negedge_clk t0 (S n) s'.
Proof.
  intros (Ht & Hclk & Htest & Hadv & Hdo & Hst) [Hrst _] Hw.
  unfold tb_reset_inv, iteration. cbn [tb_time_ uut_ mdl_ test_ do_stepping].
  rewrite Ht.
  replace ((N.of_nat n + 1) `mod` 2 ^ TIME_W) with (N.of_nat (S n))
    by (rewrite N.mod_small; lia).
  replace (N.of_nat (S n) `mod` 5) with (N.of_nat (S n `mod` 5))
    by (by rewrite Nat2N.inj_mod).
  destruct (N.eqb_spec (N.of_nat (S n `mod` 5)) 0) as [E|E].
  - assert (S n `mod` 5 = 0)%nat as E' by lia.
    destruct (time_edge n E') as (H5 & Hodd & Heven).
    rewrite Hclk. destruct (Nat.odd (n / 5)) eqn:Ho.
    + destruct (Hodd eq_refl) as [H10 Hn].
      unfold negedge. cbn [tb_time_ uut_ mdl_ test_ do_stepping].
      destruct (on_negedge_clk (test_ s) T0 T0) as [[[t up] qc] st] eqn:Hcall.
      assert (st = status_at on_negedge_clk (n / 10) t0) as Hst'
        by (unfold status_at; by rewrite <- Htest, Hcall).
      destruct (cycle _ _ _ up qc _ _ (mdl_ s)) as [m|m] eqn:Hc; [|done].
      rewrite H10. cbn [reset_asserted]. rewrite <- Hst'.
      destruct st; cbn [tb_time_ uut_ mdl_ test_ do_stepping]; rewrite ?Hdo;
        intros Hs'; split;
        try (injection Hs' as <-; cbn [uut_ mdl_];
             rewrite ?(proj2 (eval_inputs _)); cbn [rst set_clk set_rst];
             rewrite ?rst_Drive; done);
        try done;
        injection Hs' as <-; cbn [uut_ mdl_]; intros -> ->;
        apply reset_contexts_empty.
    + specialize (Heven eq_refl).
      cbn [tb_time_ uut_ mdl_ test_ do_stepping]. rewrite Hdo.
      intros [= <-]. split; cbn [uut_ mdl_].
      * rewrite (proj2 (eval_inputs _)), Heven. done.
      * intros -> ->. apply reset_contexts_empty.
  - assert (S n `mod` 5 ≠ 0)%nat as E' by lia.
    destruct (time_no_edge n E') as [H5 H10].
    cbn [tb_time_ uut_ mdl_ test_ do_stepping]. rewrite Hdo.
    intros [= <-]. split; cbn [uut_ mdl_].
    + rewrite (proj2 (eval_inputs _)), H10. done.
    + intros -> ->. apply reset_contexts_empty.
Qed.

Variable uut0 : Vtb HW.

Lemma run_n_inv (n : nat) :
  N.of_nat n < 2 ^ TIME_W →
  match run_n CONTEXT_N ENTRIES_N LISTSIZE_W TIME_W eval on_negedge_clk n
          (tb_start CONTEXT_N uut0 t0) with
  | Running s =>
      tb_running CONTEXT_N ENTRIES_N LISTSIZE_W on_negedge_clk t0 n s
  | Finished s =>
      ∃ n', (n' ≤ n)%nat
            ∧ tb_finished CONTEXT_N ENTRIES_N LISTSIZE_W on_negedge_clk t0 n' s
  | Aborted _ =>
      ∃ n', (n' ≤ n)%nat ∧ tb_aborted CONTEXT_N on_negedge_clk t0 n'
  end.
Proof.
  induction n as [|n IH]; intros Hw.
  - cbn. unfold tb_running. cbn.
    split_and!; [done | done | done | apply advance_here | done | intros; lia].
  - cbn [run_n]. specialize (IH ltac:(lia)).
    destruct (run_n _ _ _ _ _ _ n _) as [s|s|s].
    + pose proof (iteration_inv n s IH Hw) as Hi.
      destruct (iteration _ _ _ _ _ _ s); [done | by exists (S n) | by exists (S n)].
    + destruct IH as (n' & ? & ?). exists n'. split; [lia | done].
    + destruct IH as (n' & ? & ?). exists n'. split; [lia | done].
Qed.

(** X14.  [TB::run], followed while [tb_time_] does not overflow, with a
    design that leaves its clock and reset inputs alone.  While the
    loop runs, after [n] iterations [tb_time_] is [n], the clock is
    high exactly when [n / 5] is odd, the test has been consulted
    [n / 10] times (once per falling edge) without answering Terminate,
    and the model has completed [n / 10] cycles from its constructed
    state, with resets between them.  When the loop has ended, it ended
    in an iteration [10 * (k + 1)] in which call number [k] of the test
    answered Terminate for the first time, the model having completed
    its cycle for that call as well.  When the run was aborted, it was
    in an iteration [10 * (k + 1)] by a command of call number [k]
    whose context id fails the assertion of the model. *)
Theorem tb_run_follows_clock (n : nat) :
  N.of_nat n < 2 ^ TIME_W →
  match run_n CONTEXT_N ENTRIES_N LISTSIZE_W TIME_W eval on_negedge_clk n
          (tb_start CONTEXT_N uut0 t0) with
  | Running s =>
      tb_time_ s = N.of_nat n
      ∧ clk (uut_ s) = Nat.odd (n / 5)
      ∧ test_ s = test_after on_negedge_clk (n / 10) t0
      ∧ advance CONTEXT_N ENTRIES_N LISTSIZE_W (n / 10) (make CONTEXT_N) (mdl_ s)
      ∧ (∀ j, (j < n / 10)%nat → status_at on_negedge_clk j t0 ≠ Terminate)
  | Finished s =>
      ∃ k, (10 * S k ≤ n)%nat
           ∧ tb_time_ s = N.of_nat (10 * S k)
           ∧ status_at on_negedge_clk k t0 = Terminate
           ∧ (∀ j, (j < k)%nat → status_at on_negedge_clk j t0 ≠ Terminate)
           ∧ test_ s = test_after on_negedge_clk (S k) t0
           ∧ advance CONTEXT_N ENTRIES_N LISTSIZE_W (S k) (make CONTEXT_N) (mdl_ s)
  | Aborted _ =>
      ∃ k, (10 * S k ≤ n)%nat
           ∧ ¬ ids_ok CONTEXT_N (commands_at on_negedge_clk k t0)
  end.
Proof.
  intros Hw. pose proof (run_n_inv n Hw) as H.
  destruct (run_n _ _ _ _ _ _ n _) as [s|s|s].
  - destruct H as (? & ? & ? & ? & _ & ?). by split_and!.
  - destruct H as (n' & Hn' & k & -> & ? & ? & ? & ? & ?).
    exists k. by split_and!.
  - destruct H as (n' & Hn' & k & -> & ?). by exists k.
Qed.

(** X15.  [TB::run] ends, and ends where the test says so: when call
    number [k] of the test is the first to answer Terminate and no
    command up to then carries a context id that fails the assertion of
    the model, the loop is still running after every iteration before
    number [10 * (k + 1)] and is left in that iteration, with
    [tb_time_ = 10 * (k + 1)] and the model [k + 1] completed cycles
    from its constructed state. *)
Theorem tb_run_ends_at_first_terminate (k : nat) :
  N.of_nat (10 * S k) < 2 ^ TIME_W →
  (∀ j, (j ≤ k)%nat → ids_ok CONTEXT_N (commands_at on_negedge_clk j t0)) →
  status_at on_negedge_clk k t0 = Terminate →
  (∀ j, (j < k)%nat → status_at on_negedge_clk j t0 ≠ Terminate) →
  (∀ n, (n < 10 * S k)%nat →
        ∃ s, run_n CONTEXT_N ENTRIES_N LISTSIZE_W TIME_W eval on_negedge_clk n
               (tb_start CONTEXT_N uut0 t0) = Running s)
  ∧ ∃ s, run_n CONTEXT_N ENTRIES_N LISTSIZE_W TIME_W eval on_negedge_clk
           (10 * S k) (tb_start CONTEXT_N uut0 t0) = Finished s
         ∧ tb_time_ s = N.of_nat (10 * S k)
         ∧ test_ s = test_after on_negedge_clk (S k) t0
         ∧ advance CONTEXT_N ENTRIES_N LISTSIZE_W (S k) (make CONTEXT_N) (mdl_ s).
Proof.
  intros Hw Hids Hterm Hfirst.
  assert (∀ n, (n < 10 * S k)%nat →
            ∃ s, run_n CONTEXT_N ENTRIES_N LISTSIZE_W TIME_W eval on_negedge_clk n
                   (tb_start CONTEXT_N uut0 t0) = Running s) as Hrun.
  { induction n as [|n IH]; intros Hn; [by eexists|].
    destruct IH as [s Hs]; [lia|].
    pose proof (run_n_inv n ltac:(lia)) as Hinv. rewrite Hs in Hinv.
    pose proof (iteration_inv n s Hinv ltac:(lia)) as Hi.
    cbn [run_n]. rewrite Hs.
    destruct (iteration _ _ _ _ _ _ s) as [s'|s'|s']; [by eexists | |].
    - destruct Hi as (k' & Hk' & _ & Ht & _).
      destruct (Hfirst k'); [lia | done].
    - destruct Hi as (k' & Hk' & Hbad). destruct Hbad. apply Hids. lia. }
  split; [exact Hrun|].
  destruct (Hrun (10 * k + 9)%nat) as [s Hs]; [lia|].
  pose proof (run_n_inv (10 * k + 9) ltac:(lia)) as Hinv. rewrite Hs in Hinv.
  pose proof (iteration_inv (10 * k + 9) s Hinv ltac:(lia)) as Hi.
  replace (10 * S k)%nat with (S (10 * k + 9)) by lia.
  cbn [run_n]. rewrite Hs.
  destruct (iteration _ _ _ _ _ _ s) as [s'|s'|s'].
  - destruct Hi as (_ & _ & _ & _ & _ & Hst).
    destruct (Hst k); [|done].
    pose proof (Nat.div_mod_eq (S (10 * k + 9)) 10).
    pose proof (Nat.mod_upper_bound (S (10 * k + 9)) 10). lia.
  - destruct Hi as (k' & Hk' & Ht & _ & _ & Htest & Hadv).
    assert (k' = k) as -> by lia.
    exists s'. by split_and!.
  - destruct Hi as (k' & Hk' & Hbad). destruct Hbad. apply Hids. lia.
Qed.

(** X16.  In [TB::run], while the loop runs, the reset input of the
    design is asserted exactly when the last ApplyReset or RescindReset
    among the directives received so far was an ApplyReset, and at the
    end of every iteration that leaves clock and reset both high every
    context of the model is empty. *)
Theorem tb_reset_follows_directives (n : nat) (s : TBState HW TEST) :
  N.of_nat n < 2 ^ TIME_W →
  run_n CONTEXT_N ENTRIES_N LISTSIZE_W TIME_W eval on_negedge_clk n
    (tb_start CONTEXT_N uut0 t0) = Running s →
  rst (uut_ s) = reset_asserted on_negedge_clk (n / 10) t0
  ∧ (clk (uut_ s) = true → rst (uut_ s) = true →
     Forall (λ c, c = []) (tbl_ (mdl_ s))).
Proof.
  revert s. induction n as [|n IH]; intros s Hw.
  - intros [= <-]. split; [done|]. cbn. discriminate.
  - cbn [run_n].
    pose proof (run_n_inv n ltac:(lia)) as Hinv.
    destruct (run_n _ _ _ _ _ _ n _) as [s0| |] eqn:Hs0; [|done..].
    intros Hit.
    by apply (iteration_reset_inv n s0 s Hinv (IH s0 ltac:(lia) eq_refl) Hw).
Qed.
End tb_run_facts.

Lemma tb_run_follows_clock_witness :
  let s := tb_state_of (run_n 1 4 8 64 (λ tb, tb) two_call_test 17
                          (tb_start 1 still_uut 0%nat)) in
  tb_time_ s = 17
  ∧ clk (uut_ s) = true
  ∧ test_ s = 1%nat
  ∧ tbl_ (mdl_ s) = [[mkEntry 5 10]].
Proof.
  intros s.
  pose proof (tb_run_follows_clock 1 4 8 64 (λ tb, tb) two_call_test
                (λ tb, conj eq_refl eq_refl) 0%nat still_uut 17) as H.
  assert (run_n 1 4 8 64 (λ tb, tb) two_call_test 17
            (tb_start 1 still_uut 0%nat) = Running s) as E
    by (vm_compute; reflexivity).
  rewrite E in H. destruct H as (Ht & Hc & Htest & _); [vm_compute; reflexivity|].
  split_and!; [exact Ht | exact Hc | exact Htest | reflexivity].
Defined.

Lemma tb_run_ends_at_first_terminate_witness :
  let s := tb_state_of (run_n 1 4 8 64 (λ tb, tb) two_call_test 20
                          (tb_start 1 still_uut 0%nat)) in
  run_n 1 4 8 64 (λ tb, tb) two_call_test 20 (tb_start 1 still_uut 0%nat)
  = Finished s
  ∧ tb_time_ s = 20
  ∧ test_ s = 2%nat.
Proof.
  intros s.
  destruct (tb_run_ends_at_first_terminate 1 4 8 64 (λ tb, tb) two_call_test
              (λ tb, conj eq_refl eq_refl) 0%nat still_uut 1)
    as (_ & s' & Hs' & Ht & Htest & _).
  - vm_compute; reflexivity.
  - intros [|[|j]] Hj; [| | lia]; split; vm_compute; first [ done | discriminate ].
  - reflexivity.
  - intros [|j] Hj; [vm_compute; discriminate | lia].
  - change (10 * 2)%nat with 20%nat in Hs', Ht.
    assert (s' = s) as -> by (subst s; by rewrite Hs').
    split_and!; [exact Hs' | exact Ht | exact Htest].
Defined.

(** After 28 iterations of the loop with [reset_test]: the reset asked
    for at time 20 is asserted, the clock is high, and the entry added
    at time 10 is gone. *)
Lemma tb_reset_follows_directives_witness :
  let s := tb_state_of (run_n 1 4 8 64 (λ tb, tb) reset_test 28
                          (tb_start 1 still_uut 0%nat)) in
  rst (uut_ s) = true ∧ clk (uut_ s) = true ∧ tbl_ (mdl_ s) = [[]].
Proof.
  intros s.
  destruct (tb_reset_follows_directives 1 4 8 64 (λ tb, tb) reset_test
              (λ tb, conj eq_refl eq_refl) 0%nat still_uut 28 s)
    as [Hr He]; [vm_compute; reflexivity | vm_compute; reflexivity |].
  assert (clk (uut_ s) = true) as Hc by (vm_compute; reflexivity).
  split_and!; [exact Hr | exact Hc |].
  specialize (He Hc Hr).
  destruct (tbl_ (mdl_ s)) as [|c [|c' l]] eqn:E; [done | | done].
  apply Forall_cons in He as [-> _]. reflexivity.
Defined.

(** ** Directed tests *)

Section directed_facts.
Variable SIZE_W : N.

Lemma decrement_pos (k : N) :
  1 ≤ k → k < 2 ^ SIZE_W → Directed.decrement SIZE_W k = k - 1.
Proof.
  intros H1 H2. unfold Directed.decrement.
  replace (k + 2 ^ SIZE_W - 1) with (k - 1 + 1 * 2 ^ SIZE_W) by lia.
  rewrite N.Div0.mod_add. apply N.mod_small. lia.
Qed.

Lemma calls_empty (busy : list bool) :
  Directed.calls SIZE_W busy [] = ([], replicate (length busy) None).
Proof. induction busy as [|b busy IH]; [done|]. cbn. by rewrite IH. Qed.

(** A wait of [k] cycles takes [k] calls, each of them issuing the pair
    of invalid commands. *)
Lemma calls_wait (busy1 busy2 : list bool) (k : N) (u : UpdateCommand)
    (q : QueryCommand) (rest : list Instruction.t) :
  1 ≤ k → k < 2 ^ SIZE_W →
  length busy1 = N.to_nat k →
  Directed.calls SIZE_W (busy1 ++ busy2)
    (Instruction.mk WaitCycles k u q :: rest)
  = ((Directed.calls SIZE_W busy2 rest).1,
     replicate (N.to_nat k) (Some (T0, T0))
     ++ (Directed.calls SIZE_W busy2 rest).2).
Proof.
  revert k. induction busy1 as [|b busy1 IH]; intros k H1 H2 Hl.
  { cbn in Hl. lia. }
  cbn [app Directed.calls Directed.on_negedge_clk Instruction.op Instruction.n
       Instruction.uc Instruction.qc].
  rewrite decrement_pos by done.
  destruct (N.eqb_spec (k - 1) 0) as [E|E];
    cbn [Directed.deque Directed.issued fst snd].
  - assert (k = 1) as -> by lia. destruct busy1; [|cbn in Hl; lia]. done.
  - rewrite IH; [| lia | lia | cbn in Hl; lia ].
    cbn [fst snd]. f_equal.
    replace (N.to_nat k) with (S (N.to_nat (k - 1))) by lia. done.
Qed.
End directed_facts.

(** X17.  A deque of emits and of waits with counts from 1 up, worked
    off by one call of [on_negedge_clk] per falling edge, issues what
    the instructions stand for, in order: one pair of commands for every
    emit, and for every wait of [n] cycles [n] pairs of invalid
    commands.  With the last of them the deque is empty; every further
    call issues nothing and leaves it empty. *)
Theorem directed_program_issues_its_stimulus (SIZE_W : N)
    (d : list Instruction.t) (busy1 busy2 : list bool) :
  Forall (Directed.timed SIZE_W) d →
  length busy1 = length (d ≫= Directed.stimulus) →
  Directed.calls SIZE_W (busy1 ++ busy2) d
  = ([], (Some <$> (d ≫= Directed.stimulus)) ++ replicate (length busy2) None).
Proof.
  intros Hd. revert busy1. induction Hd as [|i d Hi Hd IH]; intros busy1 Hl.
  - destruct busy1; [|done]. apply calls_empty.
  - rewrite bind_cons, length_app in Hl. rewrite bind_cons, fmap_app.
    destruct i as [o k u q].
    destruct Hi as [Ho | (Ho & H1 & H2)]; cbn in Ho; subst o.
    + (* an emit *)
      destruct busy1 as [|b busy1]; [done|].
      cbn in Hl. injection Hl as Hl.
      cbn [app Directed.calls Directed.on_negedge_clk Instruction.op
           Instruction.uc Instruction.qc Directed.deque Directed.issued].
      rewrite (IH busy1 Hl). done.
    + (* a wait *)
      unfold Directed.stimulus in Hl at 1. cbn in Hl.
      rewrite length_replicate in Hl.
      rewrite <- (take_drop (N.to_nat k) busy1), <- (assoc_L (++)).
      rewrite calls_wait; [| done | done | rewrite length_take; lia].
      rewrite IH by (rewrite length_drop; lia).
      cbn [fst snd]. f_equal.
      unfold Directed.stimulus at 2. cbn.
      by rewrite fmap_replicate, <- (assoc_L (++)).
Qed.

(** The program [push_back(Add 0 5 10); wait_cycles(2); push_back(Del 0 5)]
    takes four calls. *)
Lemma directed_program_issues_its_stimulus_witness :
  let add := UpdateCommand_make 0 Add 5 10 in
  let del := UpdateCommand_make 0 Del 5 0 in
  let d := Directed.push_back del T0
             (Directed.wait_cycles 2 (Directed.push_back add T0 [])) in
  Directed.calls 64 [false; false; false; false; false] d
  = ([], [Some (add, T0); Some (T0, T0); Some (T0, T0); Some (del, T0); None]).
Proof.
  intros add del d.
  refine (eq_trans
            (directed_program_issues_its_stimulus 64 d
               [false; false; false; false] [false] _ _) _).
  - apply Forall_cons; split; [by left|].
    apply Forall_cons; split;
      [right; split_and!; [reflexivity | cbn; lia | by vm_compute]|].
    apply Forall_cons; split; [by left|]. apply Forall_nil_2.
  - reflexivity.
  - reflexivity.
Defined.

(** X18.  A wait of 0 cycles does not pass at once: the decrement wraps,
    the first call leaves the instruction at the head of the deque with
    the count [2 ^ SIZE_W - 1], and it takes [2 ^ SIZE_W] calls, each
    issuing the pair of invalid commands, before the next instruction is
    reached. *)
Theorem wait_of_zero_cycles_wraps (SIZE_W : N) (rest : list Instruction.t)
    (b : bool) (busy1 busy2 : list bool) :
  1 ≤ SIZE_W →
  length busy1 = N.to_nat (2 ^ SIZE_W) →
  Directed.deque
    (Directed.on_negedge_clk SIZE_W b (Directed.wait_cycles 0 [] ++ rest))
  = Instruction.mk WaitCycles (2 ^ SIZE_W - 1) T0 T0 :: rest
  ∧ Directed.calls SIZE_W (busy1 ++ busy2) (Directed.wait_cycles 0 [] ++ rest)
    = ((Directed.calls SIZE_W busy2 rest).1,
       replicate (N.to_nat (2 ^ SIZE_W)) (Some (T0, T0))
       ++ (Directed.calls SIZE_W busy2 rest).2).
Proof.
  intros HW Hl.
  assert (2 ≤ 2 ^ SIZE_W) as Hp.
  { change 2 with (2 ^ 1) at 1. apply N.pow_le_mono_r; lia. }
  assert (Directed.decrement SIZE_W 0 = 2 ^ SIZE_W - 1) as Hdec.
  { unfold Directed.decrement. rewrite N.add_0_l. apply N.mod_small. lia. }
  assert (Directed.on_negedge_clk SIZE_W b (Directed.wait_cycles 0 [] ++ rest)
          = Directed.mkCall
              (Instruction.mk WaitCycles (2 ^ SIZE_W - 1) T0 T0 :: rest)
              (Some (T0, T0)) None false) as Hcall.
  { cbn. rewrite Hdec. destruct (N.eqb_spec (2 ^ SIZE_W - 1) 0); [lia | done]. }
  split; [by rewrite Hcall|].
  destruct busy1 as [|b1 busy1]; [cbn in Hl; lia|].
  cbn [app Directed.calls].
  assert (∀ b', Directed.on_negedge_clk SIZE_W b'
                  (Directed.wait_cycles 0 [] ++ rest)
                = Directed.mkCall
                    (Instruction.mk WaitCycles (2 ^ SIZE_W - 1) T0 T0 :: rest)
                    (Some (T0, T0)) None false) as Hany.
  { intros b'. cbn. rewrite Hdec.
    destruct (N.eqb_spec (2 ^ SIZE_W - 1) 0); [lia | done]. }
  rewrite Hany. cbn [Directed.deque Directed.issued].
  rewrite calls_wait; [| lia | lia | cbn in Hl; lia].
  cbn [fst snd]. f_equal.
  replace (N.to_nat (2 ^ SIZE_W)) with (S (N.to_nat (2 ^ SIZE_W - 1))) by lia.
  done.
Qed.

(** With a [size_t] of 3 bits the wait of 0 cycles takes 8 calls. *)
Lemma wait_of_zero_cycles_wraps_witness :
  Directed.calls 3 (replicate 9 false)
    (Directed.wait_cycles 0 [] ++ [Instruction.make_emit T0 T0])
  = ([], replicate 9 (Some (T0, T0))).
Proof.
  destruct (wait_of_zero_cycles_wraps 3 [Instruction.make_emit T0 T0] false
              (replicate 8 false) [false]) as [_ H];
    [lia | reflexivity |].
  exact H.
Defined.

(** ** Facts about the command line driver *)

Lemma list_ind_tail {A} (P : list A → Prop) :
  P [] → (∀ a l, P l → P (tail l) → P (a :: l)) → ∀ l, P l.
Proof.
  intros Hnil Hcons l. cut (P l ∧ P (tail l)); [tauto|].
  induction l as [|a l [IH1 IH2]]; [by split|].
  split; [by apply Hcons | exact IH1].
Qed.

Section driver_facts.
Context {B : Type}.
Variable tests : list B.
Variable get : string → option B.
Variable name : B → string.
Variable passes : B → bool.

Lemma run_all_spec bs d :
  Driver.status_ (Driver.run_all passes bs d).1 = Driver.status_ d ∧
  ∃ ok rest, bs = ok ++ rest ∧ Forall (λ b, passes b = true) ok ∧
    match rest with
    | [] => (Driver.run_all passes bs d).2 = true ∧
            Driver.trace_ (Driver.run_all passes bs d).1
              = Driver.trace_ d ++ (Driver.Ran <$> ok)
    | b :: _ => (Driver.run_all passes bs d).2 = false ∧ passes b = false ∧
            Driver.trace_ (Driver.run_all passes bs d).1
              = Driver.trace_ d ++ (Driver.Ran <$> ok) ++ [Driver.Ran b]
    end.
Proof.
  revert d. induction bs as [|b bs IH]; intros d.
  - split; [done|]. exists [], []. cbn. by rewrite app_nil_r.
  - cbn [Driver.run_all Driver.run_builder fst snd].
    destruct (passes b) eqn:Hb.
    + destruct (IH (Driver.emit [Driver.Ran b] d)) as (Hs & ok & rest & -> & Hok & H).
      split; [by rewrite Hs|]. exists (b :: ok), rest.
      split_and!; [done | by constructor |].
      cbn [Driver.emit Driver.trace_] in H.
      destruct rest; cbn [fmap list_fmap];
        [destruct H as [-> ->] | destruct H as (-> & ? & ->)];
        split_and!; try done; by rewrite <- app_assoc.
    + split; [done|]. exists [], (b :: bs). cbn. done.
Qed.

Lemma run_all_passed bs d :
  (Driver.run_all passes bs d).2 = true →
  Driver.status_ (Driver.run_all passes bs d).1 = Driver.status_ d ∧
  ∃ ok, Forall (λ b, passes b = true) ok ∧
    Driver.trace_ (Driver.run_all passes bs d).1 = Driver.trace_ d ++ (Driver.Ran <$> ok).
Proof.
  intros Hr. destruct (run_all_spec bs d) as (Hs & ok & rest & _ & Hok & H).
  split; [done|]. exists ok. split; [done|].
  destruct rest; [tauto|]. destruct H as [H _]. congruence.
Qed.

Lemma run_named_passed n d :
  (Driver.run_named get passes n d).2 = true →
  ∃ b, get n = Some b ∧ passes b = true ∧
       Driver.run_named get passes n d = (Driver.emit [Driver.Ran b] d, true).
Proof.
  unfold Driver.run_named, Driver.run_builder. destruct (get n) as [b|]; cbn; [|done].
  intros H. exists b. by rewrite H.
Qed.

(** X19. When [execute] returns with status 0, everything it did was to
    run tests that passed: it printed nothing (no usage text, no list
    of tests, no unknown argument) and no test it ran failed. *)
Theorem status_zero_means_all_passed args d d' :
  Driver.execute tests get name passes args d = Driver.Returned d' →
  Driver.status_ d = 0 →
  Driver.status_ d' = 0 →
  ∃ bs, Forall (λ b, passes b = true) bs ∧
        Driver.trace_ d' = Driver.trace_ d ++ (Driver.Ran <$> bs).
Proof.
  revert d. induction args as [|a rest IH IHt] using list_ind_tail; intros d.
  - cbn. intros [= ->] _ _. exists []. cbn. by rewrite app_nil_r.
  - cbn [Driver.execute].
    destruct (_ || _)%bool; [by intros [= <-]|].
    destruct (a =? "-v")%string.
    { intros He H0 H0'. by apply (IH _ He). }
    destruct (a =? "--list")%string; [by intros [= <-]|].
    destruct (a =? "--vcd")%string.
    { destruct rest as [|x rest].
      - intros [= <-] _ _. exists []. cbn. by rewrite app_nil_r.
      - intros He H0 H0'. by apply (IHt _ He). }
    destruct (a =? "--runall")%string.
    { destruct (Driver.run_all passes tests d).2 eqn:Hr; [|by intros [= <-]].
      destruct (run_all_passed tests d Hr) as (Hs & ok & Hok & Ht).
      intros He H0 H0'. destruct (IH _ He) as (bs & Hbs & Ht'); [congruence | done |].
      exists (ok ++ bs). split; [by apply Forall_app|].
      by rewrite Ht', Ht, fmap_app, app_assoc. }
    destruct (a =? "--run")%string; [|by intros [= <-]].
    destruct rest as [|n rest]; [done|].
    destruct (Driver.run_named get passes n d).2 eqn:Hr; [|by intros [= <-]].
    destruct (run_named_passed n d Hr) as (b & _ & Hb & Hn). rewrite Hn. cbn [fst].
    intros He H0 H0'. destruct (IHt _ He) as (bs & Hbs & Ht'); [done..|].
    exists (b :: bs). split; [by constructor|].
    rewrite Ht'. cbn. by rewrite <- app_assoc.
Qed.

Lemma execute_failure_last args d :
  Forall (Driver.no_failure passes) (Driver.trace_ d) →
  ∃ l tl, Driver.trace_ (Driver.state_of (Driver.execute tests get name passes args d)) = l ++ tl ∧
          Forall (Driver.no_failure passes) l ∧ (length tl ≤ 1)%nat.
Proof.
  revert d. induction args as [|a rest IH IHt] using list_ind_tail; intros d Hd.
  - exists (Driver.trace_ d), []. cbn. rewrite app_nil_r. auto.
  - assert (Hprint : ∀ es st, Forall (Driver.no_failure passes) es →
      ∃ l tl, Driver.trace_ (Driver.set_status st (Driver.emit es d)) = l ++ tl ∧
              Forall (Driver.no_failure passes) l ∧ (length tl ≤ 1)%nat).
    { intros es st Hes. eexists _, []. rewrite app_nil_r. split; [done|].
      split; [|cbn; lia]. cbn. by apply Forall_app. }
    assert (Hlines : ∀ (A : Type) (f : A → string) (ls : list A),
              Forall (Driver.no_failure passes) ((λ x, Driver.Printed (f x)) <$> ls)).
    { intros A f ls. apply Forall_fmap, Forall_forall. by intros x _ b. }
    cbn [Driver.execute].
    destruct (_ || _)%bool; [apply Hprint, (Hlines _ id)|].
    destruct (a =? "-v")%string; [by apply IH|].
    destruct (a =? "--list")%string.
    { apply Hprint, Hlines. }
    destruct (a =? "--vcd")%string.
    { destruct rest as [|x rest]; [|by apply IHt].
      exists (Driver.trace_ d), []. cbn. rewrite app_nil_r. auto. }
    destruct (a =? "--runall")%string.
    { destruct (run_all_spec tests d) as (_ & ok & rst & _ & Hok & H).
      assert (Hpre : Forall (Driver.no_failure passes) (Driver.trace_ d ++ (Driver.Ran <$> ok))).
      { apply Forall_app. split; [done|]. apply Forall_fmap.
        eapply Forall_impl; [exact Hok|]. by intros b Hb b' [= <-]. }
      destruct rst as [|b rst].
      - destruct H as [-> Ht]. apply IH. by rewrite Ht.
      - destruct H as (-> & _ & Ht). cbn [Driver.state_of Driver.set_status Driver.trace_].
        rewrite Ht, app_assoc. eexists _, _. split; [done|]. split; [done|cbn; lia]. }
    destruct (a =? "--run")%string;
      [|apply Hprint; constructor; [by intros b|constructor]].
    destruct rest as [|n rest].
    { exists (Driver.trace_ d), []. cbn. rewrite app_nil_r. auto. }
    destruct (Driver.run_named get passes n d).2 eqn:Hr.
    + destruct (run_named_passed n d Hr) as (b & _ & Hb & Hn). rewrite Hn. cbn [fst].
      apply IHt. cbn. apply Forall_app. split; [done|].
      constructor; [|constructor]. by intros b' [= <-].
    + unfold Driver.run_named, Driver.run_builder.
      destruct (get n) as [b|]; cbn.
      * eexists _, _. split; [done|]. split; [done|cbn; lia].
      * exists (Driver.trace_ d), []. rewrite app_nil_r. auto.
Qed.

(** X20. The driver stops at the first test that fails: whatever test
    run is followed by another run or by output was a run that
    passed. *)
Theorem nothing_follows_a_failed_test args pre b post :
  Driver.trace_ (Driver.state_of (Driver.execute tests get name passes args Driver.make))
    = pre ++ Driver.Ran b :: post →
  post ≠ [] →
  passes b = true.
Proof.
  intros Ht Hpost.
  destruct (execute_failure_last args Driver.make) as (l & tl & Hl & Hok & Htl);
    [constructor|].
  rewrite Ht in Hl.
  assert (Hlen : (length pre < length l)%nat).
  { apply (f_equal length) in Hl. rewrite !length_app in Hl. cbn in Hl.
    destruct post; [done|]. cbn in Hl. lia. }
  assert (Hb : l !! length pre = Some (Driver.Ran b)).
  { rewrite <- (lookup_app_l l tl) by done. rewrite <- Hl. by rewrite list_lookup_middle. }
  by apply (Forall_lookup_1 _ _ _ _ Hok Hb).
Qed.

(** X21. [execute] reads behind the end of [argv] only when the last
    argument is [--run]: the name of the test is then missing, and the
    string is built from the null pointer that ends [argv]. *)
Theorem undefined_only_for_trailing_run args d d' :
  Driver.execute tests get name passes args d = Driver.Undefined d' →
  ∃ pre, args = pre ++ ["--run"%string].
Proof.
  revert d. induction args as [|a rest IH IHt] using list_ind_tail; intros d.
  - done.
  - assert (Hrest : ∀ d0, Driver.execute tests get name passes rest d0 = Driver.Undefined d' →
                          ∃ pre, a :: rest = pre ++ ["--run"%string]).
    { intros d0 H. destruct (IH _ H) as [pre ->]. by exists (a :: pre). }
    assert (Htail : ∀ x r d0, rest = x :: r →
              Driver.execute tests get name passes r d0 = Driver.Undefined d' →
              ∃ pre, a :: rest = pre ++ ["--run"%string]).
    { intros x r d0 -> H. destruct (IHt _ H) as [pre Hp]. cbn in Hp. subst r.
      by exists (a :: x :: pre). }
    cbn [Driver.execute].
    destruct (_ || _)%bool; [done|].
    destruct (a =? "-v")%string; [apply Hrest|].
    destruct (a =? "--list")%string; [done|].
    destruct (a =? "--vcd")%string.
    { destruct rest as [|x rest]; [done|]. by apply (Htail x rest). }
    destruct (a =? "--runall")%string.
    { destruct (Driver.run_all passes tests d).2; [apply Hrest | done]. }
    destruct (a =? "--run")%string eqn:Ha; [|done].
    apply String.eqb_eq in Ha. subst a.
    destruct rest as [|n rest]; [by exists []|].
    destruct (Driver.run_named get passes n d).2; [by apply (Htail n rest) | done].
Qed.

(** X22. [--runall] runs the registered tests in the order of the
    registry up to and with the first one that fails, sets the status
    to 1 and returns: the tests behind it are not run and the arguments
    behind [--runall] are not looked at. *)
Theorem runall_stops_behind_first_failure ok b rest args d :
  tests = ok ++ b :: rest →
  Forall (λ b, passes b = true) ok →
  passes b = false →
  Driver.execute tests get name passes ("--runall"%string :: args) d
    = Driver.Returned (Driver.set_status 1 (Driver.emit (Driver.Ran <$> ok ++ [b]) d)).
Proof.
  intros Ht Hok Hb. cbn [Driver.execute]. cbn -[Driver.run_all].
  assert (H : Driver.run_all passes tests d = (Driver.emit (Driver.Ran <$> ok ++ [b]) d, false)).
  { rewrite Ht. clear Ht. revert d. induction Hok as [|x ok Hx _ IH]; intros d.
    - cbn. by rewrite Hb.
    - cbn [Driver.run_all Driver.run_builder fst snd app]. rewrite Hx, IH.
      unfold Driver.emit. cbn. by rewrite <- app_assoc. }
  by rewrite H.
Qed.
End driver_facts.

(** The registry of two tests of which the first passes: with
    tracing and the first test asked for by name, the status stays 0
    and the trace is that one run. *)
Lemma status_zero_means_all_passed_witness :
  ∃ bs, Forall (λ b, Driver.two_tests_passes b = true) bs ∧
        [Driver.Ran "smoke"%string] = [] ++ (Driver.Ran <$> bs).
Proof.
  exact (status_zero_means_all_passed Driver.two_tests Driver.two_tests_get id
           Driver.two_tests_passes
           ["-v"; "--vcd"; "--run"; "--run"; "smoke"]%string Driver.make
           (Driver.mk 0 true true [Driver.Ran "smoke"%string])
           eq_refl eq_refl eq_refl).
Defined.

(** [--run smoke --list]: the run of [smoke] is followed by the list
    of the tests, so [smoke] passed. *)
Lemma nothing_follows_a_failed_test_witness :
  Driver.two_tests_passes "smoke" = true.
Proof.
  apply (nothing_follows_a_failed_test Driver.two_tests Driver.two_tests_get id
           Driver.two_tests_passes ["--run"; "smoke"; "--list"]%string
           [] "smoke"%string
           [Driver.Printed "smoke"; Driver.Printed "stress"]%string).
  - reflexivity.
  - discriminate.
Defined.

(** [-v --run] has no name behind [--run]. *)
Lemma undefined_only_for_trailing_run_witness :
  ∃ pre, ["-v"; "--run"]%string = pre ++ ["--run"%string].
Proof.
  exact (undefined_only_for_trailing_run Driver.two_tests Driver.two_tests_get id
           Driver.two_tests_passes ["-v"; "--run"]%string Driver.make
           (Driver.mk 0 false true []) eq_refl).
Defined.

(** With a registry whose first test fails, [--runall --run] runs that
    test alone and never reaches the [--run] without a name. *)
Lemma runall_stops_behind_first_failure_witness :
  Driver.execute ["stress"; "smoke"]%string Driver.two_tests_get id
    Driver.two_tests_passes ["--runall"; "--run"]%string Driver.make
  = Driver.Returned (Driver.mk 1 false false [Driver.Ran "stress"%string]).
Proof.
  apply (runall_stops_behind_first_failure ["stress"; "smoke"]%string
           Driver.two_tests_get id Driver.two_tests_passes
           [] "stress"%string ["smoke"%string] ["--run"%string] Driver.make).
  - reflexivity.
  - constructor.
  - reflexivity.
Defined.
